(** * md2conf: the command-line front end ([md2conf/__main__.py])

  A shallow embedding of [KwargsAppendAction.__call__] and [main], together
  with the part of the Python runtime they rely on:

  - [PyStr]: the [str] methods used by the source ([split], [lower],
    [upper], [startswith]);
  - [Logging]: the level table of the [logging] module;
  - [HeaderAction]: the expression inside [KwargsAppendAction.__call__];
  - [Argparse]: the parser that [main] declares, one action per
    [add_argument] call, run by the algorithm of
    [argparse.ArgumentParser.parse_args] as CPython 3.11 has it;
  - [Main]: [main] itself, over arbitrary behaviours of the collaborators
    ([Processor], [ConfluenceAPI], [Application]), which live in other
    modules of the package;
  - [Spec]: the notions the specification is worded in;
  - [Cover]: the notions the further properties are worded in.

  A Stdlib string stands for a Python [str] through its UTF-8 encoding.
  The string operations of the source and of the parser (splitting on
  [=], prefix tests, equality) look for characters below code 128, which
  the encoding keeps as single bytes; the digits of the parser's
  negative-number test are the decimal digits of Unicode 14.0, the
  version CPython 3.11 carries, read through the encoding. *)

From Stdlib Require Import String Ascii List ZArith Bool Lia DecimalString.
From stdpp Require Import gmap strings list fin_maps.
Import ListNotations.

Local Open Scope Z_scope.
Local Open Scope list_scope.

(** ** Python strings *)

Module PyStr.

(** [s.split(sep)] for a one-character separator: every occurrence of
    [sep] cuts, so the result has one more field than [s] has separators
    and is never empty. *)
Fixpoint split (sep : ascii) (s : string) : list string :=
  match s with
  | EmptyString => [EmptyString]
  | String c s' =>
      if Ascii.eqb c sep then EmptyString :: split sep s'
      else match split sep s' with
           | [] => [String c EmptyString]
           | field :: fields => String c field :: fields
           end
  end.

(** [sep in s] *)
Fixpoint contains (sep : ascii) (s : string) : bool :=
  match s with
  | EmptyString => false
  | String c s' => Ascii.eqb c sep || contains sep s'
  end.

(** Number of occurrences of [sep] in [s] ([s.count(sep)]). *)
Fixpoint count (sep : ascii) (s : string) : nat :=
  match s with
  | EmptyString => O
  | String c s' => ((if Ascii.eqb c sep then 1 else 0) + count sep s')%nat
  end.

(** [s.split(sep, 1)] when [sep in s]: the text before the first [sep] and
    the text after it; [None] when [s] has no [sep]. *)
Fixpoint split1 (sep : ascii) (s : string) : option (string * string) :=
  match s with
  | EmptyString => None
  | String c s' =>
      if Ascii.eqb c sep then Some (EmptyString, s')
      else match split1 sep s' with
           | Some (before, after) => Some (String c before, after)
           | None => None
           end
  end.

(** [s.startswith(p)] *)
Definition startswith (s p : string) : bool := String.prefix p s.

Definition is_upper_ascii (c : ascii) : bool :=
  let n := nat_of_ascii c in (65 <=? n)%nat && (n <=? 90)%nat.
Definition is_lower_ascii (c : ascii) : bool :=
  let n := nat_of_ascii c in (97 <=? n)%nat && (n <=? 122)%nat.

Definition lower_char (c : ascii) : ascii :=
  if is_upper_ascii c then ascii_of_nat (nat_of_ascii c + 32) else c.
Definition upper_char (c : ascii) : ascii :=
  if is_lower_ascii c then ascii_of_nat (nat_of_ascii c - 32) else c.

Fixpoint map_chars (f : ascii -> ascii) (s : string) : string :=
  match s with
  | EmptyString => EmptyString
  | String c s' => String (f c) (map_chars f s')
  end.

(** [s.lower()] and [s.upper()] on the letters A-Z and a-z.  The source
    applies them to level names only, which are made of these letters. *)
Definition lower : string -> string := map_chars lower_char.
Definition upper : string -> string := map_chars upper_char.

(** *** Decimal digits

    [\d] in a [str] pattern matches the characters of category Nd.  These
    are the ranges of Unicode 14.0 ([unicodedata.unidata_version] of
    CPython 3.11), first and last code point of each. *)
Definition decimal_digit_ranges : list (N * N) :=
  [ (48, 57); (1632, 1641); (1776, 1785); (1984, 1993); (2406, 2415);
    (2534, 2543); (2662, 2671); (2790, 2799); (2918, 2927); (3046, 3055);
    (3174, 3183); (3302, 3311); (3430, 3439); (3558, 3567); (3664, 3673);
    (3792, 3801); (3872, 3881); (4160, 4169); (4240, 4249); (6112, 6121);
    (6160, 6169); (6470, 6479); (6608, 6617); (6784, 6793); (6800, 6809);
    (6992, 7001); (7088, 7097); (7232, 7241); (7248, 7257); (42528, 42537);
    (43216, 43225); (43264, 43273); (43472, 43481); (43504, 43513);
    (43600, 43609); (44016, 44025); (65296, 65305); (66720, 66729);
    (68912, 68921); (69734, 69743); (69872, 69881); (69942, 69951);
    (70096, 70105); (70384, 70393); (70736, 70745); (70864, 70873);
    (71248, 71257); (71360, 71369); (71472, 71481); (71904, 71913);
    (72016, 72025); (72784, 72793); (73040, 73049); (73120, 73129);
    (92768, 92777); (92864, 92873); (93008, 93017); (120782, 120831);
    (123200, 123209); (123632, 123641); (125264, 125273);
    (130032, 130041) ]%N.

Definition is_decimal (code_point : N) : bool :=
  existsb (fun r => (fst r <=? code_point)%N && (code_point <=? snd r)%N)
          decimal_digit_ranges.

(** UTF-8: a continuation byte, and the code point of a sequence of two,
    three or four bytes.  A sequence that is not the shortest encoding of a
    code point, or that encodes a surrogate, is not valid; Python reads each
    byte of it as a lone surrogate, which is no digit. *)
Definition byte (c : ascii) : N := N_of_ascii c.
Definition continuation (c : ascii) : bool :=
  (128 <=? byte c)%N && (byte c <=? 191)%N.
Definition payload (c : ascii) : N := (byte c - 128)%N.

Definition decode2 (a b : ascii) : option N :=
  if (194 <=? byte a)%N && (byte a <=? 223)%N && continuation b
  then Some ((byte a - 192) * 64 + payload b)%N
  else None.
Definition decode3 (a b c : ascii) : option N :=
  let code_point := ((byte a - 224) * 4096 + payload b * 64 + payload c)%N in
  if (224 <=? byte a)%N && (byte a <=? 239)%N && continuation b
     && continuation c && (2048 <=? code_point)%N
     && negb ((55296 <=? code_point)%N && (code_point <=? 57343)%N)
  then Some code_point
  else None.
Definition decode4 (a b c d : ascii) : option N :=
  let code_point :=
    ((byte a - 240) * 262144 + payload b * 4096 + payload c * 64
     + payload d)%N in
  if (240 <=? byte a)%N && (byte a <=? 244)%N && continuation b
     && continuation c && continuation d
     && (65536 <=? code_point)%N && (code_point <=? 1114111)%N
  then Some code_point
  else None.

Definition is_decimal_at (code_point : option N) : bool :=
  match code_point with
  | Some n => is_decimal n
  | None => false
  end.

(** Every character of [s] is a decimal digit ([\d*] matching all of
    [s]). *)
Fixpoint all_digits (s : string) : bool :=
  match s with
  | EmptyString => true
  | String a r1 =>
      if (byte a <? 128)%N then is_decimal (byte a) && all_digits r1
      else
        match r1 with
        | EmptyString => false
        | String b r2 =>
            if (byte a <? 224)%N
            then is_decimal_at (decode2 a b) && all_digits r2
            else
              match r2 with
              | EmptyString => false
              | String c r3 =>
                  if (byte a <? 240)%N
                  then is_decimal_at (decode3 a b c) && all_digits r3
                  else
                    match r3 with
                    | EmptyString => false
                    | String d r4 =>
                        is_decimal_at (decode4 a b c d) && all_digits r4
                    end
              end
        end
  end.

End PyStr.

(** ** The [logging] module: levels and their names *)

Module Logging.

Definition DEBUG : Z := 10.
Definition INFO : Z := 20.
Definition WARNING : Z := 30.
Definition WARN : Z := WARNING.
Definition ERROR : Z := 40.
Definition CRITICAL : Z := 50.
Definition FATAL : Z := CRITICAL.
Definition NOTSET : Z := 0.

(** [logging.getLevelName(level)] for a registered level, and the
    ["Level %s"] text for any other number (rendered by [show]). *)
Definition getLevelName (show : Z -> string) (level : Z) : string :=
  if level =? 50 then "CRITICAL"
  else if level =? 40 then "ERROR"
  else if level =? 30 then "WARNING"
  else if level =? 20 then "INFO"
  else if level =? 10 then "DEBUG"
  else if level =? 0 then "NOTSET"
  else ("Level " +:+ show level).

(** [getattr(logging, name, default)] restricted to the level constants
    of the module, the only attributes an upper-cased level name can
    hit. *)
Definition getattr_level (name : string) (default : Z) : Z :=
  if String.eqb name "CRITICAL" then CRITICAL
  else if String.eqb name "FATAL" then FATAL
  else if String.eqb name "ERROR" then ERROR
  else if String.eqb name "WARNING" then WARNING
  else if String.eqb name "WARN" then WARN
  else if String.eqb name "INFO" then INFO
  else if String.eqb name "DEBUG" then DEBUG
  else if String.eqb name "NOTSET" then NOTSET
  else default.

End Logging.

(** ** [KwargsAppendAction]: the header-map parser *)

Module HeaderAction.

Definition equals_sign : ascii := "="%char.

(** [dict(pairs)]: every element must have exactly two fields, otherwise
    [ValueError] ([None]); a later key overwrites an earlier one. *)
Fixpoint dict_update (d : gmap string string) (items : list (list string))
  : option (gmap string string) :=
  match items with
  | [] => Some d
  | [k; v] :: rest => dict_update (<[k:=v]> d) rest
  | _ :: _ => None
  end.

Definition dict (items : list (list string)) : option (gmap string string) :=
  dict_update ∅ items.

(** [dict(map(lambda x: x.split("="), values))] *)
Definition parse_headers (values : list string) : option (gmap string string) :=
  dict (map (PyStr.split equals_sign) values).

(** The text of the [ArgumentError]; [shown] is Python's rendering of
    [values] inside the f-string. *)
Definition double_quote : string := String (ascii_of_nat 34) EmptyString.
Definition expected_format : string :=
  "It should follow the format: k1=v1 k2=v2 ...".
Definition could_not_parse_message (shown : string) : string :=
  "Could not parse argument " +:+ double_quote +:+ shown +:+ double_quote
    +:+ ". " +:+ expected_format.

End HeaderAction.

(** ** The argument parser declared by [main] *)

Module Argparse.

(** One constructor per [add_argument] call, plus the [-h/--help] action
    that [ArgumentParser()] registers itself. *)
Inductive action :=
| Help | Version | Mdpath
| Domain | BasePath | Username | Apikey | Space | Loglevel | RootPage
| GeneratedBy | NoGeneratedBy | RenderMermaid | NoRenderMermaid
| RenderMermaidFormat | HeadingAnchors | IgnoreInvalidUrl | Local
| Headers | WebuiLinks.

(** [parser._option_string_actions], in registration order. *)
Definition option_string_actions : list (string * action) :=
  [ ("-h", Help); ("--help", Help); ("--version", Version);
    ("-d", Domain); ("--domain", Domain);
    ("-p", BasePath); ("--path", BasePath);
    ("-u", Username); ("--username", Username);
    ("-a", Apikey); ("--apikey", Apikey);
    ("-s", Space); ("--space", Space);
    ("-l", Loglevel); ("--loglevel", Loglevel);
    ("-r", RootPage);
    ("--generated-by", GeneratedBy); ("--no-generated-by", NoGeneratedBy);
    ("--render-mermaid", RenderMermaid);
    ("--no-render-mermaid", NoRenderMermaid);
    ("--render-mermaid-format", RenderMermaidFormat);
    ("--heading-anchors", HeadingAnchors);
    ("--ignore-invalid-url", IgnoreInvalidUrl);
    ("--local", Local); ("--headers", Headers);
    ("--webui-links", WebuiLinks) ].

(** The [nargs] of an action: [None] (one string), [0] (a flag) and
    ['*'] are the three kinds this parser uses. *)
Inductive nargs := NargsOne | NargsZero | NargsStar.

Definition action_nargs (a : action) : nargs :=
  match a with
  | Mdpath | Domain | BasePath | Username | Apikey | Space | Loglevel
  | RootPage | GeneratedBy | RenderMermaidFormat => NargsOne
  | Headers => NargsStar
  | _ => NargsZero
  end.

(** [choices=[logging.getLevelName(level).lower() for level in (...)]] *)
Definition show_level (level : Z) : string :=
  DecimalString.NilZero.string_of_int (Z.to_int level).

Definition loglevel_choices : list string :=
  map (fun level => PyStr.lower (Logging.getLevelName show_level level))
    [Logging.DEBUG; Logging.INFO; Logging.WARN; Logging.ERROR;
     Logging.CRITICAL].

(** [default=logging.getLevelName(logging.INFO)] *)
Definition loglevel_default : string :=
  Logging.getLevelName show_level Logging.INFO.

Definition generated_by_default : string :=
  "This page has been generated with a tool.".

Definition action_choices (a : action) : option (list string) :=
  match a with
  | Loglevel => Some loglevel_choices
  | RenderMermaidFormat => Some ["png"; "svg"]
  | _ => None
  end.

(** What [_get_values] hands to an action, and what a store action then
    puts into the namespace: one string or a list of strings. *)
Inductive values :=
| VStr (s : string)
| VList (l : list string).

(** [class Arguments(argparse.Namespace)].  [None] is Python's [None];
    [mdpath] is [None] until the positional has been consumed.  The class
    annotates the stored fields as [str]; at run time each holds whatever
    its store action was called with, a string or a list. *)
Record Arguments := {
  mdpath : option values;
  domain : option values;
  path : option values;
  username : option values;
  apikey : option values;
  space : option values;
  loglevel : values;
  ignore_invalid_url : bool;
  heading_anchors : bool;
  root_page : option values;
  generated_by : option values;
  render_mermaid : bool;
  diagram_output_format : values;
  local : bool;
  headers : option (gmap string string);
  webui_links : bool
}.

(** The namespace after [parse_known_args] has installed every action's
    default: the first action registered for a destination decides. *)
Definition defaults : Arguments := {|
  mdpath := None; domain := None; path := None; username := None;
  apikey := None; space := None;
  loglevel := VStr loglevel_default;
  ignore_invalid_url := false; heading_anchors := false;
  root_page := None;
  generated_by := Some (VStr generated_by_default);
  render_mermaid := true;
  diagram_output_format := VStr "png";
  local := false;
  headers := None;
  webui_links := false
|}.

(** [setattr(namespace, dest, v)], one function per destination. *)
Definition set_mdpath v ns := {|
  mdpath := v; domain := domain ns; path := path ns;
  username := username ns; apikey := apikey ns; space := space ns;
  loglevel := loglevel ns; ignore_invalid_url := ignore_invalid_url ns;
  heading_anchors := heading_anchors ns; root_page := root_page ns;
  generated_by := generated_by ns; render_mermaid := render_mermaid ns;
  diagram_output_format := diagram_output_format ns; local := local ns;
  headers := headers ns; webui_links := webui_links ns |}.
Definition set_domain v ns := {|
  mdpath := mdpath ns; domain := v; path := path ns;
  username := username ns; apikey := apikey ns; space := space ns;
  loglevel := loglevel ns; ignore_invalid_url := ignore_invalid_url ns;
  heading_anchors := heading_anchors ns; root_page := root_page ns;
  generated_by := generated_by ns; render_mermaid := render_mermaid ns;
  diagram_output_format := diagram_output_format ns; local := local ns;
  headers := headers ns; webui_links := webui_links ns |}.
Definition set_path v ns := {|
  mdpath := mdpath ns; domain := domain ns; path := v;
  username := username ns; apikey := apikey ns; space := space ns;
  loglevel := loglevel ns; ignore_invalid_url := ignore_invalid_url ns;
  heading_anchors := heading_anchors ns; root_page := root_page ns;
  generated_by := generated_by ns; render_mermaid := render_mermaid ns;
  diagram_output_format := diagram_output_format ns; local := local ns;
  headers := headers ns; webui_links := webui_links ns |}.
Definition set_username v ns := {|
  mdpath := mdpath ns; domain := domain ns; path := path ns;
  username := v; apikey := apikey ns; space := space ns;
  loglevel := loglevel ns; ignore_invalid_url := ignore_invalid_url ns;
  heading_anchors := heading_anchors ns; root_page := root_page ns;
  generated_by := generated_by ns; render_mermaid := render_mermaid ns;
  diagram_output_format := diagram_output_format ns; local := local ns;
  headers := headers ns; webui_links := webui_links ns |}.
Definition set_apikey v ns := {|
  mdpath := mdpath ns; domain := domain ns; path := path ns;
  username := username ns; apikey := v; space := space ns;
  loglevel := loglevel ns; ignore_invalid_url := ignore_invalid_url ns;
  heading_anchors := heading_anchors ns; root_page := root_page ns;
  generated_by := generated_by ns; render_mermaid := render_mermaid ns;
  diagram_output_format := diagram_output_format ns; local := local ns;
  headers := headers ns; webui_links := webui_links ns |}.
Definition set_space v ns := {|
  mdpath := mdpath ns; domain := domain ns; path := path ns;
  username := username ns; apikey := apikey ns; space := v;
  loglevel := loglevel ns; ignore_invalid_url := ignore_invalid_url ns;
  heading_anchors := heading_anchors ns; root_page := root_page ns;
  generated_by := generated_by ns; render_mermaid := render_mermaid ns;
  diagram_output_format := diagram_output_format ns; local := local ns;
  headers := headers ns; webui_links := webui_links ns |}.
Definition set_loglevel v ns := {|
  mdpath := mdpath ns; domain := domain ns; path := path ns;
  username := username ns; apikey := apikey ns; space := space ns;
  loglevel := v; ignore_invalid_url := ignore_invalid_url ns;
  heading_anchors := heading_anchors ns; root_page := root_page ns;
  generated_by := generated_by ns; render_mermaid := render_mermaid ns;
  diagram_output_format := diagram_output_format ns; local := local ns;
  headers := headers ns; webui_links := webui_links ns |}.
Definition set_ignore_invalid_url v ns := {|
  mdpath := mdpath ns; domain := domain ns; path := path ns;
  username := username ns; apikey := apikey ns; space := space ns;
  loglevel := loglevel ns; ignore_invalid_url := v;
  heading_anchors := heading_anchors ns; root_page := root_page ns;
  generated_by := generated_by ns; render_mermaid := render_mermaid ns;
  diagram_output_format := diagram_output_format ns; local := local ns;
  headers := headers ns; webui_links := webui_links ns |}.
Definition set_heading_anchors v ns := {|
  mdpath := mdpath ns; domain := domain ns; path := path ns;
  username := username ns; apikey := apikey ns; space := space ns;
  loglevel := loglevel ns; ignore_invalid_url := ignore_invalid_url ns;
  heading_anchors := v; root_page := root_page ns;
  generated_by := generated_by ns; render_mermaid := render_mermaid ns;
  diagram_output_format := diagram_output_format ns; local := local ns;
  headers := headers ns; webui_links := webui_links ns |}.
Definition set_root_page v ns := {|
  mdpath := mdpath ns; domain := domain ns; path := path ns;
  username := username ns; apikey := apikey ns; space := space ns;
  loglevel := loglevel ns; ignore_invalid_url := ignore_invalid_url ns;
  heading_anchors := heading_anchors ns; root_page := v;
  generated_by := generated_by ns; render_mermaid := render_mermaid ns;
  diagram_output_format := diagram_output_format ns; local := local ns;
  headers := headers ns; webui_links := webui_links ns |}.
Definition set_generated_by v ns := {|
  mdpath := mdpath ns; domain := domain ns; path := path ns;
  username := username ns; apikey := apikey ns; space := space ns;
  loglevel := loglevel ns; ignore_invalid_url := ignore_invalid_url ns;
  heading_anchors := heading_anchors ns; root_page := root_page ns;
  generated_by := v; render_mermaid := render_mermaid ns;
  diagram_output_format := diagram_output_format ns; local := local ns;
  headers := headers ns; webui_links := webui_links ns |}.
Definition set_render_mermaid v ns := {|
  mdpath := mdpath ns; domain := domain ns; path := path ns;
  username := username ns; apikey := apikey ns; space := space ns;
  loglevel := loglevel ns; ignore_invalid_url := ignore_invalid_url ns;
  heading_anchors := heading_anchors ns; root_page := root_page ns;
  generated_by := generated_by ns; render_mermaid := v;
  diagram_output_format := diagram_output_format ns; local := local ns;
  headers := headers ns; webui_links := webui_links ns |}.
Definition set_diagram_output_format v ns := {|
  mdpath := mdpath ns; domain := domain ns; path := path ns;
  username := username ns; apikey := apikey ns; space := space ns;
  loglevel := loglevel ns; ignore_invalid_url := ignore_invalid_url ns;
  heading_anchors := heading_anchors ns; root_page := root_page ns;
  generated_by := generated_by ns; render_mermaid := render_mermaid ns;
  diagram_output_format := v; local := local ns;
  headers := headers ns; webui_links := webui_links ns |}.
Definition set_local v ns := {|
  mdpath := mdpath ns; domain := domain ns; path := path ns;
  username := username ns; apikey := apikey ns; space := space ns;
  loglevel := loglevel ns; ignore_invalid_url := ignore_invalid_url ns;
  heading_anchors := heading_anchors ns; root_page := root_page ns;
  generated_by := generated_by ns; render_mermaid := render_mermaid ns;
  diagram_output_format := diagram_output_format ns; local := v;
  headers := headers ns; webui_links := webui_links ns |}.
Definition set_headers v ns := {|
  mdpath := mdpath ns; domain := domain ns; path := path ns;
  username := username ns; apikey := apikey ns; space := space ns;
  loglevel := loglevel ns; ignore_invalid_url := ignore_invalid_url ns;
  heading_anchors := heading_anchors ns; root_page := root_page ns;
  generated_by := generated_by ns; render_mermaid := render_mermaid ns;
  diagram_output_format := diagram_output_format ns; local := local ns;
  headers := v; webui_links := webui_links ns |}.
Definition set_webui_links v ns := {|
  mdpath := mdpath ns; domain := domain ns; path := path ns;
  username := username ns; apikey := apikey ns; space := space ns;
  loglevel := loglevel ns; ignore_invalid_url := ignore_invalid_url ns;
  heading_anchors := heading_anchors ns; root_page := root_page ns;
  generated_by := generated_by ns; render_mermaid := render_mermaid ns;
  diagram_output_format := diagram_output_format ns; local := local ns;
  headers := headers ns; webui_links := v |}.

(** *** Failures and exits of the parser *)

Inductive argument_error :=
| ExpectedOneArgument
| IgnoredExplicitArgument (explicit : string)
| InvalidChoice (value : string) (choices : list string)
| CouldNotParse (values : list string).

(** What [parser.error] is called with. *)
Inductive parser_error :=
| ArgumentError (a : action) (e : argument_error)
| AmbiguousOption (arg : string) (matches : list string)
| RequiredArguments (names : list string)
| UnrecognizedArguments (extras : list string).

(** How a run of the parser ends when it does not return a namespace:
    [-h] and [--version] print and call [parser.exit()] (status 0),
    [parser.error] prints the usage and exits with status 2.  Either way
    the run ends in [sys.exit]. *)
Inductive parse_exit :=
| PrintHelp
| PrintVersion
| UsageError (e : parser_error).

Inductive result (A : Type) :=
| Ok (x : A)
| Stop (e : parse_exit).
Arguments Ok {A} x.
Arguments Stop {A} e.

Definition bind {A B} (r : result A) (k : A -> result B) : result B :=
  match r with
  | Ok x => k x
  | Stop e => Stop e
  end.

(** *** Telling options from arguments: [_parse_optional] *)

Definition lookup_option (s : string) : option action :=
  snd <$> find (fun entry => String.eqb (fst entry) s) option_string_actions.

(** [arg[1] in parser.prefix_chars] *)
Definition second_is_dash (arg : string) : bool :=
  match arg with
  | String _ (String c _) => Ascii.eqb c "-"
  | _ => false
  end.

(** [arg[:2]] and [arg[2:]] *)
Definition first_two (arg : string) : string :=
  match arg with
  | String a (String b _) => String a (String b EmptyString)
  | _ => arg
  end.
Definition after_two (arg : string) : string :=
  match arg with
  | String _ (String _ rest) => rest
  | _ => EmptyString
  end.

(** An option tuple: the action, the option string that selected it and
    the argument glued to it, if any. *)
Definition option_tuple : Type := action * string * option string.

(** [_get_option_tuples]: unique-prefix abbreviations of the long options,
    and a short option with its argument attached ([-lVALUE]). *)
Definition get_option_tuples (arg : string) : list option_tuple :=
  if second_is_dash arg then
    let '(option_prefix, explicit_arg) :=
      match PyStr.split1 "=" arg with
      | Some (before, after) => (before, Some after)
      | None => (arg, None)
      end in
    omap (fun entry : string * action =>
            if PyStr.startswith (fst entry) option_prefix
            then Some (snd entry, fst entry, explicit_arg) else None)
         option_string_actions
  else
    omap (fun entry : string * action =>
            if String.eqb (fst entry) (first_two arg)
            then Some (snd entry, fst entry, Some (after_two arg))
            else if PyStr.startswith (fst entry) arg
            then Some (snd entry, fst entry, None) else None)
         option_string_actions.

Definition nonempty (s : string) : bool :=
  match s with EmptyString => false | _ => true end.

(** The text a [$] of the pattern may stop at: the whole string, or the
    string without its final newline. *)
Fixpoint without_final_newline (s : string) : string :=
  match s with
  | EmptyString => EmptyString
  | String c EmptyString =>
      if Ascii.eqb c (ascii_of_nat 10) then EmptyString else s
  | String c s' => String c (without_final_newline s')
  end.

(** [parser._negative_number_matcher]: [^-\d+$|^-\d*\.\d+$] *)
Definition negative_number (arg : string) : bool :=
  match without_final_newline arg with
  | String c body =>
      Ascii.eqb c "-" &&
      ((nonempty body && PyStr.all_digits body) ||
       match PyStr.split1 "." body with
       | Some (whole, fraction) =>
           PyStr.all_digits whole && nonempty fraction
           && PyStr.all_digits fraction
       | None => false
       end)
  | EmptyString => false
  end.

(** What one command-line string is taken for. *)
Inductive classified :=
| Positional
| Optional (a : option action) (option_string : string)
    (explicit_arg : option string).

Definition parse_optional (arg : string) : parser_error + classified :=
  match arg with
  | EmptyString => inr Positional
  | String c tail =>
      if negb (Ascii.eqb c "-") then inr Positional
      else match lookup_option arg with
      | Some a => inr (Optional (Some a) arg None)
      | None =>
      if nonempty tail then
        let via_equals :=
          match PyStr.split1 "=" arg with
          | Some (option_string, explicit_arg) =>
              match lookup_option option_string with
              | Some a => Some (Optional (Some a) option_string (Some explicit_arg))
              | None => None
              end
          | None => None
          end in
        match via_equals with
        | Some found => inr found
        | None =>
            match get_option_tuples arg with
            | [(a, option_string, explicit_arg)] =>
                inr (Optional (Some a) option_string explicit_arg)
            | (_ :: _ :: _) as tuples =>
                inl (AmbiguousOption arg (map (fun t => snd (fst t)) tuples))
            | [] =>
                if negative_number arg then inr Positional
                else if PyStr.contains " " arg then inr Positional
                else inr (Optional None arg None)
            end
        end
      else inr Positional
      end
  end.

(** The letters of [arg_strings_pattern], each with its string: [A], [-]
    and [O]. *)
Inductive ctok :=
| CArg (s : string)
| CDashDash
| COpt (a : option action) (option_string : string)
    (explicit_arg : option string).

Definition ctok_of (arg : string) (c : classified) : ctok :=
  match c with
  | Positional => CArg arg
  | Optional a option_string explicit_arg => COpt a option_string explicit_arg
  end.

(** The first loop of [_parse_known_args]: everything after [--] is an
    argument. *)
Fixpoint classify (argv : list string) : parser_error + list ctok :=
  match argv with
  | [] => inr []
  | arg :: rest =>
      if String.eqb arg "--" then inr (CDashDash :: map CArg rest)
      else match parse_optional arg with
           | inl e => inl e
           | inr c =>
               match classify rest with
               | inl e => inl e
               | inr toks => inr (ctok_of arg c :: toks)
               end
           end
  end.

(** *** Values and actions: [_get_values] and the [__call__] methods *)

(** [KwargsAppendAction.__call__(parser, namespace, values)]: the
    [ArgumentError] it raises reaches [parser.error] through
    [parse_known_args]. *)
Definition KwargsAppendAction_call (namespace : Arguments)
    (values : list string) : result Arguments :=
  match HeaderAction.parse_headers values with
  | Some d => Ok (set_headers (Some d) namespace)
  | None => Stop (UsageError (ArgumentError Headers (CouldNotParse values)))
  end.

(** [l.remove(x)], doing nothing when [x] is not in [l]. *)
Fixpoint remove_first (x : string) (l : list string) : list string :=
  match l with
  | [] => []
  | y :: l' => if String.eqb y x then l' else y :: remove_first x l'
  end.

(** [_check_value]: membership in [choices] is plain string equality. *)
Definition check_value (a : action) (value : string) : result unit :=
  match action_choices a with
  | Some choices =>
      if existsb (String.eqb value) choices then Ok tt
      else Stop (UsageError (ArgumentError a (InvalidChoice value choices)))
  | None => Ok tt
  end.

Fixpoint check_each (a : action) (l : list string) : result unit :=
  match l with
  | [] => Ok tt
  | v :: l' => bind (check_value a v) (fun _ => check_each a l')
  end.

(** [_get_values]: the first [--] among the strings is dropped; an action
    with [nargs=None] left with exactly one string gets that string, after
    the choices check; in every other case the action gets the list, each
    element checked.  So [--domain=--] hands [Domain] the empty list. *)
Definition get_values (a : action) (arg_strings : list string)
  : result values :=
  match remove_first "--" arg_strings, action_nargs a with
  | [arg_string], NargsOne =>
      bind (check_value a arg_string) (fun _ => Ok (VStr arg_string))
  | stripped, _ =>
      bind (check_each a stripped) (fun _ => Ok (VList stripped))
  end.

(** The characters of a string, which is what iterating over it yields. *)
Fixpoint chars (s : string) : list string :=
  match s with
  | EmptyString => []
  | String c s' => String c EmptyString :: chars s'
  end.

(** [action(parser, namespace, values, option_string)].  A store action
    is [setattr(namespace, self.dest, values)], whatever [values] is. *)
Definition call_action (a : action) (v : values) (ns : Arguments)
  : result Arguments :=
  match a with
  | Help => Stop PrintHelp
  | Version => Stop PrintVersion
  | Mdpath => Ok (set_mdpath (Some v) ns)
  | Domain => Ok (set_domain (Some v) ns)
  | BasePath => Ok (set_path (Some v) ns)
  | Username => Ok (set_username (Some v) ns)
  | Apikey => Ok (set_apikey (Some v) ns)
  | Space => Ok (set_space (Some v) ns)
  | Loglevel => Ok (set_loglevel v ns)
  | RootPage => Ok (set_root_page (Some v) ns)
  | GeneratedBy => Ok (set_generated_by (Some v) ns)
  | NoGeneratedBy => Ok (set_generated_by None ns)
  | RenderMermaid => Ok (set_render_mermaid true ns)
  | NoRenderMermaid => Ok (set_render_mermaid false ns)
  | RenderMermaidFormat => Ok (set_diagram_output_format v ns)
  | HeadingAnchors => Ok (set_heading_anchors true ns)
  | IgnoreInvalidUrl => Ok (set_ignore_invalid_url true ns)
  | Local => Ok (set_local true ns)
  | Headers =>
      match v with
      | VList l => KwargsAppendAction_call ns l
      | VStr s => KwargsAppendAction_call ns (chars s)
      end
  | WebuiLinks => Ok (set_webui_links true ns)
  end.

(** [take_action] of [_parse_known_args] *)
Definition take_action (a : action) (arg_strings : list string)
    (ns : Arguments) : result Arguments :=
  bind (get_values a arg_strings) (fun v => call_action a v ns).

Fixpoint take_actions (tuples : list (action * list string))
    (ns : Arguments) : result Arguments :=
  match tuples with
  | [] => Ok ns
  | (a, arg_strings) :: rest =>
      bind (take_action a arg_strings ns) (take_actions rest)
  end.

(** *** The consuming loop of [_parse_known_args] *)

(** The [while True] loop of [consume_optional] for an option that came
    with an explicit argument.  A single-dash flag passes the rest of its
    string on as further single-dash options ([-hl] is [-h -l]).  The result
    is the list of completed (action, strings) pairs and, when the string
    ran out on an option, that option, which then takes the strings that
    follow on the command line. *)
Inductive plan :=
| Planned (tuples : list (action * list string)) (last : option action)
| PlanError (a : action) (e : argument_error).

Fixpoint explicit_loop (a : action) (option_string explicit_arg : string)
    (done : list (action * list string)) : plan :=
  match action_nargs a with
  | NargsZero =>
      match explicit_arg with
      | String c rest =>
          if second_is_dash option_string
          then PlanError a (IgnoredExplicitArgument explicit_arg)
          else
            let option_string' := String "-" (String c EmptyString) in
            match lookup_option option_string' with
            | Some a' =>
                match rest with
                | EmptyString => Planned (done ++ [(a, [])]) (Some a')
                | _ => explicit_loop a' option_string' rest (done ++ [(a, [])])
                end
            | None => PlanError a (IgnoredExplicitArgument explicit_arg)
            end
      | EmptyString => PlanError a (IgnoredExplicitArgument explicit_arg)
      end
  | NargsOne | NargsStar => Planned (done ++ [(a, [explicit_arg])]) None
  end.

Definition plan_optional (a : action) (option_string : string)
    (explicit_arg : option string) : plan :=
  match explicit_arg with
  | Some e => explicit_loop a option_string e []
  | None => Planned [] (Some a)
  end.

(** Where the loop stands between two command-line strings. *)
Inductive mode :=
| Ready
| JustPositional
    (** the positional was the previous string: a [--] right after it
        belongs to the positional's match *)
| DashPending
    (** [--] seen while the positional is still open: it is matched
        together with the string that follows, if there is one *)
| NeedArg (done : list (action * list string)) (a : action)
    (** an option with [nargs=None] waits for its one string *)
| Star (done : list (action * list string)) (a : action) (acc : list string)
    (** an option with [nargs='*'] collects the strings that follow *).

Record pstate := {
  ns : Arguments;
  positionals : bool;  (** [mdpath] has not been consumed yet *)
  extras : list string
}.

Definition with_ns (st : pstate) (ns' : Arguments) : pstate :=
  {| ns := ns'; positionals := positionals st; extras := extras st |}.
Definition add_extras (l : list string) (st : pstate) : pstate :=
  {| ns := ns st; positionals := positionals st; extras := extras st ++ l |}.

Definition run_tuples (tuples : list (action * list string)) (st : pstate)
  : result pstate :=
  bind (take_actions tuples (ns st)) (fun ns' => Ok (with_ns st ns')).

(** [consume_positionals] when it matches: [mdpath] takes [arg_strings]. *)
Definition take_positional (arg_strings : list string) (st : pstate)
  : result pstate :=
  bind (take_action Mdpath arg_strings (ns st))
       (fun ns' => Ok {| ns := ns'; positionals := false; extras := extras st |}).

(** The open item is closed by a string that is not an argument, or by the
    end of the command line. *)
Definition flush (m : mode) (st : pstate) : result pstate :=
  match m with
  | Ready | JustPositional => Ok st
  | DashPending => Ok (add_extras ["--"] st)
  | NeedArg _ a => Stop (UsageError (ArgumentError a ExpectedOneArgument))
  | Star done a acc => run_tuples (done ++ [(a, acc)]) st
  end.

Fixpoint consume (m : mode) (st : pstate) (toks : list ctok)
  : result pstate :=
  match toks with
  | [] => flush m st
  | CArg s :: rest =>
      match m with
      | NeedArg done a =>
          bind (run_tuples (done ++ [(a, [s])]) st)
               (fun st' => consume Ready st' rest)
      | Star done a acc => consume (Star done a (acc ++ [s])) st rest
      | DashPending =>
          bind (take_positional ["--"; s] st)
               (fun st' => consume Ready st' rest)
      | Ready | JustPositional =>
          if positionals st
          then bind (take_positional [s] st)
                    (fun st' => consume JustPositional st' rest)
          else consume Ready (add_extras [s] st) rest
      end
  | CDashDash :: rest =>
      match m with
      | JustPositional => consume Ready st rest
      | _ =>
          bind (flush m st) (fun st' =>
            if positionals st' then consume DashPending st' rest
            else consume Ready (add_extras ["--"] st') rest)
      end
  | COpt None arg _ :: rest =>
      bind (flush m st) (fun st' => consume Ready (add_extras [arg] st') rest)
  | COpt (Some a) option_string explicit_arg :: rest =>
      bind (flush m st) (fun st' =>
        match plan_optional a option_string explicit_arg with
        | PlanError a' e => Stop (UsageError (ArgumentError a' e))
        | Planned done None =>
            bind (run_tuples done st') (fun st'' => consume Ready st'' rest)
        | Planned done (Some a') =>
            match action_nargs a' with
            | NargsZero =>
                bind (run_tuples (done ++ [(a', [])]) st')
                     (fun st'' => consume Ready st'' rest)
            | NargsOne => consume (NeedArg done a') st' rest
            | NargsStar => consume (Star done a' []) st' rest
            end
        end)
  end.

(** What [parse_args] leaves the caller with. *)
Inductive parse_result :=
| Parsed (args : Arguments)
| Exited (e : parse_exit).

Definition initial : pstate :=
  {| ns := defaults; positionals := true; extras := [] |}.

(** The checks after the loop: a missing [mdpath] is reported by
    [_parse_known_args], left-over strings by [parse_args]. *)
Definition finish (st : pstate) : parse_result :=
  if positionals st
  then Exited (UsageError (RequiredArguments ["mdpath"]))
  else match extras st with
       | [] => Parsed (ns st)
       | _ :: _ => Exited (UsageError (UnrecognizedArguments (extras st)))
       end.

(** [parser.parse_args(namespace=args)] on the command line [argv] *)
Definition parse_args (argv : list string) : parse_result :=
  match classify argv with
  | inl e => Exited (UsageError e)
  | inr toks =>
      match consume Ready initial toks with
      | Ok st => finish st
      | Stop e => Exited e
      end
  end.

(** The status [parser.exit] passes to [sys.exit]. *)
Definition exit_status (e : parse_exit) : Z :=
  match e with
  | PrintHelp | PrintVersion => 0
  | UsageError _ => 2
  end.

End Argparse.

(** ** The body of [main] *)

Module Main.

(** [pathlib.Path(s)] for a string [s] *)
Inductive Path := mkPath (s : string).

(** Modelled from the spec: [ConfluenceDocumentOptions] is declared in
    [md2conf/converter.py]; the spec's RenderingOptions is an immutable
    record of exactly the seven keyword arguments [main] passes. *)
Record ConfluenceDocumentOptions := {
  heading_anchors : bool;
  ignore_invalid_url : bool;
  generated_by : option Argparse.values;
  root_page_id : option Argparse.values;
  render_mermaid : bool;
  diagram_output_format : Argparse.values;
  webui_links : bool
}.

(** Modelled from the spec: [ConfluenceProperties] is declared in
    [md2conf/properties.py]; the spec's ConnectionProperties is an
    immutable record of the six positional arguments [main] passes, built
    without validation. *)
Record ConfluenceProperties := {
  domain : option Argparse.values;
  base_path : option Argparse.values;
  user_name : option Argparse.values;
  api_key : option Argparse.values;
  space_key : option Argparse.values;
  headers : option (gmap string string)
}.

(** *** Exceptions *)

(** The exception classes [main] tells apart.  A subclass of
    [requests.exceptions.HTTPError] counts as [HTTPError], a subclass of
    [requests.exceptions.JSONDecodeError] as [JSONDecodeError]. *)
Inductive exception_class :=
| HTTPError
| JSONDecodeError
| OtherException (name : string).

(** What [response.json()] does: it returns the decoded body or raises. *)
Inductive json_outcome :=
| JsonValue (body : string)
| JsonRaises (cls : exception_class) (message : string).

Record Response := { json : json_outcome }.

Record exn := {
  exn_class : exception_class;
  message : string;
  response : option Response   (** [err.response] *)
}.

Definition is_HTTPError (e : exn) : bool :=
  match exn_class e with HTTPError => true | _ => false end.
Definition is_JSONDecodeError (e : exn) : bool :=
  match exn_class e with JSONDecodeError => true | _ => false end.

(** *** The collaborators *)

(** The object bound by [with ConfluenceAPI(properties) as api]. *)
Inductive ConfluenceSession := session (id : nat).

(** Modelled from the spec: [Processor], [ConfluenceAPI] and [Application]
    are declared in other modules of the package.  Following the
    collaborator interfaces of the spec, each is an arbitrary function from
    its arguments to what the call does: it returns, or it raises.  A
    failure while constructing [Processor(options, properties)],
    [ConfluenceAPI(properties)] or [Application(api, options)] is a failure
    of the call built on it.  [api_exit] is [__exit__], which receives the
    exception that left the block, if any, and answers whether to swallow
    it. *)
Record Collaborators := {
  process :
    ConfluenceDocumentOptions -> ConfluenceProperties -> Path -> option exn;
  api_enter : ConfluenceProperties -> ConfluenceSession + exn;
  synchronize :
    ConfluenceSession -> ConfluenceDocumentOptions -> Path -> option exn;
  api_exit : ConfluenceProperties -> option exn -> bool + exn
}.

(** *** Observable steps *)

(** A call of [logging.error]: with the exception, or with the decoded
    body of its response.  The events record the call; whether the root
    logger lets the record through depends on the level it was configured
    with. *)
Inductive log_record :=
| LogException (e : exn)
| LogJson (body : string).

Inductive event :=
| BasicConfig (level : Z) (format : string)
| LocalProcess (options : ConfluenceDocumentOptions)
    (properties : ConfluenceProperties) (mdpath : Path)
| ApiEnter (properties : ConfluenceProperties)
| Synchronize (api : ConfluenceSession) (options : ConfluenceDocumentOptions)
    (mdpath : Path)
| ApiExit (properties : ConfluenceProperties) (exc : option exn)
| LoggingError (r : log_record).

(** *** A small monad: a log of events, and exceptions *)

Inductive abort :=
| Raise (e : exn)
| SysExit (status : Z).

Definition M (A : Type) : Type := list event * (A + abort).

Definition ret {A} (x : A) : M A := ([], inl x).
Definition emit (ev : event) : M unit := ([ev], inl tt).
Definition raise {A} (e : exn) : M A := ([], inr (Raise e)).
Definition sys_exit {A} (status : Z) : M A := ([], inr (SysExit status)).

Definition mbind {A B} (c : M A) (k : A -> M B) : M B :=
  match c with
  | (tr, inl x) => let '(tr', r) := k x in (tr ++ tr', r)
  | (tr, inr a) => (tr, inr a)
  end.

Notation "x <- c ;; k" := (mbind c (fun x => k))
  (at level 100, c at next level, right associativity).
Notation "c ;;; k" := (mbind c (fun _ => k))
  (at level 100, right associativity).

(** [try: body  except cls as err: handler(err)] *)
Definition try_except {A} (body : M A) (catches : exn -> bool)
    (handler : exn -> M A) : M A :=
  match body with
  | (tr, inr (Raise e)) =>
      if catches e then let '(tr', r) := handler e in (tr ++ tr', r)
      else body
  | _ => body
  end.

(** A collaborator call that returns nothing. *)
Definition call (ev : event) (result : option exn) : M unit :=
  emit ev ;;;
  match result with
  | None => ret tt
  | Some e => raise e
  end.

(** [with manager as x: body]: [__exit__] runs when the block is left,
    normally or by an exception, once [__enter__] has returned; when the
    block raised, the exception continues unless [__exit__] answers true;
    an exception raised by [__exit__] itself replaces it. *)
Definition with_statement {A} (enter : M A) (exit : option exn -> M bool)
    (body : A -> M unit) : M unit :=
  x <- enter ;;
  match body x with
  | (tr, inl tt) => (tr, inl tt) ;;; _ <- exit None ;; ret tt
  | (tr, inr (Raise e)) =>
      (tr, inl tt) ;;; swallow <- exit (Some e) ;;
      if (swallow : bool) then ret tt else raise e
  | (tr, inr (SysExit status)) => (tr, inr (SysExit status))
  end.

Section WithCollaborators.

Variable w : Collaborators.

Definition enter_api (properties : ConfluenceProperties)
  : M ConfluenceSession :=
  emit (ApiEnter properties) ;;;
  match api_enter w properties with
  | inl api => ret api
  | inr e => raise e
  end.

Definition exit_api (properties : ConfluenceProperties) (exc : option exn)
  : M bool :=
  emit (ApiExit properties exc) ;;;
  match api_exit w properties exc with
  | inl swallow => ret swallow
  | inr e => raise e
  end.

(** [with ConfluenceAPI(properties) as api:
       Application(api, options).synchronize(args.mdpath)] *)
Definition remote_pipeline (options : ConfluenceDocumentOptions)
    (properties : ConfluenceProperties) (mdpath : Path) : M unit :=
  with_statement (enter_api properties) (exit_api properties)
    (fun api =>
       call (Synchronize api options mdpath)
            (synchronize w api options mdpath)).

(** [Processor(options, properties).process(args.mdpath)] *)
Definition local_pipeline (options : ConfluenceDocumentOptions)
    (properties : ConfluenceProperties) (mdpath : Path) : M unit :=
  call (LocalProcess options properties mdpath)
       (process w options properties mdpath).

(** The [except requests.exceptions.HTTPError as err] block. *)
Definition on_HTTPError (err : exn) : M unit :=
  emit (LoggingError (LogException err)) ;;;
  match response err with
  | Some r =>
      try_except
        (match json r with
         | JsonValue body => emit (LoggingError (LogJson body))
         | JsonRaises cls msg =>
             raise {| exn_class := cls; message := msg; response := None |}
         end)
        is_JSONDecodeError
        (fun _ => ret tt)
  | None => ret tt
  end ;;;
  sys_exit 1.

(** The [if args.local: ... else: try: ... except ...] statement. *)
Definition dispatch (is_local : bool) (options : ConfluenceDocumentOptions)
    (properties : ConfluenceProperties) (mdpath : Path) : M unit :=
  if is_local then local_pipeline options properties mdpath
  else try_except (remote_pipeline options properties mdpath)
                  is_HTTPError on_HTTPError.

Definition log_format : string :=
  "%(asctime)s - %(levelname)s - %(funcName)s [%(lineno)d] - %(message)s".

(** [getattr(logging, args.loglevel.upper(), logging.INFO)] for a level
    name that is a string *)
Definition configured_level (loglevel : string) : Z :=
  Logging.getattr_level (PyStr.upper loglevel) Logging.INFO.

(** [Path(x)] raises [TypeError] when [x] is [None] or a list. *)
Definition path_type_error (type_name : string) : exn := {|
  exn_class := OtherException "TypeError";
  message := "expected str, bytes or os.PathLike object, not " +:+ type_name;
  response := None |}.

(** [args.loglevel.upper()] raises [AttributeError] when the level name is
    a list. *)
Definition no_upper_error : exn := {|
  exn_class := OtherException "AttributeError";
  message := "'list' object has no attribute 'upper'";
  response := None |}.

Definition make_options (args : Argparse.Arguments)
  : ConfluenceDocumentOptions := {|
  heading_anchors := Argparse.heading_anchors args;
  ignore_invalid_url := Argparse.ignore_invalid_url args;
  generated_by := Argparse.generated_by args;
  root_page_id := Argparse.root_page args;
  render_mermaid := Argparse.render_mermaid args;
  diagram_output_format := Argparse.diagram_output_format args;
  webui_links := Argparse.webui_links args
|}.

Definition make_properties (args : Argparse.Arguments)
  : ConfluenceProperties := {|
  domain := Argparse.domain args;
  base_path := Argparse.path args;
  user_name := Argparse.username args;
  api_key := Argparse.apikey args;
  space_key := Argparse.space args;
  headers := Argparse.headers args
|}.

(** [main] from the statement after [parser.parse_args(namespace=args)]
    on.  The level passed to [logging.basicConfig] is computed before the
    call, so a level name without [upper] ends the run before any step. *)
Definition after_parsing (args : Argparse.Arguments) : M unit :=
  match Argparse.mdpath args with
  | None => raise (path_type_error "NoneType")
  | Some (Argparse.VList _) => raise (path_type_error "list")
  | Some (Argparse.VStr s) =>
      let mdpath := mkPath s in
      match Argparse.loglevel args with
      | Argparse.VList _ => raise no_upper_error
      | Argparse.VStr name =>
          emit (BasicConfig (configured_level name) log_format) ;;;
          let options := make_options args in
          let properties := make_properties args in
          dispatch (Argparse.local args) options properties mdpath
      end
  end.

(** How a run of [main] ends: it returns; it ends inside [parse_args],
    where the parser calls [sys.exit] with [exit_status e]; it ends by the
    [sys.exit(status)] of [main] itself; or an exception leaves it. *)
Inductive outcome :=
| Returns
| ParserExit (e : Argparse.parse_exit)
| SystemExit (status : Z)
| Uncaught (e : exn).

Definition outcome_of (r : unit + abort) : outcome :=
  match r with
  | inl _ => Returns
  | inr (SysExit status) => SystemExit status
  | inr (Raise e) => Uncaught e
  end.

(** [main()] run on the command line [argv]: the events in order, and the
    way it ends. *)
Definition main (argv : list string) : list event * outcome :=
  match Argparse.parse_args argv with
  | Argparse.Exited e => ([], ParserExit e)
  | Argparse.Parsed args =>
      let '(tr, r) := after_parsing args in (tr, outcome_of r)
  end.

End WithCollaborators.

End Main.

(** ** Notions the specification is worded in *)

Module Spec.

Import Argparse.

(** A token "divided on the first [=]": the key before it and the value
    after it. *)
Definition divide (token : string) : option (string * string) :=
  PyStr.split1 HeaderAction.equals_sign token.

(** A well-formed [K=V] token: it divides on the first [=] into a
    non-empty key and a possibly empty value. *)
Definition well_formed (token : string) : Prop :=
  exists k v, divide token = Some (k, v) /\ k <> EmptyString.

(** The key-value pairs a list of tokens stands for. *)
Definition pairs_of (tokens : list string) : list (string * string) :=
  omap divide tokens.

(** The value of the last pair with key [k]. *)
Fixpoint last_value (k : string) (pairs : list (string * string))
  : option string :=
  match pairs with
  | [] => None
  | (k', v) :: rest =>
      match last_value k rest with
      | Some v' => Some v'
      | None => if String.eqb k' k then Some v else None
      end
  end.

(** The five severities as the specification spells them, matched without
    regard to case. *)
Definition severities : list string :=
  ["debug"; "info"; "warn"; "error"; "critical"].
Definition names_severity (value : string) : Prop :=
  In (PyStr.lower value) severities.

(** The options given on a command line, in order: the action each option
    string selects. *)
Fixpoint selected_actions (toks : list ctok) : list action :=
  match toks with
  | [] => []
  | COpt (Some a) _ _ :: rest => a :: selected_actions rest
  | _ :: rest => selected_actions rest
  end.

Definition given (argv : list string) : list action :=
  match classify argv with
  | inr toks => selected_actions toks
  | inl _ => []
  end.



(** The header flag does not occur on the command line. *)
Definition headers_absent (argv : list string) : Prop :=
  ~ In Headers (given argv).

(** Steps of the remote publisher, and of the local renderer. *)
Definition is_remote (ev : Main.event) : bool :=
  match ev with
  | Main.ApiEnter _ | Main.Synchronize _ _ _ | Main.ApiExit _ _ => true
  | _ => false
  end.
Definition is_local (ev : Main.event) : bool :=
  match ev with Main.LocalProcess _ _ _ => true | _ => false end.
Definition is_logging (ev : Main.event) : bool :=
  match ev with Main.LoggingError _ => true | _ => false end.

(** *** Bookkeeping for the proofs *)

(** [d[k] = v] for a pair. *)
Definition insert_pair (m : gmap string string) (kv : string * string)
  : gmap string string := <[kv.1 := kv.2]> m.

(** The flags whose order the properties below follow. *)
Definition tracked (a : action) : bool :=
  match a with
  | RenderMermaid | NoRenderMermaid | GeneratedBy | NoGeneratedBy | Headers => true
  | _ => false
  end.
Definition flags_of (l : list action) : list action := List.filter tracked l.
Definition mode_actions (m : mode) : list action :=
  match m with
  | NeedArg done a | Star done a _ => map fst done ++ [a]
  | _ => []
  end.
Definition last_action (o : option action) : list action :=
  match o with Some a => [a] | None => [] end.

(** The strings of a stored value are among [choices]. *)
Definition chosen (choices : list string) (v : values) : Prop :=
  match v with
  | VStr s => In s choices
  | VList l => forall s, In s l -> In s choices
  end.

(** What a successful action has done to the namespace. *)
Definition effect (a : action) (ns0 ns1 : Arguments) : Prop :=
  match a with
  | Help | Version => False
  | Mdpath => exists s, ns1 = set_mdpath (Some s) ns0
  | Domain => exists s, ns1 = set_domain (Some s) ns0
  | BasePath => exists s, ns1 = set_path (Some s) ns0
  | Username => exists s, ns1 = set_username (Some s) ns0
  | Apikey => exists s, ns1 = set_apikey (Some s) ns0
  | Space => exists s, ns1 = set_space (Some s) ns0
  | Loglevel =>
      exists v, chosen loglevel_choices v /\ ns1 = set_loglevel v ns0
  | RootPage => exists s, ns1 = set_root_page (Some s) ns0
  | GeneratedBy => exists s, ns1 = set_generated_by (Some s) ns0
  | NoGeneratedBy => ns1 = set_generated_by None ns0
  | RenderMermaid => ns1 = set_render_mermaid true ns0
  | NoRenderMermaid => ns1 = set_render_mermaid false ns0
  | RenderMermaidFormat =>
      exists v, chosen ["png"; "svg"]%string v
                /\ ns1 = set_diagram_output_format v ns0
  | HeadingAnchors => ns1 = set_heading_anchors true ns0
  | IgnoreInvalidUrl => ns1 = set_ignore_invalid_url true ns0
  | Local => ns1 = set_local true ns0
  | Headers => exists d, ns1 = set_headers (Some d) ns0
  | WebuiLinks => ns1 = set_webui_links true ns0
  end.

(** The level name is the default or one of the choices. *)
Definition loglevel_ok (n : Arguments) : Prop :=
  chosen (loglevel_default :: loglevel_choices) (loglevel n).


(** What the handler logs after the exception itself. *)
Definition body_log (err : Main.exn) : list Main.event :=
  match Main.response err with
  | Some r =>
      match Main.json r with
      | Main.JsonValue body => [Main.LoggingError (Main.LogJson body)]
      | Main.JsonRaises _ _ => []
      end
  | None => []
  end.


(** *** Scenarios *)

Definition conflict : Main.exn := {|
  Main.exn_class := Main.HTTPError;
  Main.message := "409 Client Error: Conflict for url";
  Main.response := Some {| Main.json := Main.JsonValue "{'message': 'conflict'}" |}
|}.

Definition bad_gateway : Main.exn := {|
  Main.exn_class := Main.HTTPError;
  Main.message := "502 Server Error: Bad Gateway for url";
  Main.response :=
    Some {| Main.json := Main.JsonRaises Main.JSONDecodeError "Expecting value" |}
|}.

Definition invalid_json : Main.exn := {|
  Main.exn_class := Main.JSONDecodeError;
  Main.message := "Expecting value: line 1 column 1 (char 0)";
  Main.response := None
|}.

Definition file_not_found : Main.exn := {|
  Main.exn_class := Main.OtherException "FileNotFoundError";
  Main.message := "No such file or directory";
  Main.response := None
|}.

(** Collaborators whose renderer and publisher both fail with [e]; the
    session opens, and closing it lets the exception through. *)
Definition failing_with (e : Main.exn) : Main.Collaborators := {|
  Main.process := fun _ _ _ => Some e;
  Main.api_enter := fun _ => inl (Main.session 0);
  Main.synchronize := fun _ _ _ => Some e;
  Main.api_exit := fun _ _ => inl false
|}.

End Spec.

(** ** Notions for the properties of the remaining code *)

Module Cover.

Import Argparse.

Definition is_mdpath (a : action) : bool :=
  match a with Mdpath => true | _ => false end.

(** The actions of a list that belong to options. *)
Definition options_of (l : list action) : list action :=
  List.filter (fun a => negb (is_mdpath a)) l.

(** The option string of a classified option is the one registered for
    its action. *)
Definition registered (t : ctok) : Prop :=
  match t with
  | COpt (Some a) option_string _ => lookup_option option_string = Some a
  | _ => True
  end.

(** A command-line string that the parser takes for an argument and that
    is not the separator. *)
Definition plain (arg : string) : Prop :=
  parse_optional arg = inr Positional /\ arg <> "--"%string.

(** An option string the parser does not know. *)
Definition is_unknown (t : ctok) : bool :=
  match t with COpt None _ _ => true | _ => false end.

(** The level names a returned namespace can hold, each with the level
    [logging.basicConfig] receives for it. *)
Definition level_table : list (string * Z) :=
  [ ("INFO", Logging.INFO); ("debug", Logging.DEBUG); ("info", Logging.INFO);
    ("warning", Logging.WARNING); ("error", Logging.ERROR);
    ("critical", Logging.CRITICAL) ]%string.

Definition is_config (ev : Main.event) : bool :=
  match ev with Main.BasicConfig _ _ => true | _ => false end.

(** The field a storing action writes, as an optional value. *)
Definition field_of (a : action) (n : Arguments) : option (option values) :=
  match a with
  | Mdpath => Some (mdpath n)
  | Domain => Some (domain n)
  | BasePath => Some (path n)
  | Username => Some (username n)
  | Apikey => Some (apikey n)
  | Space => Some (space n)
  | Loglevel => Some (Some (loglevel n))
  | RootPage => Some (root_page n)
  | GeneratedBy => Some (generated_by n)
  | RenderMermaidFormat => Some (Some (diagram_output_format n))
  | _ => None
  end.

(** Two actions write the same destination. *)
Definition same_dest (a b : action) : bool :=
  match a, b with
  | Mdpath, Mdpath | Domain, Domain | BasePath, BasePath
  | Username, Username | Apikey, Apikey | Space, Space
  | Loglevel, Loglevel | RootPage, RootPage
  | RenderMermaidFormat, RenderMermaidFormat
  | GeneratedBy, GeneratedBy | GeneratedBy, NoGeneratedBy
  | NoGeneratedBy, GeneratedBy | NoGeneratedBy, NoGeneratedBy
  | RenderMermaid, RenderMermaid | RenderMermaid, NoRenderMermaid
  | NoRenderMermaid, RenderMermaid | NoRenderMermaid, NoRenderMermaid
  | HeadingAnchors, HeadingAnchors | IgnoreInvalidUrl, IgnoreInvalidUrl
  | Local, Local | Headers, Headers | WebuiLinks, WebuiLinks
  | Help, Help | Version, Version => true
  | _, _ => false
  end.

(** *** The command line as a list of actions *)

Definition prepend (tuples : list (action * list string))
    (r : option (list (action * list string)))
  : option (list (action * list string)) :=
  match r with
  | Some l => Some (tuples ++ l)
  | None => None
  end.

(** The tuples the open item of a mode stands for once it is closed;
    [None] when it cannot be closed, because an option still waits for its
    argument. *)
Definition closed (m : mode) : option (list (action * list string)) :=
  match m with
  | Ready | JustPositional | DashPending => Some []
  | NeedArg _ _ => None
  | Star done a acc => Some (done ++ [(a, acc)])
  end.

(** The loop of [_parse_known_args] without the namespace: the actions it
    hands to [take_action] on a classified command line, in order, each
    with its strings.  [positional] says whether [mdpath] is still to be
    consumed.  [None] when the loop itself stops: an option without its
    argument, an explicit argument that cannot be used. *)
Fixpoint schedule (m : mode) (positional : bool) (toks : list ctok)
  : option (list (action * list string)) :=
  match toks with
  | [] => closed m
  | CArg s :: rest =>
      match m with
      | NeedArg done a =>
          prepend (done ++ [(a, [s])]) (schedule Ready positional rest)
      | Star done a acc => schedule (Star done a (acc ++ [s])) positional rest
      | DashPending =>
          prepend [(Mdpath, ["--"%string; s])] (schedule Ready false rest)
      | Ready | JustPositional =>
          if positional
          then prepend [(Mdpath, [s])] (schedule JustPositional false rest)
          else schedule Ready positional rest
      end
  | CDashDash :: rest =>
      match m with
      | JustPositional => schedule Ready positional rest
      | _ =>
          match closed m with
          | Some tuples =>
              prepend tuples
                (schedule (if positional then DashPending else Ready)
                          positional rest)
          | None => None
          end
      end
  | COpt None _ _ :: rest =>
      match closed m with
      | Some tuples => prepend tuples (schedule Ready positional rest)
      | None => None
      end
  | COpt (Some a) option_string explicit_arg :: rest =>
      match closed m with
      | Some tuples =>
          match plan_optional a option_string explicit_arg with
          | PlanError _ _ => None
          | Planned done None =>
              prepend (tuples ++ done) (schedule Ready positional rest)
          | Planned done (Some a') =>
              match action_nargs a' with
              | NargsZero =>
                  prepend (tuples ++ done ++ [(a', [])])
                          (schedule Ready positional rest)
              | NargsOne =>
                  prepend tuples (schedule (NeedArg done a') positional rest)
              | NargsStar =>
                  prepend tuples (schedule (Star done a' []) positional rest)
              end
          end
      | None => None
      end
  end.

(** The schedule of a command line. *)
Definition scheduled (argv : list string)
  : option (list (action * list string)) :=
  match classify argv with
  | inr toks => schedule Ready true toks
  | inl _ => None
  end.

(** *** Stored values *)

(** What a store action with [nargs=None] stores for the one string [v]:
    [_get_values] drops the separator, which leaves the empty list. *)
Definition stored (v : string) : values :=
  if String.eqb v "--" then VList [] else VStr v.

(** The options that were given the separator [--] as their explicit
    argument, as in [--domain=--] or [-d--]. *)
Fixpoint given_separator (toks : list ctok) : list action :=
  match toks with
  | [] => []
  | COpt (Some a) _ (Some e) :: rest =>
      if String.eqb e "--" then a :: given_separator rest
      else given_separator rest
  | _ :: rest => given_separator rest
  end.

Definition separator_given (argv : list string) : list action :=
  match classify argv with
  | inr toks => given_separator toks
  | inl _ => []
  end.

(** Every stored field of [n] holds a string, except that the field of an
    action in [allowed] may hold the empty list. *)
Definition strings_except (allowed : list action) (n : Arguments) : Prop :=
  forall a v, field_of a n = Some (Some v) ->
    (exists s, v = VStr s) \/ (v = VList [] /\ In a allowed).

Definition is_arg (t : ctok) : Prop :=
  match t with CArg _ => True | _ => False end.

(** The shape [classify] gives a command line: no argument before the
    separator is the separator itself, and after it every string is an
    argument. *)
Fixpoint separated (toks : list ctok) : Prop :=
  match toks with
  | [] => True
  | CArg s :: rest => s <> "--"%string /\ separated rest
  | CDashDash :: rest => Forall is_arg rest
  | COpt _ _ _ :: rest => separated rest
  end.

(** The tuples an option leaves pending are none, unless its string began
    with [-h]. *)
Definition pending (done : list (action * list string)) : Prop :=
  done = [] \/ In Help (map fst done).

(** What holds of the loop between two strings of such a command line. *)
Definition mode_values (m : mode) (st : pstate) : Prop :=
  match m with
  | JustPositional => positionals st = false
  | NeedArg done a => action_nargs a = NargsOne /\ pending done
  | Star done a _ => action_nargs a = NargsStar /\ pending done
  | _ => True
  end.

(** How [main] ends through [sys.exit], with the status: the parser's
    exits, and the exit of [main] itself. *)
Definition sys_exit_status (o : Main.outcome) : option Z :=
  match o with
  | Main.ParserExit e => Some (exit_status e)
  | Main.SystemExit status => Some status
  | _ => None
  end.

(** *** Scenarios *)

(** An HTTP error whose response cannot be read any more. *)
Definition content_consumed : Main.exn := {|
  Main.exn_class := Main.HTTPError;
  Main.message := "500 Server Error: Internal Server Error for url";
  Main.response :=
    Some {| Main.json :=
              Main.JsonRaises (Main.OtherException "RuntimeError")
                "The content for this response was already consumed" |}
|}.

(** Collaborators that all return. *)
Definition succeeding : Main.Collaborators := {|
  Main.process := fun _ _ _ => None;
  Main.api_enter := fun _ => inl (Main.session 0);
  Main.synchronize := fun _ _ _ => None;
  Main.api_exit := fun _ _ => inl false
|}.

End Cover.

(** * Properties *)

(** ** [str.split] *)

Section SplitFacts.
Import PyStr.

Lemma split_not_nil sep s : split sep s <> [].
Proof.
  destruct s as [|c s]; simpl; [discriminate|].
  destruct (Ascii.eqb c sep); [discriminate|].
  destruct (split sep s); discriminate.
Qed.

Lemma split_length sep s : length (split sep s) = S (count sep s).
Proof.
  induction s as [|c s IH]; simpl; [reflexivity|].
  destruct (Ascii.eqb c sep); simpl.
  - now rewrite IH.
  - destruct (split sep s) eqn:E; simpl in *; [discriminate | exact IH].
Qed.

Lemma split_no_sep sep s : count sep s = O -> split sep s = [s].
Proof.
  induction s as [|c s IH]; simpl; [reflexivity|].
  destruct (Ascii.eqb c sep); simpl; [discriminate|].
  intros H. now rewrite (IH H).
Qed.

Lemma split_app sep k v :
  count sep k = O -> split sep (k +:+ String sep v) = k :: split sep v.
Proof.
  induction k as [|c k IH]; simpl.
  - intros _. now rewrite Ascii.eqb_refl.
  - destruct (Ascii.eqb c sep); simpl; [discriminate|].
    intros H. now rewrite (IH H).
Qed.

Lemma split1_Some sep s k v :
  split1 sep s = Some (k, v) -> s = k +:+ String sep v /\ count sep k = O.
Proof.
  revert k. induction s as [|c s IH]; simpl; intros k; [discriminate|].
  destruct (Ascii.eqb c sep) eqn:E.
  - intros [= <- <-]. apply Ascii.eqb_eq in E. subst. now split.
  - destruct (split1 sep s) as [[b a]|]; [|discriminate].
    intros [= <- <-]. destruct (IH b eq_refl) as [-> Hc]. simpl. rewrite E. now split.
Qed.

Lemma split1_None sep s : split1 sep s = None <-> count sep s = O.
Proof.
  induction s as [|c s IH]; simpl; [tauto|].
  destruct (Ascii.eqb c sep); simpl.
  - split; discriminate.
  - destruct (split1 sep s) as [[b a]|]; simpl.
    + split; [discriminate|]. intros H. apply IH in H. discriminate.
    + split; [|reflexivity]. intros _. now apply IH.
Qed.

Lemma count_app sep a b : count sep (a +:+ b) = (count sep a + count sep b)%nat.
Proof. induction a as [|c a IH]; simpl; [reflexivity|]. rewrite IH. lia. Qed.

Lemma count_cons_sep sep v : count sep (String sep v) = S (count sep v).
Proof. simpl. now rewrite Ascii.eqb_refl. Qed.

End SplitFacts.

(** ** The header-map parser *)

Section HeaderFacts.
Import PyStr HeaderAction Spec.

Lemma split_one_equals t :
  count equals_sign t = 1%nat ->
  exists k v, divide t = Some (k, v) /\ split equals_sign t = [k; v]
              /\ count equals_sign v = O.
Proof.
  intros H. unfold divide.
  destruct (split1 equals_sign t) as [[k v]|] eqn:E.
  - destruct (split1_Some _ _ _ _ E) as [-> Hk].
    rewrite count_app, count_cons_sep in H.
    assert (Hv : count equals_sign v = O) by lia.
    exists k, v. split; [reflexivity|]. split; [|exact Hv].
    rewrite split_app by exact Hk. now rewrite split_no_sep.
  - apply split1_None in E. lia.
Qed.

Lemma split_two_fields t :
  (exists k v, split equals_sign t = [k; v]) <-> count equals_sign t = 1%nat.
Proof.
  split.
  - intros (k & v & H). pose proof (split_length equals_sign t) as L.
    rewrite H in L. simpl in L. lia.
  - intros H. destruct (split_one_equals t H) as (k & v & _ & Hs & _). eauto.
Qed.

Lemma dict_update_None d values :
  dict_update d (map (split equals_sign) values) = None <->
  Exists (fun t => count equals_sign t <> 1%nat) values.
Proof.
  revert d. induction values as [|t values IH]; intros d; simpl.
  - split; [discriminate | intros H; inversion H].
  - destruct (Nat.eq_dec (count equals_sign t) 1%nat) as [E|E].
    + destruct (split_one_equals t E) as (k & v & _ & -> & _).
      rewrite IH. split; [now right|].
      intros H. inversion H; subst; [contradiction | assumption].
    + split; [now left|]. intros _.
      destruct (split equals_sign t) as [|a [|b [|c l]]] eqn:Hs; try reflexivity.
      exfalso. apply E. apply split_two_fields. eauto.
Qed.

Lemma dict_update_Some d values :
  Forall (fun t => count equals_sign t = 1%nat) values ->
  dict_update d (map (split equals_sign) values)
  = Some (foldl insert_pair d (omap divide values)).
Proof.
  intros H. revert d. induction H as [|t values Ht _ IH]; intros d; simpl.
  - reflexivity.
  - destruct (split_one_equals t Ht) as (k & v & -> & -> & _). simpl. apply IH.
Qed.

Lemma lookup_foldl_insert_pair k pairs (d : gmap string string) :
  foldl insert_pair d pairs !! k
  = match last_value k pairs with Some v => Some v | None => d !! k end.
Proof.
  revert d. induction pairs as [|[k' v] pairs IH]; intros d; simpl.
  - reflexivity.
  - rewrite IH. destruct (last_value k pairs); [reflexivity|].
    unfold insert_pair. simpl. destruct (String.eqb_spec k' k) as [->|Hne].
    + apply lookup_insert_eq.
    + now apply lookup_insert_ne.
Qed.

End HeaderFacts.

(** ** The consuming loop *)

Section ConsumeFacts.
Import Argparse Spec.

Lemma flags_of_app l1 l2 : flags_of (l1 ++ l2) = flags_of l1 ++ flags_of l2.
Proof. apply List.filter_app. Qed.

Lemma take_actions_app l1 l2 ns0 :
  take_actions (l1 ++ l2) ns0 = bind (take_actions l1 ns0) (take_actions l2).
Proof.
  revert ns0. induction l1 as [|[a args] l1 IH]; intros ns0; simpl; [reflexivity|].
  destruct (take_action a args ns0); simpl; [apply IH | reflexivity].
Qed.

Lemma short_option_untracked c a :
  lookup_option (String "-" (String c EmptyString)) = Some a -> tracked a = false.
Proof.
  destruct c as [[] [] [] [] [] [] [] []]; vm_compute; intros [= <-] || discriminate; reflexivity.
Qed.

Lemma explicit_loop_flags e : forall a ostr done tuples last,
  explicit_loop a ostr e done = Planned tuples last ->
  flags_of (map fst tuples ++ last_action last) = flags_of (map fst done ++ [a]).
Proof.
  induction e as [|c rest IH]; intros a ostr done tuples last; simpl.
  - destruct (action_nargs a); [| discriminate |];
      intros [= <- <-]; rewrite map_app; simpl; now rewrite app_nil_r.
  - destruct (action_nargs a).
    + intros [= <- <-]. rewrite map_app. simpl. now rewrite app_nil_r.
    + destruct (second_is_dash ostr); [discriminate|].
      destruct (lookup_option (String "-" (String c EmptyString))) as [a'|] eqn:L;
        [|discriminate].
      apply short_option_untracked in L.
      destruct rest as [|c' rest'].
      * intros [= <- <-]. rewrite map_app. simpl.
        rewrite !flags_of_app. simpl. rewrite L. now rewrite !app_nil_r.
      * intros H. apply IH in H. rewrite H. rewrite map_app. simpl.
        rewrite !flags_of_app. simpl. rewrite L. now rewrite !app_nil_r.
    + intros [= <- <-]. rewrite map_app. simpl. now rewrite app_nil_r.
Qed.

Lemma plan_optional_flags a ostr e tuples last :
  plan_optional a ostr e = Planned tuples last ->
  flags_of (map fst tuples ++ last_action last) = flags_of [a].
Proof.
  destruct e as [x|]; simpl.
  - apply explicit_loop_flags.
  - now intros [= <- <-].
Qed.

Lemma flush_Ok m st st' :
  flush m st = Ok st' ->
  exists tuples, take_actions tuples (ns st) = Ok (ns st')
    /\ map fst tuples = mode_actions m
    /\ positionals st' = positionals st.
Proof.
  destruct m as [| | |done a|done a acc]; simpl.
  - intros [= <-]. now exists [].
  - intros [= <-]. now exists [].
  - intros [= <-]. now exists [].
  - discriminate.
  - unfold run_tuples. destruct (take_actions _ _) as [ns1|] eqn:E; simpl; [|discriminate].
    intros [= <-]. exists (done ++ [(a, acc)]). simpl.
    split; [exact E|]. split; [|reflexivity]. now rewrite map_app.
Qed.

Lemma run_tuples_Ok tuples st st' :
  run_tuples tuples st = Ok st' ->
  take_actions tuples (ns st) = Ok (ns st') /\ positionals st' = positionals st.
Proof.
  unfold run_tuples. destruct (take_actions _ _) as [ns1|]; simpl; [|discriminate].
  now intros [= <-].
Qed.

Lemma take_positional_Ok args st st' :
  take_positional args st = Ok st' ->
  take_actions [(Mdpath, args)] (ns st) = Ok (ns st') /\ positionals st' = false.
Proof.
  unfold take_positional. simpl. destruct (take_action _ _ _) as [ns1|]; simpl; [|discriminate].
  now intros [= <-].
Qed.

Lemma take_actions_trans l1 l2 ns0 ns1 ns2 :
  take_actions l1 ns0 = Ok ns1 -> take_actions l2 ns1 = Ok ns2 ->
  take_actions (l1 ++ l2) ns0 = Ok ns2.
Proof. intros H1 H2. rewrite take_actions_app, H1. exact H2. Qed.

Theorem consume_schedule toks : forall m st st',
  consume m st toks = Ok st' ->
  exists tuples, take_actions tuples (ns st) = Ok (ns st')
    /\ flags_of (map fst tuples) = flags_of (mode_actions m ++ selected_actions toks)
    /\ (positionals st' = false ->
        positionals st = false \/ In Mdpath (map fst tuples)).
Proof.
  induction toks as [|tok rest IH]; intros m st st' H.
  - simpl in H. apply flush_Ok in H as (tuples & Ht & Hm & Hp).
    exists tuples. rewrite Hm, app_nil_r. split; [exact Ht|]. split; [reflexivity|].
    rewrite Hp. now left.
  - destruct tok as [s| |[a|] ostr e].
    + (* an argument *)
      simpl in H.
      assert (Hpos : forall args, 
        bind (take_positional args st) (fun st1 => consume Ready st1 rest) = Ok st' \/
        bind (take_positional args st) (fun st1 => consume JustPositional st1 rest) = Ok st' ->
        mode_actions m = [] ->
        exists tuples, take_actions tuples (ns st) = Ok (ns st')
          /\ flags_of (map fst tuples) = flags_of (mode_actions m ++ selected_actions rest)
          /\ (positionals st' = false ->
              positionals st = false \/ In Mdpath (map fst tuples))).
      { intros args Hb Hm.
        destruct (take_positional args st) as [st1|] eqn:E; simpl in Hb;
          [|destruct Hb; discriminate].
        apply take_positional_Ok in E as [E1 E2].
        assert (Hc : exists m', mode_actions m' = [] /\ consume m' st1 rest = Ok st')
          by (destruct Hb; [exists Ready | exists JustPositional]; auto).
        destruct Hc as (m' & Hm' & Hc).
        apply IH in Hc as (tuples & Ht & Hf & _).
        exists ((Mdpath, args) :: tuples). split.
        - change ((Mdpath, args) :: tuples) with ([(Mdpath, args)] ++ tuples).
          eapply take_actions_trans; eauto.
        - split; [|intros _; right; now left].
          rewrite Hm. rewrite Hm' in Hf. simpl in *. exact Hf. }
      destruct m as [| | |done a|done a acc].
      * destruct (positionals st) eqn:P.
        -- apply (Hpos [s]); auto.
        -- apply IH in H as (tuples & Ht & Hf & Hp). exists tuples. simpl in *. auto.
      * destruct (positionals st) eqn:P.
        -- apply (Hpos [s]); auto.
        -- apply IH in H as (tuples & Ht & Hf & Hp). exists tuples. simpl in *. auto.
      * apply (Hpos ["--"%string; s]); auto.
      * destruct (run_tuples (done ++ [(a, [s])]) st) as [st1|] eqn:E; simpl in H;
          [|discriminate].
        apply run_tuples_Ok in E as [E1 E2].
        apply IH in H as (tuples & Ht & Hf & Hp).
        exists ((done ++ [(a, [s])]) ++ tuples). split; [eapply take_actions_trans; eauto|].
        split.
        -- simpl mode_actions. rewrite !map_app, !flags_of_app. simpl map.
           simpl in Hf. rewrite Hf. reflexivity.
        -- intros Hq. destruct (Hp Hq) as [Hq'|Hq'].
           ++ left. congruence.
           ++ right. rewrite map_app. apply in_or_app. now right.
      * apply IH in H as (tuples & Ht & Hf & Hp). exists tuples. simpl in *. auto.
    + (* the separator *)
     
      assert (Hgen : bind (flush m st) (fun st1 =>
                 if positionals st1 then consume DashPending st1 rest
                 else consume Ready (add_extras ["--"%string] st1) rest) = Ok st' ->
        exists tuples, take_actions tuples (ns st) = Ok (ns st')
          /\ flags_of (map fst tuples) = flags_of (mode_actions m ++ selected_actions rest)
          /\ (positionals st' = false ->
              positionals st = false \/ In Mdpath (map fst tuples))).
      { intros Hb. destruct (flush m st) as [st1|] eqn:E; simpl in Hb; [|discriminate].
        apply flush_Ok in E as (t1 & E1 & E2 & E3).
        assert (Hc : exists m' st2, mode_actions m' = [] /\ ns st2 = ns st1
                  /\ positionals st2 = positionals st1 /\ consume m' st2 rest = Ok st').
        { destruct (positionals st1) eqn:P.
          - exists DashPending, st1. repeat split; auto.
          - exists Ready, (add_extras ["--"%string] st1). repeat split; auto. }
        destruct Hc as (m' & st2 & Hm' & Hn & Hp2 & Hc).
        apply IH in Hc as (tuples & Ht & Hf & Hp).
        exists (t1 ++ tuples). split.
        - eapply take_actions_trans; eauto. now rewrite <- Hn.
        - split.
          + rewrite map_app, !flags_of_app, E2, Hf, Hm'. reflexivity.
          + intros Hq. destruct (Hp Hq) as [Hq'|Hq'].
            * left. congruence.
            * right. rewrite map_app. apply in_or_app. now right. }
      destruct m; simpl in H; try (apply Hgen; exact H).
      apply IH in H as (tuples & Ht & Hf & Hp). exists tuples. simpl in *. auto.
    + (* an option of the parser *)
      simpl in H.
      destruct (flush m st) as [st1|] eqn:E; simpl in H; [|discriminate].
      apply flush_Ok in E as (t1 & E1 & E2 & E3).
      destruct (plan_optional a ostr e) as [done last|] eqn:Hplan; [|discriminate].
      apply plan_optional_flags in Hplan.
      assert (Hc : exists t2 m' st2, take_actions t2 (ns st1) = Ok (ns st2)
                /\ positionals st2 = positionals st1
                /\ flags_of (map fst t2 ++ mode_actions m') = flags_of [a]
                /\ consume m' st2 rest = Ok st').
      { destruct last as [a'|].
        - destruct (action_nargs a').
          + exists [], (NeedArg done a'), st1. simpl. auto.
          + destruct (run_tuples _ st1) as [st2|] eqn:R; simpl in H; [|discriminate].
            apply run_tuples_Ok in R as [R1 R2].
            exists (done ++ [(a', [])]), Ready, st2. rewrite app_nil_r, map_app. auto.
          + exists [], (Star done a' []), st1. simpl. auto.
        - destruct (run_tuples _ st1) as [st2|] eqn:R; simpl in H; [|discriminate].
          apply run_tuples_Ok in R as [R1 R2].
          exists done, Ready, st2. simpl in *. auto. }
      destruct Hc as (t2 & m' & st2 & Ht2 & Hp2 & Hf2 & Hc).
      apply IH in Hc as (tuples & Ht & Hf & Hp).
      exists (t1 ++ t2 ++ tuples). split.
      * eapply take_actions_trans; eauto. eapply take_actions_trans; eauto.
      * split.
        -- rewrite !map_app, !flags_of_app, E2, Hf.
           change (selected_actions (COpt (Some a) ostr e :: rest))
             with ([a] ++ selected_actions rest).
           rewrite !flags_of_app, <- Hf2, flags_of_app.
           now rewrite <- !app_assoc.
        -- intros Hq. destruct (Hp Hq) as [Hq'|Hq'].
           ++ left. congruence.
           ++ right. rewrite !map_app. apply in_or_app. right. apply in_or_app. now right.
    + (* an unknown option *)
      simpl in H.
      destruct (flush m st) as [st1|] eqn:E; simpl in H; [|discriminate].
      apply flush_Ok in E as (t1 & E1 & E2 & E3).
      apply IH in H as (tuples & Ht & Hf & Hp).
      exists (t1 ++ tuples). split; [eapply take_actions_trans; eauto|]. split.
      * rewrite map_app, !flags_of_app, E2, Hf. reflexivity.
      * intros Hq. destruct (Hp Hq) as [Hq'|Hq'].
        -- left. simpl in Hq'. congruence.
        -- right. rewrite map_app. apply in_or_app. now right.
Qed.

End ConsumeFacts.

(** ** Actions *)

Section ActionFacts.
Import Argparse Spec.

Lemma check_value_Ok a v :
  check_value a v = Ok tt <->
  match action_choices a with Some choices => In v choices | None => True end.
Proof.
  unfold check_value. destruct (action_choices a) as [choices|]; [|tauto].
  destruct (existsb (String.eqb v) choices) eqn:E.
  - split; [|reflexivity]. intros _. apply existsb_exists in E as (x & Hx & Heq).
    apply String.eqb_eq in Heq. now subst.
  - split; [discriminate|]. intros H. exfalso.
    assert (existsb (String.eqb v) choices = true); [|congruence].
    apply existsb_exists. exists v. split; [exact H | apply String.eqb_refl].
Qed.

Lemma check_value_unit a v u : check_value a v = Ok u -> check_value a v = Ok tt.
Proof. now destruct u. Qed.

Lemma check_each_Ok a l u :
  check_each a l = Ok u -> forall s, In s l -> check_value a s = Ok tt.
Proof.
  induction l as [|x l IH]; simpl; intros H s; [intros []|].
  destruct (check_value a x) as [[]|?] eqn:C; simpl in H; [|discriminate].
  intros [<-|Hs]; [exact C | now apply IH].
Qed.

Lemma get_values_VStr a args s :
  get_values a args = Ok (VStr s) -> check_value a s = Ok tt.
Proof.
  unfold get_values.
  destruct (remove_first "--" args) as [|x [|y l]]; destruct (action_nargs a);
    simpl; intros H;
    repeat match type of H with
    | context [check_each a ?l] =>
        destruct (check_each a l) as [[]|?]; simpl in H
    | context [check_value a ?v] =>
        destruct (check_value a v) as [[]|?] eqn:?; simpl in H
    end;
    try discriminate.
  now injection H as <-.
Qed.

Lemma get_values_VList a args l :
  get_values a args = Ok (VList l) ->
  l = remove_first "--" args /\ forall s, In s l -> check_value a s = Ok tt.
Proof.
  unfold get_values.
  assert (He : forall l',
    bind (check_each a l') (fun _ => Ok (VList l')) = Ok (VList l) ->
    l = l' /\ forall s, In s l -> check_value a s = Ok tt).
  { intros l'. destruct (check_each a l') as [u|] eqn:C; simpl; [|discriminate].
    intros [= <-]. split; [reflexivity|]. eapply check_each_Ok; eauto. }
  destruct (remove_first "--" args) as [|x [|y l']]; destruct (action_nargs a);
    try apply He.
  destruct (check_value a x); simpl; discriminate.
Qed.

Lemma get_values_chosen a args v choices :
  get_values a args = Ok v -> action_choices a = Some choices ->
  chosen choices v.
Proof.
  intros G Hc. destruct v as [s|l]; simpl.
  - apply get_values_VStr in G. apply check_value_Ok in G. now rewrite Hc in G.
  - apply get_values_VList in G as [_ G]. intros s Hs.
    specialize (G s Hs). apply check_value_Ok in G. now rewrite Hc in G.
Qed.

Lemma take_action_Ok a args ns0 ns1 :
  take_action a args ns0 = Ok ns1 -> effect a ns0 ns1.
Proof.
  unfold take_action. destruct (get_values a args) as [v|] eqn:G; simpl; [|discriminate].
  destruct a; simpl; unfold KwargsAppendAction_call;
    try discriminate;
    try (intros [= <-]; reflexivity);
    try (intros [= <-]; eauto; fail).
  - intros [= <-]. exists v. split; [|reflexivity].
    now apply (get_values_chosen _ _ _ _ G).
  - intros [= <-]. exists v. split; [|reflexivity].
    now apply (get_values_chosen _ _ _ _ G).
  - destruct v; destruct (HeaderAction.parse_headers _); try discriminate;
      intros [= <-]; eauto.
Qed.

Lemma take_action_Stop a args ns0 b e :
  take_action a args ns0 = Stop (UsageError (ArgumentError b e)) -> a = b.
Proof.
  unfold take_action, get_values.
  assert (Hc : forall v r, check_value a v = Stop r ->
     r = UsageError (ArgumentError b e) -> a = b).
  { intros v r. unfold check_value. destruct (action_choices a); [|discriminate].
    destruct (existsb _ _); [discriminate|]. intros [= <-] [= <- _]. reflexivity. }
  assert (He : forall l r, check_each a l = Stop r ->
     r = UsageError (ArgumentError b e) -> a = b).
  { induction l as [|v l IH]; simpl; [discriminate|]. intros r.
    destruct (check_value a v) as [[]|r'] eqn:C; simpl; [apply IH|].
    intros [= <-]. eapply Hc; eauto. }
  assert (Hcall : forall v, call_action a v ns0 = Stop (UsageError (ArgumentError b e)) -> a = b).
  { intros v. destruct a; simpl; unfold KwargsAppendAction_call;
      try discriminate.
    destruct v; destruct (HeaderAction.parse_headers _); try discriminate;
      now intros [= <- _]. }
  destruct (remove_first "--" args) as [|x [|y l]]; destruct (action_nargs a); simpl;
  repeat match goal with
       | |- context [check_each a ?l] => 
           let C := fresh "C" in destruct (check_each a l) as [[]|?] eqn:C; simpl
       | |- context [check_value a ?v] => 
           let C := fresh "C" in destruct (check_value a v) as [[]|?] eqn:C; simpl
       end;
       try (apply Hcall);
       intros [= ->]; eauto.
Qed.

End ActionFacts.

(** ** The namespace after a list of actions *)

Section NamespaceFacts.
Import Argparse Spec.

Lemma take_actions_cons a args rest ns0 ns1 :
  take_actions ((a, args) :: rest) ns0 = Ok ns1 ->
  exists n, take_action a args ns0 = Ok n /\ take_actions rest n = Ok ns1.
Proof.
  simpl. destruct (take_action a args ns0) as [n|]; simpl; [eauto | discriminate].
Qed.

Lemma take_actions_loglevel tuples : forall ns0 ns1,
  take_actions tuples ns0 = Ok ns1 -> loglevel_ok ns0 -> loglevel_ok ns1.
Proof.
  induction tuples as [|[a args] rest IH]; intros ns0 ns1 H Hok.
  - now injection H as <-.
  - apply take_actions_cons in H as (n & Ha & Hr). apply (IH _ _ Hr).
    apply take_action_Ok in Ha. unfold loglevel_ok in *.
    destruct a; simpl in Ha;
      try contradiction;
      try (destruct Ha as (s & ->); exact Hok);
      try (subst n; exact Hok).
    + destruct Ha as (v & Hv & ->). simpl.
      destruct v as [s|l]; simpl in *; [now right|].
      intros s Hs. right. now apply Hv.
    + destruct Ha as (s & _ & ->). exact Hok.
Qed.

Lemma take_actions_mdpath tuples : forall ns0 ns1,
  take_actions tuples ns0 = Ok ns1 ->
  is_Some (mdpath ns0) \/ In Mdpath (map fst tuples) -> is_Some (mdpath ns1).
Proof.
  induction tuples as [|[a args] rest IH]; intros ns0 ns1 H Hm.
  - injection H as <-. destruct Hm as [Hm|[]]. exact Hm.
  - apply take_actions_cons in H as (n & Ha & Hr). apply (IH _ _ Hr).
    apply take_action_Ok in Ha. simpl in Hm.
    destruct a; simpl in Ha;
      try contradiction;
      try (destruct Ha as (s & ->); simpl; destruct Hm as [Hm|[Hm|Hm]]; 
           [now left | discriminate | now right]);
      try (destruct Ha as (s & _ & ->); simpl; destruct Hm as [Hm|[Hm|Hm]]; 
           [now left | discriminate | now right]);
      try (subst n; simpl; destruct Hm as [Hm|[Hm|Hm]]; 
           [now left | discriminate | now right]).
    destruct Ha as (s & ->). left. simpl. eauto.
Qed.

Lemma take_actions_headers tuples : forall ns0 ns1,
  take_actions tuples ns0 = Ok ns1 ->
  ~ In Headers (map fst tuples) -> headers ns1 = headers ns0.
Proof.
  induction tuples as [|[a args] rest IH]; intros ns0 ns1 H Hm.
  - now injection H as <-.
  - apply take_actions_cons in H as (n & Ha & Hr).
    simpl in Hm. rewrite (IH _ _ Hr) by tauto.
    apply take_action_Ok in Ha.
    destruct a; simpl in Ha;
      try contradiction;
      try (destruct Ha as (s & ->); reflexivity);
      try (destruct Ha as (s & _ & ->); reflexivity);
      try (subst n; reflexivity).
    exfalso. apply Hm. now left.
Qed.

Lemma take_actions_Stop tuples : forall ns0 b e,
  take_actions tuples ns0 = Stop (UsageError (ArgumentError b e)) ->
  In b (map fst tuples).
Proof.
  induction tuples as [|[a args] rest IH]; intros ns0 b e; simpl; [discriminate|].
  destruct (take_action a args ns0) as [n|r] eqn:Ha; simpl.
  - intros H. right. eapply IH; eauto.
  - intros [= ->]. left. eapply take_action_Stop; eauto.
Qed.




Lemma in_flags a l : tracked a = true -> In a (flags_of l) <-> In a l.
Proof.
  intros T. unfold flags_of. rewrite List.filter_In. tauto.
Qed.

End NamespaceFacts.

(** ** [parse_args] *)

Section ParseFacts.
Import Argparse Spec.

Ltac stop_inv :=
  match goal with H : Stop _ = Stop _ |- _ => injection H as -> end.

Lemma flush_Stop m st b e :
  flush m st = Stop (UsageError (ArgumentError b e)) -> In b (mode_actions m).
Proof.
  destruct m as [| | |done a|done a acc]; simpl; try discriminate.
  - intros [= <- _]. apply in_or_app. right. now left.
  - unfold run_tuples. destruct (take_actions _ _) as [n|r] eqn:E; simpl; [discriminate|].
    intros [= ->]. apply take_actions_Stop in E. now rewrite map_app in E.
Qed.

Lemma run_tuples_Stop tuples st b e :
  run_tuples tuples st = Stop (UsageError (ArgumentError b e)) ->
  In b (map fst tuples).
Proof.
  unfold run_tuples. destruct (take_actions _ _) as [n|r] eqn:E; simpl; [discriminate|].
  intros [= ->]. eapply take_actions_Stop; eauto.
Qed.

Lemma take_positional_Stop args st b e :
  take_positional args st = Stop (UsageError (ArgumentError b e)) -> b = Mdpath.
Proof.
  unfold take_positional. destruct (take_action _ _ _) as [n|r] eqn:E; simpl; [discriminate|].
  intros [= ->]. symmetry. eapply take_action_Stop; eauto.
Qed.

Lemma explicit_loop_error e : forall a ostr done b err,
  explicit_loop a ostr e done = PlanError b err -> action_nargs b = NargsZero.
Proof.
  induction e as [|c rest IH]; intros a ostr done b err; simpl.
  - destruct (action_nargs a) eqn:N; try discriminate. now intros [= <- _].
  - destruct (action_nargs a) eqn:N; try discriminate.
    destruct (second_is_dash ostr); [now intros [= <- _]|].
    destruct (lookup_option _) as [a'|]; [|now intros [= <- _]].
    destruct rest; [discriminate|]. apply IH.
Qed.

Lemma plan_optional_error a ostr e b err :
  plan_optional a ostr e = PlanError b err -> action_nargs b = NargsZero.
Proof.
  destruct e; simpl; [apply explicit_loop_error | discriminate].
Qed.

Lemma planned_headers a ostr e tuples last :
  plan_optional a ostr e = Planned tuples last ->
  In Headers (map fst tuples ++ last_action last) -> a = Headers.
Proof.
  intros H Hin. apply plan_optional_flags in H.
  apply (proj2 (in_flags Headers _ eq_refl)) in Hin. rewrite H in Hin.
  apply (proj1 (in_flags Headers _ eq_refl)) in Hin.
  destruct Hin as [Ha|[]]. exact Ha.
Qed.

Theorem consume_Stop_headers toks : forall m st e,
  consume m st toks = Stop (UsageError (ArgumentError Headers e)) ->
  In Headers (mode_actions m ++ selected_actions toks).
Proof.
  induction toks as [|tok rest IH]; intros m st e H.
  - simpl in H. apply flush_Stop in H. now rewrite app_nil_r.
  - destruct tok as [s| |[a|] ostr x]; simpl selected_actions.
    + (* an argument *)
      assert (Hpos : forall args m', mode_actions m' = [] ->
        bind (take_positional args st) (fun st1 => consume m' st1 rest)
        = Stop (UsageError (ArgumentError Headers e)) ->
        In Headers (mode_actions m ++ selected_actions rest)).
      { intros args m' Hm' Hb.
        destruct (take_positional args st) as [st1|r] eqn:E; simpl in Hb.
        - apply IH in Hb. rewrite Hm' in Hb. apply in_or_app. now right.
        - stop_inv. apply take_positional_Stop in E. discriminate. }
      destruct m as [| | |done a|done a acc]; simpl in H.
      * destruct (positionals st); [exact (Hpos [s] JustPositional eq_refl H)|].
        apply IH in H. exact H.
      * destruct (positionals st); [exact (Hpos [s] JustPositional eq_refl H)|].
        apply IH in H. exact H.
      * exact (Hpos ["--"%string; s] Ready eq_refl H).
      * destruct (run_tuples _ st) as [st1|r] eqn:E; simpl in H.
        -- apply IH in H. apply in_or_app. now right.
        -- stop_inv. apply run_tuples_Stop in E. rewrite map_app in E.
           apply in_or_app. now left.
      * apply IH in H. exact H.
    + (* the separator *)
      assert (Hgen : bind (flush m st) (fun st1 =>
                 if positionals st1 then consume DashPending st1 rest
                 else consume Ready (add_extras ["--"%string] st1) rest)
              = Stop (UsageError (ArgumentError Headers e)) ->
              In Headers (mode_actions m ++ selected_actions rest)).
      { intros Hb. destruct (flush m st) as [st1|r] eqn:E; simpl in Hb.
        - apply in_or_app. right.
          destruct (positionals st1); apply IH in Hb; exact Hb.
        - stop_inv. apply flush_Stop in E. apply in_or_app. now left. }
      destruct m; simpl in H; try (apply Hgen; exact H).
      apply IH in H. exact H.
    + (* an option of the parser *)
      simpl in H. apply in_or_app.
      destruct (flush m st) as [st1|r] eqn:E; simpl in H;
        [|stop_inv; apply flush_Stop in E; now left].
      right.
      destruct (plan_optional a ostr x) as [done last|b err] eqn:Hplan.
      * pose proof (planned_headers _ _ _ _ _ Hplan) as Hh.
        assert (Hcase : In Headers (map fst done ++ last_action last)
                        \/ In Headers (selected_actions rest));
          [|destruct Hcase as [Hc|Hc]; [left; now apply Hh | now right]].
        destruct last as [a'|].
        -- destruct (action_nargs a').
           ++ apply IH in H. simpl in H. apply in_app_or in H. 
              destruct H as [H|H]; [left; exact H | now right].
           ++ destruct (run_tuples _ st1) as [st2|r] eqn:R; simpl in H.
              ** apply IH in H. now right.
              ** stop_inv. apply run_tuples_Stop in R. rewrite map_app in R. now left.
           ++ apply IH in H. simpl in H. apply in_app_or in H. 
              destruct H as [H|H]; [left; exact H | now right].
        -- destruct (run_tuples _ st1) as [st2|r] eqn:R; simpl in H.
           ** apply IH in H. now right.
           ** stop_inv. apply run_tuples_Stop in R. left. now rewrite app_nil_r.
      * injection H as -> _. apply plan_optional_error in Hplan. discriminate.
    + (* an unknown option *)
      simpl in H. apply in_or_app.
      destruct (flush m st) as [st1|r] eqn:E; simpl in H.
      * apply IH in H. now right.
      * stop_inv. apply flush_Stop in E. now left.
Qed.

(** A returned namespace is the defaults changed by the actions of the
    command line, taken in order, [mdpath] among them. *)
Theorem parse_args_Parsed argv args :
  parse_args argv = Parsed args ->
  exists tuples, take_actions tuples defaults = Ok args
    /\ flags_of (map fst tuples) = flags_of (given argv)
    /\ In Mdpath (map fst tuples).
Proof.
  unfold parse_args, given. destruct (classify argv) as [err|toks]; [discriminate|].
  destruct (consume Ready initial toks) as [st|r] eqn:C; [|discriminate].
  unfold finish. destruct (positionals st) eqn:P; [discriminate|].
  destruct (extras st); [|discriminate]. intros [= <-].
  apply consume_schedule in C as (tuples & Ht & Hf & Hp).
  exists tuples. split; [exact Ht|]. split; [exact Hf|].
  destruct (Hp P) as [Hq|Hq]; [discriminate | exact Hq].
Qed.

Lemma parsed_loglevel argv args :
  parse_args argv = Parsed args -> loglevel_ok args.
Proof.
  intros H. apply parse_args_Parsed in H as (tuples & Ht & _ & _).
  apply (take_actions_loglevel _ _ _ Ht). now left.
Qed.

Lemma parsed_mdpath argv args :
  parse_args argv = Parsed args -> exists s, mdpath args = Some s.
Proof.
  intros H. apply parse_args_Parsed in H as (tuples & Ht & _ & Hm).
  apply (take_actions_mdpath _ _ _ Ht). now right.
Qed.

Lemma parsed_headers_absent argv args :
  parse_args argv = Parsed args -> headers_absent argv -> headers args = None.
Proof.
  intros H Habs. apply parse_args_Parsed in H as (tuples & Ht & Hf & _).
  rewrite (take_actions_headers _ _ _ Ht); [reflexivity|].
  intros Hin. apply Habs. apply (proj1 (in_flags Headers _ eq_refl)).
  rewrite <- Hf. now apply (proj2 (in_flags Headers _ eq_refl)).
Qed.



Lemma parse_optional_error arg err :
  parse_optional arg = inl err -> exists matches, err = AmbiguousOption arg matches.
Proof.
  unfold parse_optional.
  destruct arg as [|c tail]; [discriminate|].
  destruct (negb _); [discriminate|]. destruct (lookup_option _); [discriminate|].
  destruct (nonempty tail); [|discriminate].
  destruct (match PyStr.split1 "=" (String c tail) with Some _ => _ | None => _ end);
    [discriminate|].
  destruct (get_option_tuples _) as [|[[? ?] ?] [|? ?]]; try discriminate.
  - destruct (negative_number _); [discriminate|].
    destruct (PyStr.contains _ _); discriminate.
  - intros [= <-]. eauto.
Qed.

Lemma classify_error argv err :
  classify argv = inl err -> exists arg matches, err = AmbiguousOption arg matches.
Proof.
  induction argv as [|arg rest IH]; simpl; [discriminate|].
  destruct (String.eqb arg "--"); [discriminate|].
  destruct (parse_optional arg) as [err'|c] eqn:P.
  - intros [= ->]. apply parse_optional_error in P as (matches & ->). eauto.
  - destruct (classify rest) as [err'|toks]; [|discriminate].
    intros [= ->]. now apply IH.
Qed.

Lemma headers_absent_no_header_error argv e :
  headers_absent argv ->
  parse_args argv <> Exited (UsageError (ArgumentError Headers e)).
Proof.
  unfold headers_absent, given, parse_args.
  destruct (classify argv) as [err|toks] eqn:C.
  - intros _ [= ->]. apply classify_error in C as (arg & matches & C). discriminate.
  - intros Habs. destruct (consume Ready initial toks) as [st|r] eqn:E.
    + unfold finish. destruct (positionals st); [discriminate|].
      destruct (extras st); discriminate.
    + intros [= ->]. apply consume_Stop_headers in E. simpl in E. contradiction.
Qed.

End ParseFacts.

(** ** The body of [main] *)

Section MainFacts.
Import Main Spec.

Variable w : Collaborators.

Lemma remote_pipeline_run options properties mdpath :
  remote_pipeline w options properties mdpath =
  match api_enter w properties with
  | inr e => ([ApiEnter properties], inr (Raise e))
  | inl api =>
      let exc := synchronize w api options mdpath in
      ([ApiEnter properties; Synchronize api options mdpath;
        ApiExit properties exc],
       match api_exit w properties exc with
       | inr e' => inr (Raise e')
       | inl swallow =>
           match exc with
           | None => inl tt
           | Some e => if swallow then inl tt else inr (Raise e)
           end
       end)
  end.
Proof.
  unfold remote_pipeline, with_statement, enter_api, exit_api, call.
  destruct (api_enter w properties) as [api|e]; simpl; [|reflexivity].
  destruct (synchronize w api options mdpath) as [e|]; simpl;
    destruct (api_exit w properties _) as [[]|e']; reflexivity.
Qed.

Lemma local_pipeline_run options properties mdpath :
  local_pipeline w options properties mdpath =
  ([LocalProcess options properties mdpath],
   match process w options properties mdpath with
   | None => inl tt
   | Some e => inr (Raise e)
   end).
Proof.
  unfold local_pipeline, call.
  destruct (process w options properties mdpath); reflexivity.
Qed.

Lemma on_HTTPError_run err :
  on_HTTPError err =
  (LoggingError (LogException err) :: body_log err,
   match response err with
   | Some r =>
       match json r with
       | JsonValue _ => inr (SysExit 1)
       | JsonRaises cls msg =>
           match cls with
           | JSONDecodeError => inr (SysExit 1)
           | _ => inr (Raise {| exn_class := cls; message := msg; response := None |})
           end
       end
   | None => inr (SysExit 1)
   end).
Proof.
  unfold on_HTTPError, body_log.
  destruct (response err) as [r|]; [|reflexivity].
  destruct (json r) as [body|cls msg]; [reflexivity|].
  destruct cls; reflexivity.
Qed.

Lemma main_Parsed argv args s name :
  Argparse.parse_args argv = Argparse.Parsed args ->
  Argparse.mdpath args = Some (Argparse.VStr s) ->
  Argparse.loglevel args = Argparse.VStr name ->
  main w argv =
  (BasicConfig (configured_level name) log_format
     :: fst (dispatch w (Argparse.local args) (make_options args)
               (make_properties args) (mkPath s)),
   outcome_of (snd (dispatch w (Argparse.local args) (make_options args)
                      (make_properties args) (mkPath s)))).
Proof.
  intros Hp Hm Hl. unfold main, after_parsing. rewrite Hp, Hm, Hl.
  destruct (dispatch w _ _ _ _) as [tr r]. reflexivity.
Qed.

Lemma main_Exited argv e :
  Argparse.parse_args argv = Argparse.Exited e -> main w argv = ([], ParserExit e).
Proof. intros H. unfold main. now rewrite H. Qed.

End MainFacts.

(** ** Registered options *)

Section RegisteredFacts.
Import Argparse Spec Cover.

Lemma lookup_option_In s a :
  lookup_option s = Some a -> In (s, a) option_string_actions.
Proof.
  unfold lookup_option.
  destruct (find _ option_string_actions) as [[s' a']|] eqn:F; [|discriminate].
  simpl. intros [= <-]. apply find_some in F as [Hin Heq]. simpl in Heq.
  apply String.eqb_eq in Heq. now subst.
Qed.

Lemma table_lookup entry :
  In entry option_string_actions -> lookup_option (fst entry) = Some (snd entry).
Proof.
  simpl. intros H.
  repeat (destruct H as [<-|H]; [reflexivity|]). contradiction.
Qed.

Lemma lookup_not_mdpath s a : lookup_option s = Some a -> is_mdpath a = false.
Proof.
  intros H. apply lookup_option_In in H. simpl in H.
  repeat (destruct H as [[= <- <-]|H]; [reflexivity|]). contradiction.
Qed.

(** [-h] is the only flag with a single dash. *)
Lemma short_flag_is_help s a :
  lookup_option s = Some a -> action_nargs a = NargsZero ->
  second_is_dash s = false -> a = Help.
Proof.
  intros H. apply lookup_option_In in H. simpl in H.
  repeat (destruct H as [[= <- <-]|H];
          [simpl; intros; try discriminate; reflexivity|]).
  contradiction.
Qed.

Lemma get_option_tuples_registered arg a s e :
  In (a, s, e) (get_option_tuples arg) -> lookup_option s = Some a.
Proof.
  unfold get_option_tuples. intros H. apply list_elem_of_In in H.
  destruct (second_is_dash arg).
  - destruct (match PyStr.split1 "=" arg with Some _ => _ | None => _ end)
      as [prefix explicit].
    apply list_elem_of_omap in H as (entry & Hin & Heq).
    destruct (PyStr.startswith _ _); [|discriminate]. injection Heq as <- <- _.
    apply table_lookup. now apply list_elem_of_In.
  - apply list_elem_of_omap in H as (entry & Hin & Heq).
    apply list_elem_of_In, table_lookup in Hin.
    destruct (String.eqb _ _); [now injection Heq as <- <- _|].
    destruct (PyStr.startswith _ _); [|discriminate]. now injection Heq as <- <- _.
Qed.

Lemma parse_optional_registered arg a s e :
  parse_optional arg = inr (Optional (Some a) s e) -> lookup_option s = Some a.
Proof.
  unfold parse_optional. destruct arg as [|c tail]; [discriminate|].
  destruct (negb _); [discriminate|].
  destruct (lookup_option (String c tail)) as [a0|] eqn:L; [now intros [= <- <- _]|].
  destruct (nonempty tail); [|discriminate].
  destruct (PyStr.split1 "=" (String c tail)) as [[o x]|].
  - destruct (lookup_option o) eqn:Lo; [now intros [= <- <- _]|].
    destruct (get_option_tuples _) as [|[[a1 s1] e1] [|? ?]] eqn:G; try discriminate.
    + destruct (negative_number _); [discriminate|].
      destruct (PyStr.contains _ _); discriminate.
    + intros [= <- <- _]. apply (get_option_tuples_registered (String c tail) _ _ e1).
      rewrite G. now left.
  - destruct (get_option_tuples _) as [|[[a1 s1] e1] [|? ?]] eqn:G; try discriminate.
    + destruct (negative_number _); [discriminate|].
      destruct (PyStr.contains _ _); discriminate.
    + intros [= <- <- _]. apply (get_option_tuples_registered (String c tail) _ _ e1).
      rewrite G. now left.
Qed.

Lemma classify_registered argv : forall toks,
  classify argv = inr toks -> Forall registered toks.
Proof.
  induction argv as [|arg rest IH]; intros toks; simpl.
  - intros [= <-]. constructor.
  - destruct (String.eqb arg "--").
    + intros [= <-]. constructor; [exact I|].
      clear. induction rest; simpl; constructor; [exact I | assumption].
    + destruct (parse_optional arg) as [err|c] eqn:P; [discriminate|].
      destruct (classify rest) as [err|toks']; [discriminate|].
      intros [= <-]. constructor; [|now apply IH].
      destruct c as [|[a|] s e]; simpl; try exact I.
      eapply parse_optional_registered; eauto.
Qed.

Lemma registered_selected toks :
  Forall registered toks -> options_of (selected_actions toks) = selected_actions toks.
Proof.
  induction 1 as [|t toks Ht _ IH]; [reflexivity|].
  destruct t as [s| |[a|] s e]; simpl; try exact IH.
  unfold options_of in *. simpl. rewrite (lookup_not_mdpath _ _ Ht). simpl.
  now rewrite IH.
Qed.

Lemma options_of_app l1 l2 : options_of (l1 ++ l2) = options_of l1 ++ options_of l2.
Proof. apply List.filter_app. Qed.

Lemma in_options_of a l : is_mdpath a = false -> In a (options_of l) <-> In a l.
Proof.
  intros H. unfold options_of. rewrite List.filter_In, H. simpl. tauto.
Qed.

Lemma explicit_loop_keeps e : forall a s done tuples last,
  explicit_loop a s e done = Planned tuples last -> incl done tuples.
Proof.
  induction e as [|c rest IH]; intros a s done tuples last; simpl.
  - destruct (action_nargs a); try discriminate;
      intros [= <- <-]; apply incl_appl, incl_refl.
  - destruct (action_nargs a).
    + intros [= <- <-]. apply incl_appl, incl_refl.
    + destruct (second_is_dash s); [discriminate|].
      destruct (lookup_option _) as [a'|]; [|discriminate].
      destruct rest as [|c' rest'].
      * intros [= <- <-]. apply incl_appl, incl_refl.
      * intros H. apply IH in H. intros x Hx. apply H, in_or_app. now left.
    + intros [= <- <-]. apply incl_appl, incl_refl.
Qed.

(** The plan of a registered option is the option alone, unless it starts
    with [-h]. *)
Lemma plan_optional_registered a s e done last :
  lookup_option s = Some a ->
  plan_optional a s e = Planned done last ->
  map fst done ++ last_action last = [a] \/ In Help (map fst done).
Proof.
  intros L. destruct e as [x|]; simpl; [|intros [= <- <-]; now left].
  destruct x as [|c rest]; simpl.
  - destruct (action_nargs a); try discriminate; intros [= <- <-]; now left.
  - destruct (action_nargs a) eqn:N.
    + intros [= <- <-]. now left.
    + destruct (second_is_dash s) eqn:D; [discriminate|].
      pose proof (short_flag_is_help _ _ L N D) as ->.
      destruct (lookup_option (String "-" (String c EmptyString))) as [a'|];
        [|discriminate].
      destruct rest as [|c' rest'].
      * intros [= <- <-]. right. now left.
      * intros H. apply explicit_loop_keeps in H. right.
        apply (in_map fst _ (Help, [])), H. now left.
    + intros [= <- <-]. now left.
Qed.

Lemma take_actions_no_help tuples : forall ns0 ns1,
  take_actions tuples ns0 = Ok ns1 -> ~ In Help (map fst tuples).
Proof.
  induction tuples as [|[a args] rest IH]; intros ns0 ns1 H; [tauto|].
  apply take_actions_cons in H as (n & Ha & Hr). apply take_action_Ok in Ha.
  simpl. intros [->|Hin]; [exact Ha | exact (IH _ _ Hr Hin)].
Qed.

End RegisteredFacts.

(** ** Stored values *)

Section ValueFacts.
Import Argparse Spec Cover.

Lemma strings_except_incl A B n :
  incl A B -> strings_except A n -> strings_except B n.
Proof.
  intros Hi H a v Hf. destruct (H a v Hf) as [Hs|[Hv Ha]]; [now left|].
  right. split; [exact Hv | now apply Hi].
Qed.

(** A successful action leaves every stored field as it was, except its
    own, which then holds the value it was called with. *)
Lemma call_action_fields a v n n' b w :
  call_action a v n = Ok n' -> field_of b n' = Some (Some w) ->
  field_of b n = Some (Some w) \/ (w = v /\ b = a /\ action_nargs a = NargsOne).
Proof.
  destruct a; simpl; unfold KwargsAppendAction_call;
    try discriminate;
    try (destruct v; destruct (HeaderAction.parse_headers _); try discriminate);
    intros [= <-]; destruct b; simpl; intros [= <-] || discriminate || idtac;
    auto.
Qed.

Lemma get_values_one a s :
  action_nargs a = NargsOne -> s <> "--"%string ->
  forall v, get_values a [s] = Ok v -> v = VStr s.
Proof.
  intros N Hs v. unfold get_values. simpl remove_first.
  destruct (String.eqb_spec s "--"); [contradiction|]. rewrite N.
  destruct (check_value a s); simpl; [now intros [= <-] | discriminate].
Qed.

Lemma get_values_separator a :
  action_nargs a = NargsOne ->
  forall v, get_values a ["--"%string] = Ok v -> v = VList [].
Proof.
  intros N v. unfold get_values. simpl. now intros [= <-].
Qed.

Lemma get_values_after_separator a s :
  action_nargs a = NargsOne ->
  forall v, get_values a ["--"%string; s] = Ok v -> v = VStr s.
Proof.
  intros N v. unfold get_values. simpl. rewrite N.
  destruct (check_value a s); simpl; [now intros [= <-] | discriminate].
Qed.

Lemma take_action_values a args n n' A :
  take_action a args n = Ok n' -> strings_except A n ->
  (action_nargs a = NargsOne ->
   forall v, get_values a args = Ok v ->
     (exists s, v = VStr s) \/ (v = VList [] /\ In a A)) ->
  strings_except A n'.
Proof.
  unfold take_action. destruct (get_values a args) as [v|] eqn:G; simpl; [|discriminate].
  intros Hc Hn Hv b w Hf.
  apply (call_action_fields _ _ _ _ _ _ Hc) in Hf as [Hold|(-> & -> & N)].
  - now apply Hn.
  - now apply Hv.
Qed.


Lemma take_one a s n n' A :
  take_action a [s] n = Ok n' -> s <> "--"%string ->
  strings_except A n -> strings_except A n'.
Proof.
  intros H Hs Hn. apply (take_action_values _ _ _ _ _ H Hn).
  intros N v G. left. exists s. now apply (get_values_one a s N Hs).
Qed.

Lemma take_separator a n n' A :
  take_action a ["--"%string] n = Ok n' ->
  strings_except A n -> strings_except (a :: A) n'.
Proof.
  intros H Hn. apply (take_action_values _ _ _ _ _ H).
  - eapply strings_except_incl; [|exact Hn]. apply incl_tl, incl_refl.
  - intros N v G. right. split; [now apply (get_values_separator a N) | now left].
Qed.

Lemma take_after_separator a s n n' A :
  take_action a ["--"%string; s] n = Ok n' ->
  strings_except A n -> strings_except A n'.
Proof.
  intros H Hn. apply (take_action_values _ _ _ _ _ H Hn).
  intros N v G. left. exists s. now apply (get_values_after_separator a s N).
Qed.

Lemma take_other a args n n' A :
  action_nargs a <> NargsOne -> take_action a args n = Ok n' ->
  strings_except A n -> strings_except A n'.
Proof.
  intros N H Hn. apply (take_action_values _ _ _ _ _ H Hn). intros N'. contradiction.
Qed.

Lemma take_actions_single a args n n' :
  take_actions [(a, args)] n = Ok n' -> take_action a args n = Ok n'.
Proof.
  simpl. destruct (take_action a args n); simpl; [trivial | discriminate].
Qed.

Lemma run_pending done a args st st' :
  pending done -> run_tuples (done ++ [(a, args)]) st = Ok st' ->
  take_action a args (ns st) = Ok (ns st') /\ positionals st' = positionals st.
Proof.
  intros Hp H. apply run_tuples_Ok in H as [H P]. split; [|exact P].
  destruct Hp as [->|Hh]; [now apply take_actions_single|].
  exfalso. apply (take_actions_no_help _ _ _ H). rewrite map_app.
  apply in_or_app. now left.
Qed.

Lemma flush_values m st st' A :
  flush m st = Ok st' -> mode_values m st -> strings_except A (ns st) ->
  strings_except A (ns st') /\ positionals st' = positionals st.
Proof.
  destruct m as [| | |done a|done a acc]; simpl;
    try (intros [= <-]; auto; fail); try discriminate.
  intros H [N Hp] Hn. apply (run_pending _ _ _ _ _ Hp) in H as [H P].
  split; [|exact P]. apply (take_other a acc (ns st) _ A); [congruence | exact H | exact Hn].
Qed.

Lemma given_separator_arguments rest :
  Forall is_arg rest -> given_separator rest = [].
Proof.
  induction 1 as [|t rest Ht _ IH]; [reflexivity|].
  destruct t; try contradiction. exact IH.
Qed.

Lemma consume_arguments rest :
  Forall is_arg rest -> forall st st',
  positionals st = false -> consume Ready st rest = Ok st' -> ns st' = ns st.
Proof.
  induction 1 as [|t rest Ht _ IH]; intros st st' P H.
  - now injection H as <-.
  - destruct t as [s| |]; try contradiction. simpl in H. rewrite P in H.
    now rewrite (IH (add_extras [s] st) _ P H).
Qed.

Lemma consume_dash_pending rest :
  Forall is_arg rest -> forall st st' A,
  strings_except A (ns st) -> consume DashPending st rest = Ok st' ->
  strings_except A (ns st').
Proof.
  intros Hr st st' A Hn H. destruct Hr as [|t rest Ht Hr].
  - now injection H as <-.
  - destruct t as [s| |]; try contradiction. cbn [consume] in H.
    destruct (take_positional ["--"%string; s] st) as [st1|] eqn:E; cbn [bind] in H;
      [|discriminate].
    apply take_positional_Ok in E as [E P]. apply take_actions_single in E.
    rewrite (consume_arguments _ Hr _ _ P H).
    exact (take_after_separator _ _ _ _ _ E Hn).
Qed.

Lemma plan_optional_values a ostr e done last :
  lookup_option ostr = Some a ->
  plan_optional a ostr e = Planned done last ->
  (e = None /\ done = [] /\ last = Some a)
  \/ (exists x, e = Some x /\ action_nargs a <> NargsZero
                /\ done = [(a, [x])] /\ last = None)
  \/ In Help (map fst done).
Proof.
  intros L. destruct e as [x|]; simpl; [|intros [= <- <-]; now left].
  right. revert H. destruct x as [|c rest]; simpl.
  - destruct (action_nargs a) eqn:N; try discriminate; intros [= <- <-]; left;
      exists EmptyString; repeat split; congruence.
  - destruct (action_nargs a) eqn:N.
    + intros [= <- <-]. left. eexists. repeat split; congruence.
    + destruct (second_is_dash ostr) eqn:D; [discriminate|].
      pose proof (short_flag_is_help _ _ L N D) as ->.
      destruct (lookup_option (String "-" (String c EmptyString))) as [a'|];
        [|discriminate].
      destruct rest as [|c' rest'].
      * intros [= <- <-]. right. now left.
      * intros H. apply explicit_loop_keeps in H. right.
        apply (in_map fst _ (Help, [])), H. now left.
    + intros [= <- <-]. left. eexists. repeat split; congruence.
Qed.

(** The values in the namespace after a successful run of the loop: every
    stored field holds a string, unless its option was given the separator
    as explicit argument, which leaves the empty list. *)
Theorem consume_values toks :
  Forall registered toks ->
  forall m st st' A,
  separated toks -> mode_values m st -> strings_except A (ns st) ->
  consume m st toks = Ok st' ->
  strings_except (A ++ given_separator toks) (ns st').
Proof.
  induction 1 as [|tok rest Htok _ IH]; intros m st st' A Hsep Hm Hn H.
  - simpl in H. rewrite app_nil_r. exact (proj1 (flush_values _ _ _ _ H Hm Hn)).
  - destruct tok as [s| |[a|] ostr e].
    + (* an argument *)
      destruct Hsep as [Hs Hsep]. simpl given_separator.
      assert (Hpos : positionals st = true ->
        bind (take_positional [s] st) (fun st1 => consume JustPositional st1 rest)
        = Ok st' -> strings_except (A ++ given_separator rest) (ns st')).
      { intros _ Hb.
        destruct (take_positional [s] st) as [st1|] eqn:E; cbn [bind] in Hb; [|discriminate].
        apply take_positional_Ok in E as [E P]. apply take_actions_single in E.
        exact (IH JustPositional st1 st' A Hsep P (take_one _ _ _ _ _ E Hs Hn) Hb). }
      destruct m as [| | |done a|done a acc]; cbn [consume] in H.
      * destruct (positionals st) eqn:P; [now apply Hpos|].
        exact (IH Ready (add_extras [s] st) _ A Hsep I Hn H).
      * destruct (positionals st) eqn:P; [now apply Hpos|].
        exact (IH Ready (add_extras [s] st) _ A Hsep I Hn H).
      * destruct (take_positional ["--"%string; s] st) as [st1|] eqn:E; cbn [bind] in H;
          [|discriminate].
        apply take_positional_Ok in E as [E P]. apply take_actions_single in E.
        exact (IH Ready st1 st' A Hsep I (take_after_separator _ _ _ _ _ E Hn) H).
      * destruct Hm as [N Hp].
        destruct (run_tuples (done ++ [(a, [s])]) st) as [st1|] eqn:E; cbn [bind] in H;
          [|discriminate].
        apply (run_pending _ _ _ _ _ Hp) in E as [E _].
        exact (IH Ready st1 st' A Hsep I (take_one _ _ _ _ _ E Hs Hn) H).
      * exact (IH (Star done a (acc ++ [s])) st st' A Hsep Hm Hn H).
    + (* the separator *)
      simpl in Hsep. simpl given_separator.
      rewrite (given_separator_arguments _ Hsep), app_nil_r.
      assert (Hgen : bind (flush m st) (fun st1 =>
                 if positionals st1 then consume DashPending st1 rest
                 else consume Ready (add_extras ["--"%string] st1) rest) = Ok st' ->
              strings_except A (ns st')).
      { intros Hb. destruct (flush m st) as [st1|] eqn:E; simpl in Hb; [|discriminate].
        apply (flush_values _ _ _ A) in E as [Hn1 _]; auto.
        destruct (positionals st1) eqn:P.
        - exact (consume_dash_pending _ Hsep _ _ _ Hn1 Hb).
        - now rewrite (consume_arguments _ Hsep (add_extras ["--"%string] st1) _ P Hb). }
      destruct m; simpl in H; try (apply Hgen; exact H).
      simpl in Hm. now rewrite (consume_arguments _ Hsep _ _ Hm H).
    + (* an option of the parser *)
      simpl in Htok, Hsep, H.
      destruct (flush m st) as [st1|] eqn:E; simpl in H; [|discriminate].
      apply (flush_values _ _ _ A) in E as [Hn1 _]; auto.
      destruct (plan_optional a ostr e) as [done last|] eqn:Hplan; [|discriminate].
      assert (Hc : exists m' st2 A',
                consume m' st2 rest = Ok st' /\ mode_values m' st2
                /\ strings_except A' (ns st2)
                /\ incl (A' ++ given_separator rest)
                        (A ++ given_separator (COpt (Some a) ostr e :: rest))).
      { assert (Hweak : incl (A ++ given_separator rest)
                          (A ++ given_separator (COpt (Some a) ostr e :: rest))).
        { apply incl_app; [apply incl_appl, incl_refl|]. apply incl_appr.
          simpl. destruct e as [x|]; [|apply incl_refl].
          destruct (String.eqb x "--"); [apply incl_tl|]; apply incl_refl. }
        destruct (plan_optional_values _ _ _ _ _ Htok Hplan)
          as [(-> & -> & ->)|[(x & -> & N & -> & ->)|Hh]].
        - destruct (action_nargs a) eqn:N.
          + exists (NeedArg [] a), st1, A. repeat split; auto. now left.
          + destruct (run_tuples _ st1) as [st2|] eqn:R; simpl in H; [|discriminate].
            apply (run_pending [] a [] st1 st2 (or_introl eq_refl)) in R as [R _].
            exists Ready, st2, A. repeat split; auto.
            apply (take_other a [] (ns st1) _ A); [congruence | exact R | exact Hn1].
          + exists (Star [] a []), st1, A. repeat split; auto. now left.
        - destruct (run_tuples _ st1) as [st2|] eqn:R; simpl in H; [|discriminate].
          apply (run_pending [] a [x] st1 st2 (or_introl eq_refl)) in R as [R _].
          simpl given_separator. destruct (String.eqb_spec x "--") as [->|Hx].
          + exists Ready, st2, (a :: A). repeat split; auto.
            * exact (take_separator _ _ _ _ R Hn1).
            * intros y. rewrite !in_app_iff. simpl. tauto.
          + exists Ready, st2, A. repeat split; auto.
            * exact (take_one _ _ _ _ _ R Hx Hn1).
            * apply incl_refl.
        - destruct last as [a'|].
          + destruct (action_nargs a') eqn:N.
            * exists (NeedArg done a'), st1, A. repeat split; auto. now right.
            * destruct (run_tuples _ st1) as [st2|] eqn:R; simpl in H; [|discriminate].
              exfalso. apply run_tuples_Ok in R as [R _].
              apply (take_actions_no_help _ _ _ R). rewrite map_app.
              apply in_or_app. now left.
            * exists (Star done a' []), st1, A. repeat split; auto. now right.
          + destruct (run_tuples _ st1) as [st2|] eqn:R; simpl in H; [|discriminate].
            exfalso. apply run_tuples_Ok in R as [R _].
            exact (take_actions_no_help _ _ _ R Hh). }
      destruct Hc as (m' & st2 & A' & Hc & Hm' & Hn2 & Hi).
      eapply strings_except_incl; [exact Hi|].
      exact (IH m' st2 st' A' Hsep Hm' Hn2 Hc).
    + (* an unknown option *)
      simpl in Hsep, H. simpl given_separator.
      destruct (flush m st) as [st1|] eqn:E; simpl in H; [|discriminate].
      apply (flush_values _ _ _ A) in E as [Hn1 _]; auto.
      exact (IH Ready (add_extras [ostr] st1) _ A Hsep I Hn1 H).
Qed.

Lemma classify_separated argv : forall toks,
  classify argv = inr toks -> separated toks.
Proof.
  induction argv as [|arg rest IH]; intros toks; simpl.
  - now intros [= <-].
  - destruct (String.eqb_spec arg "--") as [->|Hne].
    + intros [= <-]. simpl. clear. induction rest; simpl; constructor; [exact I | assumption].
    + destruct (parse_optional arg) as [err|c]; [discriminate|].
      destruct (classify rest) as [err|toks']; [discriminate|].
      intros [= <-]. destruct c; simpl; [split; [exact Hne|] |]; now apply IH.
Qed.

Lemma given_separator_selected toks :
  incl (given_separator toks) (selected_actions toks).
Proof.
  induction toks as [|t toks IH]; [apply incl_refl|].
  destruct t as [s| |[a|] o [e|]]; simpl; try exact IH.
  - destruct (String.eqb e "--"); [|now apply incl_tl].
    intros y [<-|Hy]; [now left | right; now apply IH].
  - now apply incl_tl.
Qed.

Lemma defaults_strings : strings_except [] defaults.
Proof.
  intros a v. destruct a; simpl; intros [= <-] || discriminate; left; eauto.
Qed.

(** In a returned namespace every stored field holds a string, unless its
    option was given the separator as explicit argument. *)
Theorem parsed_values argv args :
  parse_args argv = Parsed args -> strings_except (separator_given argv) args.
Proof.
  unfold parse_args, separator_given.
  destruct (classify argv) as [err|toks] eqn:C; [discriminate|].
  destruct (consume Ready initial toks) as [st|r] eqn:E; [|discriminate].
  unfold finish. destruct (positionals st); [discriminate|].
  destruct (extras st); [|discriminate]. intros [= <-].
  apply (consume_values toks (classify_registered _ _ C) Ready initial st []
           (classify_separated _ _ C) I defaults_strings E).
Qed.

Lemma separator_given_given argv : incl (separator_given argv) (given argv).
Proof.
  unfold separator_given, given. destruct (classify argv); [apply incl_refl|].
  apply given_separator_selected.
Qed.

Lemma given_not_mdpath argv : ~ In Mdpath (given argv).
Proof.
  unfold given. destruct (classify argv) as [err|toks] eqn:C; [tauto|].
  rewrite <- (registered_selected toks (classify_registered _ _ C)).
  unfold options_of. rewrite List.filter_In. intros [_ Hm]. discriminate.
Qed.

Lemma parsed_mdpath_string argv args :
  parse_args argv = Parsed args -> exists s, mdpath args = Some (VStr s).
Proof.
  intros H. destruct (parsed_mdpath _ _ H) as [v Hv].
  destruct (parsed_values _ _ H Mdpath v) as [[s ->]|[_ Hin]].
  - simpl. now rewrite Hv.
  - now exists s.
  - exfalso. apply (given_not_mdpath argv). now apply separator_given_given.
Qed.

End ValueFacts.

(** ** The options given and the fields they set *)

Section ExactFacts.
Import Argparse Spec Cover.

(** A successful run of the loop has taken, in order, the pending option
    and then exactly the options of the strings it has read, besides
    storing the positional. *)
Theorem consume_exact toks :
  Forall registered toks ->
  forall m st st',
  consume m st toks = Ok st' ->
  exists tuples, take_actions tuples (ns st) = Ok (ns st')
    /\ options_of (map fst tuples)
       = options_of (mode_actions m) ++ selected_actions toks.
Proof.
  induction 1 as [|tok rest Htok _ IH]; intros m st st' H.
  - simpl in H. apply flush_Ok in H as (tuples & Ht & Hm & _).
    exists tuples. now rewrite Hm, app_nil_r.
  - destruct tok as [s| |[a|] ostr e]; simpl selected_actions.
    + (* an argument *)
      assert (Hpos : forall args m', mode_actions m' = [] ->
        mode_actions m = [] ->
        bind (take_positional args st) (fun st1 => consume m' st1 rest) = Ok st' ->
        exists tuples, take_actions tuples (ns st) = Ok (ns st')
          /\ options_of (map fst tuples)
             = options_of (mode_actions m) ++ selected_actions rest).
      { intros args m' Hm' Hm Hb.
        destruct (take_positional args st) as [st1|] eqn:E; simpl in Hb; [|discriminate].
        apply take_positional_Ok in E as [E1 _].
        apply IH in Hb as (tuples & Ht & Hf).
        exists ((Mdpath, args) :: tuples). split.
        - change ((Mdpath, args) :: tuples) with ([(Mdpath, args)] ++ tuples).
          eapply take_actions_trans; eauto.
        - rewrite Hm. rewrite Hm' in Hf. exact Hf. }
      destruct m as [| | |done a|done a acc]; simpl in H.
      * destruct (positionals st); [exact (Hpos [s] JustPositional eq_refl eq_refl H)|].
        apply IH in H. exact H.
      * destruct (positionals st); [exact (Hpos [s] JustPositional eq_refl eq_refl H)|].
        apply IH in H. exact H.
      * exact (Hpos ["--"%string; s] Ready eq_refl eq_refl H).
      * destruct (run_tuples (done ++ [(a, [s])]) st) as [st1|] eqn:E; simpl in H;
          [|discriminate].
        apply run_tuples_Ok in E as [E1 _].
        apply IH in H as (tuples & Ht & Hf).
        exists ((done ++ [(a, [s])]) ++ tuples). split; [eapply take_actions_trans; eauto|].
        rewrite map_app, options_of_app, Hf, map_app. reflexivity.
      * apply IH in H. exact H.
    + (* the separator *)
      assert (Hgen : bind (flush m st) (fun st1 =>
                 if positionals st1 then consume DashPending st1 rest
                 else consume Ready (add_extras ["--"%string] st1) rest) = Ok st' ->
        exists tuples, take_actions tuples (ns st) = Ok (ns st')
          /\ options_of (map fst tuples)
             = options_of (mode_actions m) ++ selected_actions rest).
      { intros Hb. destruct (flush m st) as [st1|] eqn:E; simpl in Hb; [|discriminate].
        apply flush_Ok in E as (t1 & E1 & E2 & _).
        assert (Hc : exists m' st2, mode_actions m' = [] /\ ns st2 = ns st1
                  /\ consume m' st2 rest = Ok st').
        { destruct (positionals st1).
          - exists DashPending, st1. repeat split; auto.
          - exists Ready, (add_extras ["--"%string] st1). repeat split; auto. }
        destruct Hc as (m' & st2 & Hm' & Hn & Hc).
        apply IH in Hc as (tuples & Ht & Hf).
        exists (t1 ++ tuples). split.
        - eapply take_actions_trans; eauto. now rewrite <- Hn.
        - rewrite map_app, options_of_app, E2, Hf, Hm'. reflexivity. }
      destruct m; simpl in H; try (apply Hgen; exact H).
      apply IH in H. exact H.
    + (* an option of the parser *)
      simpl in H. simpl in Htok.
      destruct (flush m st) as [st1|] eqn:E; simpl in H; [|discriminate].
      apply flush_Ok in E as (t1 & E1 & E2 & _).
      destruct (plan_optional a ostr e) as [done last|] eqn:Hplan; [|discriminate].
      apply (plan_optional_registered _ _ _ _ _ Htok) in Hplan.
      assert (Hc : exists t2 m' st2, take_actions t2 (ns st1) = Ok (ns st2)
                /\ map fst t2 ++ mode_actions m' = map fst done ++ last_action last
                /\ consume m' st2 rest = Ok st').
      { destruct last as [a'|].
        - destruct (action_nargs a').
          + exists [], (NeedArg done a'), st1. simpl. auto.
          + destruct (run_tuples _ st1) as [st2|] eqn:R; simpl in H; [|discriminate].
            apply run_tuples_Ok in R as [R1 _].
            exists (done ++ [(a', [])]), Ready, st2. rewrite app_nil_r, map_app. auto.
          + exists [], (Star done a' []), st1. simpl. auto.
        - destruct (run_tuples _ st1) as [st2|] eqn:R; simpl in H; [|discriminate].
          apply run_tuples_Ok in R as [R1 _].
          exists done, Ready, st2. simpl. auto. }
      destruct Hc as (t2 & m' & st2 & Ht2 & Hm2 & Hc).
      apply IH in Hc as (tuples & Ht & Hf).
      assert (Hall : take_actions (t1 ++ t2 ++ tuples) (ns st) = Ok (ns st'))
        by (eapply take_actions_trans; eauto; eapply take_actions_trans; eauto).
      assert (Hopt : options_of (map fst (t1 ++ t2 ++ tuples))
                = options_of (mode_actions m)
                  ++ options_of (map fst done ++ last_action last)
                  ++ selected_actions rest).
      { rewrite <- Hm2, !map_app, !options_of_app, E2, Hf.
        now rewrite <- !app_assoc. }
      exists (t1 ++ t2 ++ tuples). split; [exact Hall|].
      rewrite Hopt. destruct Hplan as [Hp|Hp].
      * rewrite Hp. unfold options_of at 2. simpl.
        now rewrite (lookup_not_mdpath _ _ Htok).
      * exfalso. apply (take_actions_no_help _ _ _ Hall).
        apply (in_options_of Help); [reflexivity|]. rewrite Hopt.
        apply in_or_app. right. apply in_or_app. left.
        apply (in_options_of Help); [reflexivity|]. apply in_or_app. now left.
    + (* an unknown option *)
      simpl in H.
      destruct (flush m st) as [st1|] eqn:E; simpl in H; [|discriminate].
      apply flush_Ok in E as (t1 & E1 & E2 & _).
      apply IH in H as (tuples & Ht & Hf).
      exists (t1 ++ tuples). split; [eapply take_actions_trans; eauto|].
      rewrite map_app, options_of_app, E2, Hf. reflexivity.
Qed.

Lemma take_actions_keep_mdpath l : forall n n',
  take_actions l n = Ok n' ->
  ~ In Mdpath (map fst l) -> Argparse.mdpath n' = Argparse.mdpath n.
Proof.
  induction l as [|[a x] l IHl]; intros n n' Hl Hn; [now injection Hl as <-|].
  apply take_actions_cons in Hl as (n1 & Ha & Hr). simpl in Hn.
  rewrite (IHl _ _ Hr) by tauto. apply take_action_Ok in Ha.
  destruct a; simpl in Ha; try contradiction;
    try (destruct Ha as (s & ->); reflexivity);
    try (destruct Ha as (s & _ & ->); reflexivity);
    try (subst n1; reflexivity).
  exfalso. apply Hn. now left.
Qed.

Lemma parse_args_exact (argv : list string) (args : Arguments) :
  parse_args argv = Parsed args ->
  exists tuples : list (action * list string),
    take_actions tuples defaults = Ok args
    /\ options_of (map fst tuples) = given argv
    /\ In Mdpath (map fst tuples).
Proof.
  intros H. unfold parse_args, given in *.
  destruct (classify argv) as [err|toks] eqn:C; [discriminate|].
  destruct (consume Ready initial toks) as [st|r] eqn:E; [|discriminate].
  pose proof E as E'. apply consume_schedule in E' as (t0 & Ht0 & _ & Hp0).
  unfold finish in H. destruct (positionals st) eqn:P; [discriminate|].
  destruct (extras st); [|discriminate]. injection H as <-.
  apply consume_exact in E as (tuples & Ht & Hf); [|eapply classify_registered; eauto].
  exists tuples. split; [exact Ht|]. split; [exact Hf|].
  destruct (in_dec (fun x y : action => ltac:(decide equality)) Mdpath (map fst tuples))
    as [Hin|Hnot]; [exact Hin|].
  exfalso.
  pose proof (take_actions_keep_mdpath _ _ _ Ht Hnot) as Hmd. simpl in Hmd.
  assert (Hsome : is_Some (Argparse.mdpath (ns st))).
  { apply (take_actions_mdpath _ _ _ Ht0). right.
    destruct (Hp0 eq_refl) as [Hq|Hq]; [discriminate | exact Hq]. }
  rewrite Hmd in Hsome. destruct Hsome as [x Hx]. discriminate.
Qed.

End ExactFacts.

Section FieldFacts.
Import Argparse Spec Cover.

Lemma take_action_fields a args n n' :
  take_action a args n = Ok n' ->
  (Argparse.local n' = true <-> Argparse.local n = true \/ a = Local)
  /\ (Argparse.heading_anchors n' = true
      <-> Argparse.heading_anchors n = true \/ a = HeadingAnchors)
  /\ (Argparse.ignore_invalid_url n' = true
      <-> Argparse.ignore_invalid_url n = true \/ a = IgnoreInvalidUrl)
  /\ (Argparse.webui_links n' = true
      <-> Argparse.webui_links n = true \/ a = WebuiLinks)
  /\ (is_Some (Argparse.domain n') <-> is_Some (Argparse.domain n) \/ a = Domain)
  /\ (is_Some (Argparse.path n') <-> is_Some (Argparse.path n) \/ a = BasePath)
  /\ (is_Some (Argparse.username n')
      <-> is_Some (Argparse.username n) \/ a = Username)
  /\ (is_Some (Argparse.apikey n') <-> is_Some (Argparse.apikey n) \/ a = Apikey)
  /\ (is_Some (Argparse.space n') <-> is_Some (Argparse.space n) \/ a = Space)
  /\ (is_Some (Argparse.root_page n')
      <-> is_Some (Argparse.root_page n) \/ a = RootPage)
  /\ (Argparse.diagram_output_format n' = Argparse.diagram_output_format n
      \/ chosen ["png"; "svg"]%string (Argparse.diagram_output_format n')).
Proof.
  intros H. apply take_action_Ok in H.
  destruct a; simpl in H; try contradiction;
    try (destruct H as (s & Hs & ->));
    try (destruct H as (s & ->));
    try subst n'; cbn [Argparse.local Argparse.heading_anchors
      Argparse.ignore_invalid_url Argparse.webui_links Argparse.domain
      Argparse.path Argparse.username Argparse.apikey Argparse.space
      Argparse.root_page Argparse.diagram_output_format
      set_mdpath set_domain set_path set_username set_apikey set_space
      set_loglevel set_root_page set_generated_by set_render_mermaid
      set_diagram_output_format set_heading_anchors set_ignore_invalid_url
      set_local set_headers set_webui_links];
    repeat split; intros; try tauto; try (now left); try (now right);
    try (left; reflexivity); try (eexists; reflexivity);
    try (intuition discriminate).
Qed.

Lemma iff_step (P2 P1 P0 Q R : Prop) :
  (P1 <-> P0 \/ Q) -> (P2 <-> P1 \/ R) -> (P2 <-> P0 \/ (Q \/ R)).
Proof. tauto. Qed.

Lemma take_actions_fields tuples : forall n n',
  take_actions tuples n = Ok n' ->
  (Argparse.local n' = true
   <-> Argparse.local n = true \/ In Local (map fst tuples))
  /\ (Argparse.heading_anchors n' = true
      <-> Argparse.heading_anchors n = true \/ In HeadingAnchors (map fst tuples))
  /\ (Argparse.ignore_invalid_url n' = true
      <-> Argparse.ignore_invalid_url n = true
          \/ In IgnoreInvalidUrl (map fst tuples))
  /\ (Argparse.webui_links n' = true
      <-> Argparse.webui_links n = true \/ In WebuiLinks (map fst tuples))
  /\ (is_Some (Argparse.domain n')
      <-> is_Some (Argparse.domain n) \/ In Domain (map fst tuples))
  /\ (is_Some (Argparse.path n')
      <-> is_Some (Argparse.path n) \/ In BasePath (map fst tuples))
  /\ (is_Some (Argparse.username n')
      <-> is_Some (Argparse.username n) \/ In Username (map fst tuples))
  /\ (is_Some (Argparse.apikey n')
      <-> is_Some (Argparse.apikey n) \/ In Apikey (map fst tuples))
  /\ (is_Some (Argparse.space n')
      <-> is_Some (Argparse.space n) \/ In Space (map fst tuples))
  /\ (is_Some (Argparse.root_page n')
      <-> is_Some (Argparse.root_page n) \/ In RootPage (map fst tuples))
  /\ (Argparse.diagram_output_format n' = Argparse.diagram_output_format n
      \/ chosen ["png"; "svg"]%string (Argparse.diagram_output_format n')).
Proof.
  induction tuples as [|[a args] rest IH]; intros n n' H.
  - injection H as <-. simpl. repeat split; try tauto; now left.
  - apply take_actions_cons in H as (n1 & Ha & Hr).
    apply take_action_fields in Ha. apply IH in Hr. simpl map. simpl In.
    destruct Ha as (A1 & A2 & A3 & A4 & A5 & A6 & A7 & A8 & A9 & A10 & A11).
    destruct Hr as (R1 & R2 & R3 & R4 & R5 & R6 & R7 & R8 & R9 & R10 & R11).
    repeat (split; [eapply iff_step; eassumption|]).
    destruct R11 as [R|R]; [|now right].
    rewrite R. destruct A11 as [A|A]; [left; exact A | right; exact A].
Qed.

End FieldFacts.

Section ParsedFields.
Import Argparse Spec Cover.

Lemma parsed_fields argv args (a : action) :
  parse_args argv = Parsed args -> is_mdpath a = false ->
  exists tuples, take_actions tuples defaults = Ok args
    /\ (In a (map fst tuples) <-> In a (given argv)).
Proof.
  intros H Ha. apply parse_args_exact in H as (tuples & Ht & Hg & _).
  exists tuples. split; [exact Ht|]. rewrite <- Hg. symmetry. now apply in_options_of.
Qed.

Lemma parsed_loglevel_default argv args :
  parse_args argv = Parsed args -> ~ In Loglevel (given argv) ->
  loglevel args = VStr "INFO".
Proof.
  intros H Hno.
  destruct (parsed_fields argv args Loglevel H eq_refl) as (tuples & Ht & Hi).
  rewrite <- Hi in Hno. clear Hi H.
  change (VStr "INFO") with (loglevel defaults).
  revert Ht Hno. generalize defaults.
  induction tuples as [|[a x] rest IH]; intros n Ht Hno.
  - now injection Ht as <-.
  - apply take_actions_cons in Ht as (n1 & Ha & Hr). simpl in Hno.
    rewrite (IH _ Hr) by tauto. apply take_action_Ok in Ha.
    destruct a; simpl in Ha; try contradiction;
      try (destruct Ha as (s & ->); reflexivity);
      try (destruct Ha as (s & _ & ->); reflexivity);
      try (subst n1; reflexivity).
    exfalso. apply Hno. now left.
Qed.

End ParsedFields.

(** * The claims *)

Import Argparse.

Lemma contains_count sep s : PyStr.contains sep s = false <-> PyStr.count sep s = O.
Proof.
  induction s as [|c s IH]; simpl; [tauto|].
  destruct (Ascii.eqb c sep); simpl; [split; discriminate | exact IH].
Qed.

Lemma parse_headers_None values :
  HeaderAction.parse_headers values = None <->
  Exists (fun t => PyStr.count HeaderAction.equals_sign t <> 1%nat) values.
Proof. apply dict_update_None. Qed.

Lemma parse_headers_Some values :
  Forall (fun t => PyStr.count HeaderAction.equals_sign t = 1%nat) values ->
  exists d, HeaderAction.parse_headers values = Some d
    /\ forall k, d !! k = Spec.last_value k (Spec.pairs_of values).
Proof.
  intros H. eexists. split; [apply (dict_update_Some ∅ values H)|].
  intros k. rewrite lookup_foldl_insert_pair.
  unfold Spec.pairs_of. destruct (Spec.last_value _ _); [reflexivity | apply lookup_empty].
Qed.

(** C1, as stated, is false at the token [=v]: it has an empty key, so it
    is not a well-formed token of the specification, and yet the parse
    succeeds and stores a map with the empty string as a key. *)
Lemma C1_empty_key_is_accepted :
  ~ Spec.well_formed "=v"
  /\ KwargsAppendAction_call defaults ["=v"%string]
     = Ok (set_headers (Some (<[EmptyString := "v"%string]> ∅)) defaults).
Proof.
  split.
  - intros (k & v & Hd & Hk). vm_compute in Hd. injection Hd as <- _. now apply Hk.
  - reflexivity.
Qed.

(** C1, amended: for every namespace and every sequence of header tokens,
    if some token does not contain exactly one [=] (in particular if it has
    none), [KwargsAppendAction.__call__] fails as a whole: no map is built,
    nothing is stored, and the error handed to the parser carries the whole
    list of tokens, its text ending with the expected format.  An empty key
    alone does not make a token fail. *)
Theorem C1_token_without_single_equals_fails
    (namespace : Arguments) (values : list string) :
  Exists (fun t => PyStr.count HeaderAction.equals_sign t <> 1%nat) values ->
  HeaderAction.parse_headers values = None
  /\ KwargsAppendAction_call namespace values
     = Stop (UsageError (ArgumentError Headers (CouldNotParse values)))
  /\ exit_status (UsageError (ArgumentError Headers (CouldNotParse values)))
     = 2
  /\ forall shown,
       HeaderAction.could_not_parse_message shown
       = "Could not parse argument " +:+ HeaderAction.double_quote +:+ shown
           +:+ HeaderAction.double_quote +:+ ". It should follow the format: k1=v1 k2=v2 ...".
Proof.
  intros H. apply parse_headers_None in H.
  split; [exact H|]. split; [|split; [reflexivity|]].
  - unfold KwargsAppendAction_call. now rewrite H.
  - intros shown. unfold HeaderAction.could_not_parse_message. reflexivity.
Qed.

Lemma C1_token_without_single_equals_fails_witness :
  HeaderAction.parse_headers ["a=b"; "oops"]%string = None
  /\ KwargsAppendAction_call defaults ["a=b"; "oops"]%string
     = Stop (UsageError (ArgumentError Headers (CouldNotParse ["a=b"; "oops"]%string))).
Proof.
  destruct (C1_token_without_single_equals_fails defaults ["a=b"; "oops"]%string)
    as (H1 & H2 & _).
  - right. left. vm_compute. discriminate.
  - split; [exact H1 | exact H2].
Defined.

(** C5, as stated, is false at the token [a=b=c]: it divides on the first
    [=] into the non-empty key [a] and the value [b=c], and the parse
    fails. *)
Lemma C5_value_with_equals_is_rejected :
  Forall Spec.well_formed ["a=b=c"%string]
  /\ HeaderAction.parse_headers ["a=b=c"%string] = None
  /\ KwargsAppendAction_call defaults ["a=b=c"%string]
     = Stop (UsageError (ArgumentError Headers (CouldNotParse ["a=b=c"%string]))).
Proof.
  split; [|split; reflexivity].
  constructor; [|constructor].
  exists "a"%string, "b=c"%string. split; [reflexivity | discriminate].
Qed.

(** C5, amended: for every list of tokens each of which divides on the
    first [=] into a non-empty key and a value that contains no further
    [=], [KwargsAppendAction.__call__] succeeds and stores a map that sends
    every key to the value of its last occurrence and has no other key. *)
Theorem C5_well_formed_tokens_build_the_map
    (namespace : Arguments) (values : list string) :
  Forall (fun t => exists k v, Spec.divide t = Some (k, v) /\ k <> EmptyString
                     /\ PyStr.contains HeaderAction.equals_sign v = false) values ->
  exists d : gmap string string,
    KwargsAppendAction_call namespace values = Ok (set_headers (Some d) namespace)
    /\ (forall k, d !! k = Spec.last_value k (Spec.pairs_of values))
    /\ (forall k, is_Some (d !! k) <-> In k (map fst (Spec.pairs_of values))).
Proof.
  intros H.
  assert (H1 : Forall (fun t => PyStr.count HeaderAction.equals_sign t = 1%nat) values).
  { eapply Forall_impl; [exact H|]. intros t (k & v & Hd & _ & Hv). simpl.
    apply split1_Some in Hd as [-> Hk]. apply contains_count in Hv.
    rewrite count_app, count_cons_sep. lia. }
  destruct (parse_headers_Some values H1) as (d & Hd & Hl).
  exists d. split; [|split; [exact Hl|]].
  - unfold KwargsAppendAction_call. now rewrite Hd.
  - intros k. rewrite Hl. generalize (Spec.pairs_of values). clear.
    induction l as [|[k' v] l IH]; simpl.
    + split; [intros [x Hx]; discriminate | tauto].
    + destruct (Spec.last_value k l) as [v'|].
      * split; [intros _; right; apply IH; eauto | eauto].
      * destruct (String.eqb_spec k' k) as [->|Hne].
        -- split; [now left | eauto].
        -- split; [intros [x Hx]; discriminate|].
           intros [Heq|Hin]; [contradiction|]. now apply IH.
Qed.

Lemma C5_well_formed_tokens_build_the_map_witness :
  exists d : gmap string string,
    KwargsAppendAction_call defaults ["a=1"; "b="; "a=2"]%string
    = Ok (set_headers (Some d) defaults)
    /\ d !! "a"%string = Some "2"%string /\ d !! "b"%string = Some EmptyString
    /\ d !! "c"%string = None.
Proof.
  destruct (C5_well_formed_tokens_build_the_map defaults ["a=1"; "b="; "a=2"]%string)
    as (d & Hd & Hl & _).
  - repeat constructor.
    + exists "a"%string, "1"%string. vm_compute. repeat split; discriminate.
    + exists "b"%string, EmptyString. vm_compute. repeat split; discriminate.
    + exists "a"%string, "2"%string. vm_compute. repeat split; discriminate.
  - exists d. split; [exact Hd|]. rewrite !Hl. repeat split.
Defined.

(** C10: given with no token after it, the header flag makes
    [KwargsAppendAction.__call__] run on the empty list, which succeeds and
    stores the empty map; without the flag the field keeps [None], which is
    not the empty map. *)
Theorem C10_bare_headers_flag_gives_empty_map :
  (forall namespace,
     KwargsAppendAction_call namespace []
     = Ok (set_headers (Some ∅) namespace))
  /\ parse_args ["doc.md"; "--headers"]%string
     = Parsed (set_headers (Some ∅) (set_mdpath (Some (VStr "doc.md")) defaults))
  /\ parse_args ["--headers"; "--local"; "doc.md"]%string
     = Parsed (set_mdpath (Some (VStr "doc.md"))
                 (set_local true (set_headers (Some ∅) defaults)))
  /\ parse_args ["--headers"; "--"; "doc.md"]%string
     = Parsed (set_mdpath (Some (VStr "doc.md")) (set_headers (Some ∅) defaults))
  /\ parse_args ["doc.md"%string]
     = Parsed (set_mdpath (Some (VStr "doc.md")) defaults)
  /\ headers (set_mdpath (Some (VStr "doc.md")) defaults) = None
  /\ Some (∅ : gmap string string) <> None.
Proof.
  repeat split; try reflexivity. discriminate.
Qed.

(** C3, as stated, is false at [--loglevel warn] and at [--loglevel INFO]:
    both name one of the five severities when case is ignored, and both are
    rejected; the third severity is spelt [warning], which is accepted. *)
Lemma C3_warn_and_upper_case_are_rejected :
  Spec.names_severity "warn"
  /\ parse_args ["doc.md"; "--loglevel"; "warn"]%string
     = Exited (UsageError (ArgumentError Loglevel
         (InvalidChoice "warn" ["debug"; "info"; "warning"; "error"; "critical"]%string)))
  /\ Spec.names_severity "INFO"
  /\ parse_args ["doc.md"; "--loglevel"; "INFO"]%string
     = Exited (UsageError (ArgumentError Loglevel
         (InvalidChoice "INFO" ["debug"; "info"; "warning"; "error"; "critical"]%string)))
  /\ ~ Spec.names_severity "warning"
  /\ parse_args ["doc.md"; "--loglevel"; "warning"]%string
     = Parsed (set_loglevel (VStr "warning") (set_mdpath (Some (VStr "doc.md")) defaults)).
Proof.
  repeat split; try reflexivity.
  - vm_compute. tauto.
  - vm_compute. tauto.
  - vm_compute. intuition discriminate.
Qed.

(** What the log-level action does with one value string other than the
    separator. *)
Lemma loglevel_action ns v :
  v <> "--"%string ->
  (In v loglevel_choices ->
   take_action Loglevel [v] ns = Ok (set_loglevel (VStr v) ns))
  /\ (~ In v loglevel_choices ->
      take_action Loglevel [v] ns
      = Stop (UsageError (ArgumentError Loglevel
                            (InvalidChoice v loglevel_choices)))).
Proof.
  intros Hd.
  assert (Hone : remove_first "--" [v] = [v]).
  { simpl. destruct (String.eqb_spec v "--"); [contradiction | reflexivity]. }
  unfold take_action, get_values. rewrite Hone. cbn [action_nargs]. split.
  - intros Hv. apply (check_value_Ok Loglevel) in Hv. now rewrite Hv.
  - intros Hv.
    assert (C : check_value Loglevel v
                = Stop (UsageError (ArgumentError Loglevel
                                      (InvalidChoice v loglevel_choices)))).
    { destruct (check_value Loglevel v) as [[]|r] eqn:C.
      - apply (check_value_Ok Loglevel) in C. contradiction.
      - revert C. unfold check_value. cbn [action_choices].
        destruct (existsb _ _); [discriminate | now intros [= <-]]. }
    now rewrite C.
Qed.

(** The command line [doc.md --loglevel=v], for any string [v]. *)
Lemma parse_loglevel_explicit v :
  parse_args ["doc.md"; "--loglevel=" +:+ v]%string
  = match take_action Loglevel [v]
            (set_mdpath (Some (VStr "doc.md")) defaults) with
    | Ok n => Parsed n
    | Stop e => Exited e
    end.
Proof.
  unfold parse_args.
  assert (Hc : classify ["doc.md"; "--loglevel=" +:+ v]%string
               = inr [CArg "doc.md"; COpt (Some Loglevel) "--loglevel" (Some v)])
    by reflexivity.
  rewrite Hc. cbn [consume initial positionals].
  change (take_positional ["doc.md"%string] initial)
    with (Ok {| ns := set_mdpath (Some (VStr "doc.md")) defaults;
                positionals := false; extras := [] |}).
  cbn [bind flush plan_optional].
  assert (Hp : explicit_loop Loglevel "--loglevel" v []
               = Planned [(Loglevel, [v])] None) by (destruct v; reflexivity).
  rewrite Hp. unfold run_tuples. cbn [take_actions ns].
  destruct (take_action Loglevel [v] _) as [n|e]; reflexivity.
Qed.

(** C3, amended: the choices of the log-level flag are exactly the five
    lower-case strings debug, info, warning, error and critical, compared
    without any case folding; the field defaults to the string INFO, and the
    level configured from a name is the one its upper-cased form stands for
    (INFO by default).  Every value string other than the separator [--]
    is stored when it is one of the five and refused by the parser
    otherwise, by the action and so on the command line
    [doc.md --loglevel=v]; no namespace that [parse_args] returns holds a
    string outside the five and the default, it holds the default when
    the flag was not given, and when the parser exits [main] has done
    nothing else.  The separator as the flag's explicit
    argument ([--loglevel=--]) is left out of the claim: [_get_values] turns
    it into the empty list, which is the one other value a returned
    namespace can hold, and only after that argument. *)
Theorem C3_loglevel_closed_enumeration :
  loglevel_choices = ["debug"; "info"; "warning"; "error"; "critical"]%string
  /\ loglevel defaults = VStr "INFO"
  /\ Main.configured_level "INFO" = Logging.INFO
  /\ map Main.configured_level loglevel_choices
     = [Logging.DEBUG; Logging.INFO; Logging.WARNING; Logging.ERROR;
        Logging.CRITICAL]
  /\ (forall v, check_value Loglevel v = Ok tt <-> In v loglevel_choices)
  /\ (forall ns v, v <> "--"%string ->
        (In v loglevel_choices ->
         take_action Loglevel [v] ns = Ok (set_loglevel (VStr v) ns))
        /\ (~ In v loglevel_choices ->
            take_action Loglevel [v] ns
            = Stop (UsageError (ArgumentError Loglevel
                                  (InvalidChoice v loglevel_choices)))))
  /\ (forall v, v <> "--"%string ->
        (In v loglevel_choices ->
         parse_args ["doc.md"; "--loglevel=" +:+ v]%string
         = Parsed (set_loglevel (VStr v)
                     (set_mdpath (Some (VStr "doc.md")) defaults)))
        /\ (~ In v loglevel_choices ->
            parse_args ["doc.md"; "--loglevel=" +:+ v]%string
            = Exited (UsageError (ArgumentError Loglevel
                                    (InvalidChoice v loglevel_choices)))))
  /\ (forall argv args, parse_args argv = Parsed args ->
        (exists name, loglevel args = VStr name
                      /\ (name = "INFO"%string \/ In name loglevel_choices))
        \/ (loglevel args = VList []
            /\ In Loglevel (Cover.separator_given argv)))
  /\ (forall argv args, parse_args argv = Parsed args ->
        ~ In Loglevel (Spec.given argv) -> loglevel args = VStr "INFO")
  /\ (forall w argv e, parse_args argv = Exited e ->
        Main.main w argv = ([], Main.ParserExit e)
        /\ (exit_status e = 0 \/ exit_status e = 2)).
Proof.
  split; [reflexivity|]. split; [reflexivity|]. split; [reflexivity|].
  split; [reflexivity|]. split; [intros v; apply (check_value_Ok Loglevel)|].
  split; [intros ns0 v; apply loglevel_action|].
  split; [|split; [|split; [exact parsed_loglevel_default|]]].
  - intros v Hd. rewrite parse_loglevel_explicit.
    destruct (loglevel_action (set_mdpath (Some (VStr "doc.md")) defaults) v Hd)
      as [Hin Hout].
    split; intros Hv; [rewrite (Hin Hv) | rewrite (Hout Hv)]; reflexivity.
  - intros argv args H. pose proof (parsed_loglevel _ _ H) as Hl.
    unfold Spec.loglevel_ok in Hl.
    destruct (parsed_values _ _ H Loglevel (loglevel args) eq_refl)
      as [[name Hname]|[Hlist Hin]].
    + left. exists name. split; [exact Hname|]. rewrite Hname in Hl.
      destruct Hl as [Hl|Hl]; [left; symmetry; exact Hl | right; exact Hl].
    + right. split; assumption.
  - intros w argv e H. split; [now apply main_Exited|].
    destruct e; simpl; auto.
Qed.

Lemma C3_loglevel_closed_enumeration_witness :
  (exists name,
     loglevel (set_loglevel (VStr "debug") (set_mdpath (Some (VStr "doc.md")) defaults))
     = VStr name
     /\ (name = "INFO"%string \/ In name loglevel_choices))
  \/ (loglevel (set_loglevel (VStr "debug") (set_mdpath (Some (VStr "doc.md")) defaults))
      = VList []
      /\ In Loglevel (Cover.separator_given ["doc.md"; "-l"; "debug"]%string)).
Proof.
  destruct C3_loglevel_closed_enumeration as (_ & _ & _ & _ & _ & _ & _ & H & _).
  apply (H ["doc.md"; "-l"; "debug"]%string). reflexivity.
Defined.

(** The separator as the explicit argument of the flag: the parser stores
    the empty list, and [main] stops at [args.loglevel.upper()], before
    logging is configured and before any configuration is assembled. *)
Example separator_as_level_name (w : Main.Collaborators) :
  parse_args ["doc.md"; "--loglevel=--"]%string
  = Parsed (set_loglevel (VList []) (set_mdpath (Some (VStr "doc.md")) defaults))
  /\ parse_args ["doc.md"; "-l--"]%string
     = Parsed (set_loglevel (VList []) (set_mdpath (Some (VStr "doc.md")) defaults))
  /\ Main.main w ["doc.md"; "--loglevel=--"]%string
     = ([], Main.Uncaught Main.no_upper_error).
Proof. repeat split. Qed.

(** C4, as stated, is false at the command line [doc.md]: the header flag
    is absent and the header field is [None], which is not the empty
    map. *)
Lemma C4_absent_flag_leaves_None :
  Spec.headers_absent ["doc.md"%string]
  /\ parse_args ["doc.md"%string]
     = Parsed (set_mdpath (Some (VStr "doc.md")) defaults)
  /\ headers (set_mdpath (Some (VStr "doc.md")) defaults) = None
  /\ Main.headers (Main.make_properties
                     (set_mdpath (Some (VStr "doc.md")) defaults))
     <> Some ∅.
Proof.
  split; [|split; [reflexivity|split; [reflexivity|discriminate]]].
  unfold Spec.headers_absent. vm_compute. tauto.
Qed.

(** C4, amended: when the header flag is absent from the command line,
    the header field of a returned namespace, and of the connection
    properties built from it, is [None] (no map at all); the header-map
    parser is not run, so the parser never exits with its error. *)
Theorem C4_absent_header_flag (argv : list string) :
  Spec.headers_absent argv ->
  (forall args, parse_args argv = Parsed args ->
     headers args = None
     /\ Main.headers (Main.make_properties args) = None)
  /\ (forall e, parse_args argv
                <> Exited (UsageError (ArgumentError Headers e))).
Proof.
  intros Habs. split.
  - intros args H. pose proof (parsed_headers_absent _ _ H Habs) as Hn.
    split; [exact Hn | exact Hn].
  - intros e. now apply headers_absent_no_header_error.
Qed.

Lemma C4_absent_header_flag_witness :
  (forall args, parse_args ["doc.md"; "--local"]%string = Parsed args ->
     headers args = None
     /\ Main.headers (Main.make_properties args) = None)
  /\ (forall e, parse_args ["doc.md"; "--local"]%string
                <> Exited (UsageError (ArgumentError Headers e))).
Proof.
  apply (C4_absent_header_flag ["doc.md"; "--local"]%string).
  unfold Spec.headers_absent. vm_compute. intuition discriminate.
Defined.



(** The command lines C6 names, evaluated. *)
Example no_render_mermaid_after_render_mermaid :
  parse_args ["doc.md"; "--render-mermaid"; "--no-render-mermaid"]%string
  = Parsed (set_render_mermaid false
              (set_render_mermaid true
                 (set_mdpath (Some (VStr "doc.md")) defaults))).
Proof. reflexivity. Qed.

Example no_render_mermaid_alone :
  parse_args ["doc.md"; "--no-render-mermaid"]%string
  = Parsed (set_render_mermaid false
              (set_mdpath (Some (VStr "doc.md")) defaults)).
Proof. reflexivity. Qed.

Example render_mermaid_after_no_render_mermaid :
  parse_args ["doc.md"; "--no-render-mermaid"; "--render-mermaid"]%string
  = Parsed (set_render_mermaid true
              (set_render_mermaid false
                 (set_mdpath (Some (VStr "doc.md")) defaults))).
Proof. reflexivity. Qed.

Example no_generated_by_given :
  parse_args ["doc.md"; "--no-generated-by"]%string
  = Parsed (set_generated_by None (set_mdpath (Some (VStr "doc.md")) defaults)).
Proof. reflexivity. Qed.

Example generated_by_after_no_generated_by :
  parse_args ["doc.md"; "--no-generated-by"; "--generated-by"; "by hand"]%string
  = Parsed (set_generated_by (Some (VStr "by hand"))
              (set_generated_by None
                 (set_mdpath (Some (VStr "doc.md")) defaults))).
Proof. reflexivity. Qed.

Section DispatchFacts.
Import Main.
Variable w : Collaborators.

Lemma dispatch_local options properties mdpath :
  dispatch w true options properties mdpath
  = ([LocalProcess options properties mdpath],
     match process w options properties mdpath with
     | None => inl tt
     | Some e => inr (Raise e)
     end).
Proof. unfold dispatch. apply local_pipeline_run. Qed.

Lemma dispatch_remote_raise options properties mdpath tr e :
  remote_pipeline w options properties mdpath = (tr, inr (Raise e)) ->
  dispatch w false options properties mdpath
  = if is_HTTPError e
    then (tr ++ fst (on_HTTPError e), snd (on_HTTPError e))
    else (tr, inr (Raise e)).
Proof.
  intros H. unfold dispatch, try_except. rewrite H.
  destruct (is_HTTPError e); [|reflexivity].
  destruct (on_HTTPError e). reflexivity.
Qed.

Lemma dispatch_remote_return options properties mdpath tr :
  remote_pipeline w options properties mdpath = (tr, inl tt) ->
  dispatch w false options properties mdpath = (tr, inl tt).
Proof. intros H. unfold dispatch, try_except. now rewrite H. Qed.

Lemma remote_pipeline_no_exit options properties mdpath tr status :
  remote_pipeline w options properties mdpath <> (tr, inr (SysExit status)).
Proof.
  rewrite remote_pipeline_run.
  destruct (api_enter w properties); [|discriminate]. simpl.
  destruct (api_exit w properties _) as [[]|]; 
    destruct (synchronize w _ _ _); discriminate.
Qed.

End DispatchFacts.

Import Main.



(** C2: when the remote pipeline raises an HTTP error, [main] logs the
    exception with [logging.error]; if the exception carries a response it
    calls [json()] on it and logs the decoded body, or logs nothing more
    when [json()] raises a JSON decoding error; in each of these cases the
    run ends with [sys.exit(1)].
    The statement covers every run that reaches the dispatch: the level
    name of the namespace is a string, as it is on every command line
    that does not give the log-level flag the separator [--] as its
    explicit argument; there [main] stops before, at
    [args.loglevel.upper()]. *)
Theorem C2_http_failure_is_logged_and_exits_with_1
    (w : Collaborators) (argv : list string) (args : Arguments)
    (s name : string)
    (tr : list event) (err : exn) :
  parse_args argv = Parsed args ->
  Argparse.mdpath args = Some (VStr s) ->
  loglevel args = VStr name ->
  Argparse.local args = false ->
  remote_pipeline w (make_options args) (make_properties args) (mkPath s)
  = (tr, inr (Raise err)) ->
  is_HTTPError err = true ->
  (forall r cls msg, response err = Some r -> json r = JsonRaises cls msg ->
     cls = JSONDecodeError) ->
  main w argv
  = (BasicConfig (configured_level name) log_format
       :: tr ++ LoggingError (LogException err) :: Spec.body_log err,
     SystemExit 1)
  /\ Spec.body_log err
     = match response err with
       | Some {| json := JsonValue body |} => [LoggingError (LogJson body)]
       | _ => []
       end.
Proof.
  intros Hp Hm Hn Hl Hr Hh Hj. split.
  - rewrite (main_Parsed w argv args s name Hp Hm Hn), Hl.
    rewrite (dispatch_remote_raise w _ _ _ _ _ Hr), Hh, on_HTTPError_run. simpl.
    destruct (response err) as [r|]; [|reflexivity].
    destruct (json r) as [body|cls msg] eqn:J; [reflexivity|].
    rewrite (Hj r cls msg eq_refl J). reflexivity.
  - unfold Spec.body_log. destruct (response err) as [[[]]|]; reflexivity.
Qed.

Lemma C2_http_failure_is_logged_and_exits_with_1_witness :
  snd (main (Spec.failing_with Spec.bad_gateway) ["doc.md"%string]) = SystemExit 1
  /\ List.filter Spec.is_logging (fst (main (Spec.failing_with Spec.bad_gateway) ["doc.md"%string]))
     = [LoggingError (LogException Spec.bad_gateway)].
Proof.
  destruct (C2_http_failure_is_logged_and_exits_with_1 (Spec.failing_with Spec.bad_gateway)
              ["doc.md"%string] (set_mdpath (Some (VStr "doc.md")) defaults)
              "doc.md"%string "INFO"%string
              [ApiEnter (make_properties (set_mdpath (Some (VStr "doc.md")) defaults));
               Synchronize (session 0)
                 (make_options (set_mdpath (Some (VStr "doc.md")) defaults))
                 (mkPath "doc.md");
               ApiExit (make_properties (set_mdpath (Some (VStr "doc.md")) defaults))
                 (Some Spec.bad_gateway)]
              Spec.bad_gateway eq_refl eq_refl eq_refl eq_refl eq_refl eq_refl)
    as [H _].
  - intros r cls msg [= <-] [= <- _]. reflexivity.
  - rewrite H. split; reflexivity.
Defined.

(** The two remote scenarios of the specification, evaluated. *)
Example conflict_body_is_logged :
  main (Spec.failing_with Spec.conflict) ["doc.md"%string]
  = ([BasicConfig Logging.INFO log_format;
      ApiEnter (make_properties (set_mdpath (Some (VStr "doc.md")) defaults));
      Synchronize (session 0)
        (make_options (set_mdpath (Some (VStr "doc.md")) defaults))
        (mkPath "doc.md");
      ApiExit (make_properties (set_mdpath (Some (VStr "doc.md")) defaults))
        (Some Spec.conflict);
      LoggingError (LogException Spec.conflict);
      LoggingError (LogJson "{'message': 'conflict'}")],
     SystemExit 1).
Proof. reflexivity. Qed.

(** A JSON decoding error raised by the remote pipeline itself is not
    handled: only the one raised by [json()] inside the handler is. *)
Example decoding_error_of_the_pipeline_is_uncaught :
  snd (main (Spec.failing_with Spec.invalid_json) ["doc.md"%string])
  = Uncaught Spec.invalid_json
  /\ List.filter Spec.is_logging
       (fst (main (Spec.failing_with Spec.invalid_json) ["doc.md"%string])) = [].
Proof. split; reflexivity. Qed.

(** C8: of the failures the two pipelines raise, [main] handles exactly
    the HTTP errors of the remote pipeline.  An exception of the local
    renderer, of any class, and an exception of the remote pipeline that is
    not an HTTP error end the run uncaught, with nothing logged; an HTTP
    error of the remote pipeline reaches the handler and does not end the
    run as itself.
    The statement covers every run that reaches the dispatch: the level
    name of the namespace is a string, as it is on every command line
    that does not give the log-level flag the separator [--] as its
    explicit argument; there [main] stops before, at
    [args.loglevel.upper()]. *)
Theorem C8_only_remote_http_errors_are_caught
    (w : Collaborators) (argv : list string) (args : Arguments)
    (s name : string) :
  parse_args argv = Parsed args ->
  Argparse.mdpath args = Some (VStr s) ->
  loglevel args = VStr name ->
  (Argparse.local args = true ->
   forall e,
     process w (make_options args) (make_properties args) (mkPath s) = Some e ->
     snd (main w argv) = Uncaught e
     /\ List.filter Spec.is_logging (fst (main w argv)) = [])
  /\ (Argparse.local args = false ->
      forall tr e,
        remote_pipeline w (make_options args) (make_properties args) (mkPath s)
        = (tr, inr (Raise e)) ->
        if is_HTTPError e
        then fst (main w argv)
             = BasicConfig (configured_level name) log_format
                 :: tr ++ LoggingError (LogException e) :: Spec.body_log e
             /\ snd (main w argv) <> Uncaught e
        else main w argv
             = (BasicConfig (configured_level name) log_format :: tr,
                Uncaught e)).
Proof.
  intros Hp Hm Hn. split.
  - intros Hl e He. rewrite (main_Parsed w argv args s name Hp Hm Hn), Hl, dispatch_local, He.
    split; reflexivity.
  - intros Hl tr e Hr. rewrite (main_Parsed w argv args s name Hp Hm Hn), Hl.
    rewrite (dispatch_remote_raise w _ _ _ _ _ Hr).
    destruct (is_HTTPError e) eqn:Hh; [|reflexivity].
    rewrite on_HTTPError_run. simpl. split; [reflexivity|].
    destruct (response e) as [r|] eqn:R; [|discriminate].
    destruct (json r) as [body|cls msg]; [discriminate|].
    destruct cls; try discriminate; simpl; intros [= <-]; simpl in R; discriminate.
Qed.

Lemma C8_only_remote_http_errors_are_caught_witness :
  main (Spec.failing_with Spec.file_not_found) ["doc.md"%string]
  = ([BasicConfig Logging.INFO log_format;
      ApiEnter (make_properties (set_mdpath (Some (VStr "doc.md")) defaults));
      Synchronize (session 0)
        (make_options (set_mdpath (Some (VStr "doc.md")) defaults))
        (mkPath "doc.md");
      ApiExit (make_properties (set_mdpath (Some (VStr "doc.md")) defaults))
        (Some Spec.file_not_found)],
     Uncaught Spec.file_not_found).
Proof.
  destruct (C8_only_remote_http_errors_are_caught (Spec.failing_with Spec.file_not_found)
              ["doc.md"%string] (set_mdpath (Some (VStr "doc.md")) defaults)
              "doc.md"%string "INFO"%string eq_refl eq_refl eq_refl) as [_ H].
  exact (H eq_refl _ Spec.file_not_found eq_refl).
Defined.

Lemma on_HTTPError_not_remote e :
  List.filter Spec.is_remote (fst (on_HTTPError e)) = [].
Proof.
  rewrite on_HTTPError_run. unfold Spec.body_log. simpl.
  destruct (response e) as [[[]]|]; reflexivity.
Qed.

Lemma dispatch_remote_trace w options properties mdpath :
  exists tail,
    fst (dispatch w false options properties mdpath)
    = fst (remote_pipeline w options properties mdpath) ++ tail
    /\ List.filter Spec.is_remote tail = [].
Proof.
  destruct (remote_pipeline w options properties mdpath) as [tr [[]|[e|status]]] eqn:R.
  - exists []. rewrite (dispatch_remote_return w _ _ _ _ R), app_nil_r. now split.
  - rewrite (dispatch_remote_raise w _ _ _ _ _ R). destruct (is_HTTPError e).
    + exists (fst (on_HTTPError e)). split; [reflexivity | apply on_HTTPError_not_remote].
    + exists []. rewrite app_nil_r. now split.
  - exfalso. exact (remote_pipeline_no_exit w _ _ _ _ _ R).
Qed.

(** C9: on the remote branch the session is entered, the synchronize call
    follows at once, and the session is left right after that call,
    whether the call returned or raised: [__exit__] receives the exception
    of the call, if any, and no later step touches the session.  When
    [__enter__] itself raises there is no session and nothing to leave.
    The local branch takes no step on a session.
    The statement covers every run that reaches the dispatch: the level
    name of the namespace is a string, as it is on every command line
    that does not give the log-level flag the separator [--] as its
    explicit argument; there [main] stops before, at
    [args.loglevel.upper()]. *)
Theorem C9_remote_session_is_scoped
    (w : Collaborators) (argv : list string) (args : Arguments)
    (s name : string) :
  parse_args argv = Parsed args ->
  Argparse.mdpath args = Some (VStr s) ->
  loglevel args = VStr name ->
  let options := make_options args in
  let properties := make_properties args in
  let logging := BasicConfig (configured_level name) log_format in
  if Argparse.local args
  then List.filter Spec.is_remote (fst (main w argv)) = []
  else exists tail,
    List.filter Spec.is_remote tail = []
    /\ match api_enter w properties with
       | inl api =>
           fst (main w argv)
           = [logging; ApiEnter properties;
              Synchronize api options (mkPath s);
              ApiExit properties (synchronize w api options (mkPath s))]
               ++ tail
       | inr _ => fst (main w argv) = [logging; ApiEnter properties] ++ tail
       end.
Proof.
  intros Hp Hm Hn. cbv zeta.
  rewrite (main_Parsed w argv args s name Hp Hm Hn). cbn [fst].
  destruct (Argparse.local args).
  - rewrite dispatch_local. reflexivity.
  - destruct (dispatch_remote_trace w (make_options args) (make_properties args)
                (mkPath s)) as (tail & Ht & Hf).
    exists tail. split; [exact Hf|]. rewrite Ht, remote_pipeline_run.
    destruct (api_enter w (make_properties args)); reflexivity.
Qed.

Lemma C9_remote_session_is_scoped_witness :
  exists tail,
    List.filter Spec.is_remote tail = []
    /\ fst (main (Spec.failing_with Spec.conflict) ["doc.md"%string])
       = [BasicConfig Logging.INFO log_format;
          ApiEnter (make_properties (set_mdpath (Some (VStr "doc.md")) defaults));
          Synchronize (session 0)
            (make_options (set_mdpath (Some (VStr "doc.md")) defaults))
            (mkPath "doc.md");
          ApiExit (make_properties (set_mdpath (Some (VStr "doc.md")) defaults))
            (Some Spec.conflict)] ++ tail.
Proof.
  exact (C9_remote_session_is_scoped (Spec.failing_with Spec.conflict) ["doc.md"%string]
           (set_mdpath (Some (VStr "doc.md")) defaults) "doc.md"%string
           "INFO"%string eq_refl eq_refl eq_refl).
Defined.

(** * Further properties of the parser and of [main] *)

(** The negative-number test reads the decimal digits of every script: a
    minus sign followed by ARABIC-INDIC DIGIT THREE (U+0663, the bytes 217
    and 163 in UTF-8) is an argument, like [-5]; [-x] is an unknown
    option, and so is a minus sign before a byte sequence that is no
    character. *)
Example negative_numbers_are_arguments :
  parse_optional "-5" = inr Positional
  /\ parse_optional
       (String "-" (String (ascii_of_nat 217) (String (ascii_of_nat 163) "")))
     = inr Positional
  /\ parse_optional "-1.5" = inr Positional
  /\ parse_optional "-x" = inr (Optional None "-x" None)
  /\ parse_optional (String "-" (String (ascii_of_nat 192) (String (ascii_of_nat 176) "")))
     = inr (Optional None
              (String "-" (String (ascii_of_nat 192) (String (ascii_of_nat 176) "")))
              None)
  /\ parse_args ["-5"%string] = Parsed (set_mdpath (Some (VStr "-5")) defaults).
Proof. repeat split. Qed.



Section ScheduleFacts.
Import Argparse Spec Cover.

Lemma prepend_Some t r tuples :
  prepend t r = Some tuples -> exists l, r = Some l /\ tuples = t ++ l.
Proof. destruct r as [l|]; [intros [= <-]; eauto | discriminate]. Qed.

Lemma flush_closed m st st' :
  flush m st = Ok st' ->
  exists t, closed m = Some t /\ take_actions t (ns st) = Ok (ns st')
            /\ positionals st' = positionals st.
Proof.
  destruct m as [| | |done a|done a acc]; simpl;
    try (intros [= <-]; exists []; auto; fail); try discriminate.
  intros H. apply run_tuples_Ok in H as [H P]. eauto.
Qed.

(** The loop is its schedule, run on the namespace. *)
Theorem consume_scheduled toks : forall m st st',
  consume m st toks = Ok st' ->
  exists tuples, schedule m (positionals st) toks = Some tuples
    /\ take_actions tuples (ns st) = Ok (ns st').
Proof.
  induction toks as [|tok rest IH]; intros m st st' H.
  - cbn [consume] in H. apply flush_closed in H as (t & Hc & Ht & _). eauto.
  - assert (Hflush : forall m' (after : pstate -> pstate) t2,
      (forall x, positionals (after x) = positionals x) ->
      (forall x, ns (after x) = ns x) ->
      forall st1 st2,
      flush m st = Ok st1 ->
      take_actions t2 (ns st1) = Ok (ns st2) ->
      positionals st2 = positionals st1 ->
      consume m' (after st2) rest = Ok st' ->
      exists t1, closed m = Some t1 /\
      exists l, schedule m' (positionals st) rest = Some l
        /\ take_actions (t1 ++ t2 ++ l) (ns st) = Ok (ns st')).
    { intros m' after t2 Hp Hn st1 st2 E R P2 Hc.
      apply flush_closed in E as (t1 & Hcl & Ht1 & P1).
      apply IH in Hc as (l & Hl & Htl). rewrite Hp, P2, P1 in Hl. rewrite Hn in Htl.
      exists t1. split; [exact Hcl|]. exists l. split; [exact Hl|].
      eapply take_actions_trans; [exact Ht1|]. eapply take_actions_trans; eauto. }
    destruct tok as [s| |[a|] ostr e].
    + (* an argument *)
      destruct m as [| | |done a|done a acc]; cbn [consume] in H; cbn [schedule].
      * destruct (positionals st) eqn:P.
        -- destruct (take_positional [s] st) as [st1|] eqn:E; cbn [bind] in H;
             [|discriminate].
           apply take_positional_Ok in E as [E P1].
           apply IH in H as (l & Hl & Htl). rewrite P1 in Hl. rewrite Hl.
           exists ([(Mdpath, [s])] ++ l). split; [reflexivity|].
           eapply take_actions_trans; eauto.
        -- apply IH in H as (l & Hl & Htl). cbn [positionals add_extras] in Hl.
           rewrite P in Hl. eauto.
      * destruct (positionals st) eqn:P.
        -- destruct (take_positional [s] st) as [st1|] eqn:E; cbn [bind] in H;
             [|discriminate].
           apply take_positional_Ok in E as [E P1].
           apply IH in H as (l & Hl & Htl). rewrite P1 in Hl. rewrite Hl.
           exists ([(Mdpath, [s])] ++ l). split; [reflexivity|].
           eapply take_actions_trans; eauto.
        -- apply IH in H as (l & Hl & Htl). cbn [positionals add_extras] in Hl.
           rewrite P in Hl. eauto.
      * destruct (take_positional ["--"%string; s] st) as [st1|] eqn:E;
          cbn [bind] in H; [|discriminate].
        apply take_positional_Ok in E as [E P1].
        apply IH in H as (l & Hl & Htl). rewrite P1 in Hl. rewrite Hl.
        exists ([(Mdpath, ["--"%string; s])] ++ l). split; [reflexivity|].
        eapply take_actions_trans; eauto.
      * destruct (run_tuples (done ++ [(a, [s])]) st) as [st1|] eqn:E;
          cbn [bind] in H; [|discriminate].
        apply run_tuples_Ok in E as [E P1].
        apply IH in H as (l & Hl & Htl). rewrite P1 in Hl. rewrite Hl.
        exists ((done ++ [(a, [s])]) ++ l). split; [reflexivity|].
        eapply take_actions_trans; eauto.
      * apply IH in H. exact H.
    + (* the separator *)
      assert (Hgen : bind (flush m st) (fun st1 =>
                 if positionals st1 then consume DashPending st1 rest
                 else consume Ready (add_extras ["--"%string] st1) rest) = Ok st' ->
        exists t1, closed m = Some t1 /\
        exists l, schedule (if positionals st then DashPending else Ready)
                    (positionals st) rest = Some l
          /\ take_actions (t1 ++ l) (ns st) = Ok (ns st')).
      { intros Hb. destruct (flush m st) as [st1|] eqn:E; cbn [bind] in Hb;
          [|discriminate].
        pose proof E as E'. apply flush_closed in E' as (t1 & _ & _ & P1).
        destruct (positionals st1) eqn:P.
        - destruct (Hflush DashPending (fun x => x) [] (fun _ => eq_refl)
                      (fun _ => eq_refl) st1 st1 eq_refl eq_refl eq_refl Hb)
            as (t1' & Hcl & l & Hl & Ht).
          exists t1'. split; [exact Hcl|]. exists l. rewrite <- P1 in *.
          split; [exact Hl | exact Ht].
        - destruct (Hflush Ready (add_extras ["--"%string]) [] (fun _ => eq_refl)
                      (fun _ => eq_refl) st1 st1 eq_refl eq_refl eq_refl Hb)
            as (t1' & Hcl & l & Hl & Ht).
          exists t1'. split; [exact Hcl|]. exists l. rewrite <- P1 in *.
          split; [exact Hl | exact Ht]. }
      destruct m as [| | |done a|done a acc]; cbn [consume] in H; cbn [schedule];
        try (destruct (Hgen H) as (t1 & Hcl & l & Hl & Ht); rewrite Hcl, Hl;
             exists (t1 ++ l); split; [reflexivity | exact Ht]).
      apply IH in H. exact H.
    + (* an option of the parser *)
      cbn [consume] in H. cbn [schedule].
      destruct (flush m st) as [st1|] eqn:E; cbn [bind] in H; [|discriminate].
      destruct (plan_optional a ostr e) as [done [a'|]|] eqn:Hplan; [| |discriminate].
      * destruct (action_nargs a') eqn:N.
        -- destruct (Hflush (NeedArg done a') (fun x => x) [] (fun _ => eq_refl)
                       (fun _ => eq_refl) st1 st1 eq_refl eq_refl eq_refl H)
             as (t1 & Hcl & l & Hl & Ht).
           rewrite Hcl, Hl. exists (t1 ++ l). split; [reflexivity | exact Ht].
        -- destruct (run_tuples _ st1) as [st2|] eqn:R; cbn [bind] in H; [|discriminate].
           apply run_tuples_Ok in R as [R P2].
           destruct (Hflush Ready (fun x => x) _ (fun _ => eq_refl)
                       (fun _ => eq_refl) st1 st2 eq_refl R P2 H)
             as (t1 & Hcl & l & Hl & Ht).
           rewrite Hcl, Hl. eexists. split; [reflexivity|].
           rewrite <- (app_assoc t1). exact Ht.
        -- destruct (Hflush (Star done a' []) (fun x => x) [] (fun _ => eq_refl)
                       (fun _ => eq_refl) st1 st1 eq_refl eq_refl eq_refl H)
             as (t1 & Hcl & l & Hl & Ht).
           rewrite Hcl, Hl. exists (t1 ++ l). split; [reflexivity | exact Ht].
      * destruct (run_tuples _ st1) as [st2|] eqn:R; cbn [bind] in H; [|discriminate].
        apply run_tuples_Ok in R as [R P2].
        destruct (Hflush Ready (fun x => x) _ (fun _ => eq_refl)
                    (fun _ => eq_refl) st1 st2 eq_refl R P2 H)
          as (t1 & Hcl & l & Hl & Ht).
        rewrite Hcl, Hl. eexists. split; [reflexivity|].
        rewrite <- (app_assoc t1). exact Ht.
    + (* an unknown option *)
      cbn [consume] in H. cbn [schedule].
      destruct (flush m st) as [st1|] eqn:E; cbn [bind] in H; [|discriminate].
      destruct (Hflush Ready (add_extras [ostr]) [] (fun _ => eq_refl)
                  (fun _ => eq_refl) st1 st1 eq_refl eq_refl eq_refl H)
        as (t1 & Hcl & l & Hl & Ht).
      rewrite Hcl, Hl. exists (t1 ++ l). split; [reflexivity | exact Ht].
Qed.


Lemma closed_actions m t : closed m = Some t -> map fst t = mode_actions m.
Proof.
  destruct m; simpl; try (intros [= <-]; reflexivity); try discriminate.
  intros [= <-]. now rewrite map_app.
Qed.

Lemma schedule_step (pre l : list (action * list string))
    (am am' sel_tok sel_rest q : list action) (pos pos' : bool) :
  options_of (map fst pre) ++ options_of am' = options_of am ++ sel_tok ->
  List.filter is_mdpath (map fst pre) ++ List.filter is_mdpath am'
  = List.filter is_mdpath am ++ q ->
  (q = [] /\ (pos' = true -> pos = true))
  \/ (q = [Mdpath] /\ pos = true /\ pos' = false) ->
  options_of (map fst l) = options_of am' ++ sel_rest
  /\ (exists p, List.filter is_mdpath (map fst l)
                = List.filter is_mdpath am' ++ p
                /\ (p = [] \/ (p = [Mdpath] /\ pos' = true))) ->
  options_of (map fst (pre ++ l)) = options_of am ++ sel_tok ++ sel_rest
  /\ (exists p, List.filter is_mdpath (map fst (pre ++ l))
                = List.filter is_mdpath am ++ p
                /\ (p = [] \/ (p = [Mdpath] /\ pos = true))).
Proof.
  intros Ho Hf Hq [Hl (p & Hp & Hpp)]. split.
  - rewrite map_app, options_of_app, Hl, app_assoc, Ho, <- app_assoc. reflexivity.
  - exists (q ++ p).
    rewrite map_app, List.filter_app, Hp, app_assoc, Hf, <- app_assoc.
    split; [reflexivity|].
    destruct Hq as [[-> Hpos]|(-> & Hpos & Hpos')]; simpl.
    + destruct Hpp as [->|[-> Hx]]; auto.
    + destruct Hpp as [->|[-> Hx]]; [auto | congruence].
Qed.

Lemma no_help_app (t l : list (action * list string)) :
  ~ In Help (map fst (t ++ l)) ->
  ~ In Help (map fst t) /\ ~ In Help (map fst l).
Proof. rewrite map_app, in_app_iff. tauto. Qed.

(** The actions of a schedule that no [-h] is part of: the options given,
    in order, and at most one store of the input path. *)
Theorem schedule_actions toks :
  Forall registered toks ->
  forall m pos tuples,
  schedule m pos toks = Some tuples ->
  ~ In Help (map fst tuples) ->
  (m = DashPending -> pos = true) ->
  options_of (map fst tuples)
  = options_of (mode_actions m) ++ selected_actions toks
  /\ (exists p, List.filter is_mdpath (map fst tuples)
                = List.filter is_mdpath (mode_actions m) ++ p
                /\ (p = [] \/ (p = [Mdpath] /\ pos = true))).
Proof.
  induction 1 as [|tok rest Htok _ IH]; intros m pos tuples H Hh Hm.
  - cbn [schedule] in H. apply closed_actions in H. rewrite H, !app_nil_r.
    split; [reflexivity|]. exists []. rewrite app_nil_r. auto.
  - assert (Hstep : forall pre m' pos' sel_tok q,
      prepend pre (schedule m' pos' rest) = Some tuples ->
      (m' = DashPending -> pos' = true) ->
      options_of (map fst pre) ++ options_of (mode_actions m')
      = options_of (mode_actions m) ++ sel_tok ->
      List.filter is_mdpath (map fst pre) ++ List.filter is_mdpath (mode_actions m')
      = List.filter is_mdpath (mode_actions m) ++ q ->
      (q = [] /\ (pos' = true -> pos = true))
      \/ (q = [Mdpath] /\ pos = true /\ pos' = false) ->
      options_of (map fst tuples)
      = options_of (mode_actions m) ++ sel_tok ++ selected_actions rest
      /\ (exists p, List.filter is_mdpath (map fst tuples)
                    = List.filter is_mdpath (mode_actions m) ++ p
                    /\ (p = [] \/ (p = [Mdpath] /\ pos = true)))).
    { intros pre m' pos' sel_tok q Hp Hm' Ho Hf Hq.
      apply prepend_Some in Hp as (l & Hl & ->).
      apply no_help_app in Hh as [_ Hh].
      exact (schedule_step pre l _ _ sel_tok _ q pos pos' Ho Hf Hq
               (IH m' pos' l Hl Hh Hm')). }
    assert (Hsame : forall m', schedule m' pos rest = Some tuples ->
      (m' = DashPending -> pos = true) ->
      mode_actions m' = mode_actions m ->
      options_of (map fst tuples)
      = options_of (mode_actions m) ++ selected_actions rest
      /\ (exists p, List.filter is_mdpath (map fst tuples)
                    = List.filter is_mdpath (mode_actions m) ++ p
                    /\ (p = [] \/ (p = [Mdpath] /\ pos = true)))).
    { intros m' Hs Hm' Ha. rewrite <- Ha. exact (IH m' pos tuples Hs Hh Hm'). }
    destruct tok as [s| |[a|] ostr e]; cbn [selected_actions].
    + (* an argument *)
      destruct m as [| | |done a|done a acc]; cbn [schedule] in H.
      * destruct pos.
        -- apply (Hstep _ JustPositional false [] [Mdpath] H); auto; discriminate.
        -- apply (Hsame Ready H); auto; discriminate.
      * destruct pos.
        -- apply (Hstep _ JustPositional false [] [Mdpath] H); auto; discriminate.
        -- apply (Hsame Ready H); auto; discriminate.
      * apply (Hstep _ Ready false [] [Mdpath] H); auto; discriminate.
      * apply (Hstep _ Ready pos [] [] H); auto; try discriminate;
          cbn [mode_actions]; rewrite map_app, ?app_nil_r; reflexivity.
      * apply (Hsame _ H); auto; discriminate.
    + (* the separator *)
      destruct m as [| | |done a|done a acc]; cbn [schedule closed] in H;
        try discriminate.
      * apply (Hstep [] _ pos [] [] H); auto; destruct pos; auto; discriminate.
      * apply (Hsame Ready H); auto; discriminate.
      * apply (Hstep [] _ pos [] [] H); auto; destruct pos; auto; discriminate.
      * apply (Hstep _ _ pos [] [] H); auto;
          try (destruct pos; auto; discriminate);
          destruct pos; cbn [mode_actions]; rewrite map_app, ?app_nil_r; reflexivity.
    + (* an option of the parser *)
      simpl in Htok. cbn [schedule] in H.
      destruct (closed m) as [t|] eqn:Hcl; [|discriminate].
      apply closed_actions in Hcl.
      destruct (plan_optional a ostr e) as [done last|] eqn:Hplan; [|discriminate].
      pose proof (lookup_not_mdpath _ _ Htok) as Ha.
      assert (Hoa : options_of [a] = [a])
        by (unfold options_of; simpl; now rewrite Ha).
      assert (Hfa : List.filter is_mdpath [a] = [])
        by (simpl; now rewrite Ha).
      assert (Hhelp : forall m' l, schedule m' pos rest = Some l ->
                ~ In Help (map fst l) -> ~ In Help (mode_actions m')).
      { intros m' l Hl Hl' Hin.
        destruct (IH _ _ _ Hl Hl') as [Ho _];
          [intros ->; contradiction|].
        apply Hl'. apply (in_options_of Help); [reflexivity|]. rewrite Ho.
        apply in_or_app. left. now apply (in_options_of Help). }
      apply (plan_optional_registered _ _ _ _ _ Htok) in Hplan.
      destruct last as [a'|]; [destruct (action_nargs a')|]; cbn [last_action] in *.
      * (* the option waits for its argument *)
        destruct Hplan as [Hp|Hp].
        -- apply (Hstep _ (NeedArg done a') pos [a] [] H); auto; try discriminate;
             cbn [mode_actions];
             rewrite ?Hp, ?Hcl, ?Hoa, ?Hfa, ?app_nil_r; reflexivity.
        -- exfalso. apply prepend_Some in H as (l & Hl & ->).
           apply no_help_app in Hh as [_ Hh].
           apply (Hhelp _ _ Hl Hh). cbn [mode_actions].
           apply in_or_app. now left.
      * (* a flag *)
        destruct Hplan as [Hp|Hp].
        -- apply (Hstep _ Ready pos [a] [] H); auto; try discriminate;
             cbn [mode_actions]; rewrite !map_app; cbn [map fst];
             rewrite Hp, ?options_of_app, ?List.filter_app, Hcl, ?Hoa, ?Hfa,
               ?app_nil_r; reflexivity.
        -- exfalso. apply prepend_Some in H as (l & Hl & ->). apply Hh.
           rewrite !map_app. apply in_or_app. left. apply in_or_app. right.
           apply in_or_app. now left.
      * (* the option collects its arguments *)
        destruct Hplan as [Hp|Hp].
        -- apply (Hstep _ (Star done a' []) pos [a] [] H); auto; try discriminate;
             cbn [mode_actions];
             rewrite ?Hp, ?Hcl, ?Hoa, ?Hfa, ?app_nil_r; reflexivity.
        -- exfalso. apply prepend_Some in H as (l & Hl & ->).
           apply no_help_app in Hh as [_ Hh].
           apply (Hhelp _ _ Hl Hh). cbn [mode_actions].
           apply in_or_app. now left.
      * (* the option came with its argument *)
        rewrite app_nil_r in Hplan. destruct Hplan as [Hp|Hp].
        -- apply (Hstep _ Ready pos [a] [] H); auto; try discriminate;
             cbn [mode_actions]; rewrite !map_app;
             rewrite Hp, ?options_of_app, ?List.filter_app, Hcl, ?Hoa, ?Hfa,
               ?app_nil_r; reflexivity.
        -- exfalso. apply prepend_Some in H as (l & Hl & ->). apply Hh.
           rewrite !map_app. apply in_or_app. left. apply in_or_app. now right.
    + (* an unknown option *)
      cbn [schedule] in H.
      destruct (closed m) as [t|] eqn:Hcl; [|discriminate].
      apply closed_actions in Hcl.
      apply (Hstep _ Ready pos [] [] H); auto; try discriminate;
        cbn [mode_actions]; rewrite Hcl, ?app_nil_r; reflexivity.
Qed.

Lemma parse_args_scheduled (argv : list string) (args : Arguments) :
  parse_args argv = Parsed args ->
  exists tuples : list (action * list string),
    scheduled argv = Some tuples
    /\ take_actions tuples defaults = Ok args
    /\ options_of (map fst tuples) = given argv
    /\ List.filter is_mdpath (map fst tuples) = [Mdpath].
Proof.
  intros H. destruct (parsed_mdpath _ _ H) as [v Hv]. revert H.
  unfold parse_args, scheduled, given.
  destruct (classify argv) as [err|toks] eqn:C; [discriminate|].
  destruct (consume Ready initial toks) as [st|r] eqn:E; [|discriminate].
  unfold finish. destruct (positionals st); [discriminate|].
  destruct (extras st); [|discriminate]. intros [= <-].
  apply consume_scheduled in E as (tuples & Hs & Ht).
  cbn [positionals initial ns] in Hs, Ht.
  exists tuples. split; [exact Hs|]. split; [exact Ht|].
  destruct (schedule_actions toks (classify_registered _ _ C) Ready true tuples Hs
              (take_actions_no_help _ _ _ Ht) ltac:(discriminate))
    as [Ho (p & Hp & Hpp)].
  split; [exact Ho|]. rewrite Hp. cbn [mode_actions List.filter app].
  destruct Hpp as [->|[-> _]]; [|reflexivity].
  exfalso. assert (Hno : ~ In Mdpath (map fst tuples)).
  { intros Hin. assert (Hf : In Mdpath (List.filter is_mdpath (map fst tuples)))
      by (apply List.filter_In; now split).
    now rewrite Hp in Hf. }
  rewrite (take_actions_keep_mdpath _ _ _ Ht Hno) in Hv. discriminate.
Qed.

End ScheduleFacts.

(** X1: the loop of [_parse_known_args] factors into its schedule, the
    list of actions with their strings that the command line alone
    decides, and the run of that list on the namespace.  The namespace
    [parse_args] returns is the defaults after the actions of the
    schedule, taken in order; the schedule has exactly one store of the
    input path and, besides it, the action of each option given, in
    command-line order and each once. *)
Theorem X1_namespace_is_the_schedule_run_on_the_defaults
    (argv : list string) (args : Arguments) :
  parse_args argv = Parsed args ->
  exists tuples : list (action * list string),
    Cover.scheduled argv = Some tuples
    /\ take_actions tuples defaults = Ok args
    /\ Cover.options_of (map fst tuples) = Spec.given argv
    /\ List.filter Cover.is_mdpath (map fst tuples) = [Mdpath].
Proof. apply parse_args_scheduled. Qed.

Lemma X1_namespace_is_the_schedule_run_on_the_defaults_witness :
  Cover.scheduled ["-d"; "example.org"; "doc.md"; "--local"]%string
  = Some [(Domain, ["example.org"%string]); (Mdpath, ["doc.md"%string]);
          (Local, [])]
  /\ exists tuples : list (action * list string),
       Cover.scheduled ["-d"; "example.org"; "doc.md"; "--local"]%string
       = Some tuples
       /\ take_actions tuples defaults
          = Ok (set_local true
                  (set_mdpath (Some (VStr "doc.md"))
                     (set_domain (Some (VStr "example.org")) defaults)))
       /\ Cover.options_of (map fst tuples) = [Domain; Local]
       /\ List.filter Cover.is_mdpath (map fst tuples) = [Mdpath].
Proof.
  split; [reflexivity|].
  exact (X1_namespace_is_the_schedule_run_on_the_defaults
           ["-d"; "example.org"; "doc.md"; "--local"]%string _ eq_refl).
Defined.




(** X2: in a returned namespace each of the four plain toggles (local,
    heading anchors, invalid-URL tolerance, web-UI links) is true exactly
    when its flag was given on the command line; no flag turns one off
    again. *)
Theorem X2_toggle_is_set_exactly_when_given
    (argv : list string) (args : Arguments) :
  parse_args argv = Parsed args ->
  (Argparse.local args = true <-> In Local (Spec.given argv))
  /\ (Argparse.heading_anchors args = true <-> In HeadingAnchors (Spec.given argv))
  /\ (Argparse.ignore_invalid_url args = true
      <-> In IgnoreInvalidUrl (Spec.given argv))
  /\ (Argparse.webui_links args = true <-> In WebuiLinks (Spec.given argv)).
Proof.
  intros H.
  repeat split.
  all: match goal with |- _ -> In ?a _ =>
         destruct (parsed_fields argv args a H eq_refl) as (tuples & Ht & Hi);
         apply take_actions_fields in Ht; simpl in Ht; intros Hx; apply Hi
       | |- In ?a _ -> _ =>
         destruct (parsed_fields argv args a H eq_refl) as (tuples & Ht & Hi);
         apply take_actions_fields in Ht; simpl in Ht; intros Hx; apply Hi in Hx
       end.
  all: intuition discriminate.
Qed.

Lemma X2_toggle_is_set_exactly_when_given_witness :
  In Local (Spec.given ["doc.md"; "--loc"]%string).
Proof.
  destruct (X2_toggle_is_set_exactly_when_given ["doc.md"; "--loc"]%string
              (set_local true (set_mdpath (Some (VStr "doc.md")) defaults))
              eq_refl) as [[H _] _].
  apply H. reflexivity.
Defined.

(** X3: in a returned namespace each optional stored field (domain, base
    path, user name, API key, space key, root page) holds a value exactly
    when its option was given on the command line, and [None] otherwise.
    The value is a string, unless the option was given the separator [--]
    as its explicit argument (as in [--domain=--]): then the field may
    hold the empty list. *)
Theorem X3_string_option_is_set_exactly_when_given
    (argv : list string) (args : Arguments) :
  parse_args argv = Parsed args ->
  (is_Some (Argparse.domain args) <-> In Domain (Spec.given argv))
  /\ (is_Some (Argparse.path args) <-> In BasePath (Spec.given argv))
  /\ (is_Some (Argparse.username args) <-> In Username (Spec.given argv))
  /\ (is_Some (Argparse.apikey args) <-> In Apikey (Spec.given argv))
  /\ (is_Some (Argparse.space args) <-> In Space (Spec.given argv))
  /\ (is_Some (Argparse.root_page args) <-> In RootPage (Spec.given argv))
  /\ (forall a v,
        In a [Domain; BasePath; Username; Apikey; Space; RootPage] ->
        Cover.field_of a args = Some (Some v) ->
        (exists s, v = VStr s)
        \/ (v = VList [] /\ In a (Cover.separator_given argv))).
Proof.
  intros H.
  split; [|split; [|split; [|split; [|split; [|split]]]]];
    [| | | | | |intros a v _; apply (parsed_values _ _ H)].
  all: split.
  all: match goal with |- _ -> In ?a _ =>
         destruct (parsed_fields argv args a H eq_refl) as (tuples & Ht & Hi);
         apply take_actions_fields in Ht; simpl in Ht; intros Hx; apply Hi
       | |- In ?a _ -> _ =>
         destruct (parsed_fields argv args a H eq_refl) as (tuples & Ht & Hi);
         apply take_actions_fields in Ht; simpl in Ht; intros Hx; apply Hi in Hx
       end.
  all: destruct Ht as (_ & _ & _ & _ & T1 & T2 & T3 & T4 & T5 & T6 & _).
  all: try (first [apply T1 | apply T2 | apply T3 | apply T4 | apply T5 | apply T6];
            now right).
  all: first [apply T1 in Hx | apply T2 in Hx | apply T3 in Hx | apply T4 in Hx
             | apply T5 in Hx | apply T6 in Hx].
  all: destruct Hx as [[y Hy]|Hx]; [discriminate | exact Hx].
Qed.

Lemma X3_string_option_is_set_exactly_when_given_witness :
  ~ In Apikey (Spec.given ["doc.md"; "-u"; "me"]%string).
Proof.
  destruct (X3_string_option_is_set_exactly_when_given ["doc.md"; "-u"; "me"]%string
              (set_username (Some (VStr "me"))
                 (set_mdpath (Some (VStr "doc.md")) defaults))
              eq_refl) as (_ & _ & _ & [_ H] & _).
  intros Hin. destruct (H Hin) as [x Hx]. discriminate.
Defined.

(** X4: the diagram format of a returned namespace is [png] or [svg],
    or the empty list when the option was given the separator [--] as its
    explicit argument ([--render-mermaid-format=--], which the choices
    check does not see); the rendering options carry the field as it is;
    it is [png] when the option was not given. *)
Theorem X4_diagram_format_values (argv : list string) (args : Arguments) :
  parse_args argv = Parsed args ->
  ((exists f, Argparse.diagram_output_format args = VStr f
              /\ In f ["png"; "svg"]%string)
   \/ (Argparse.diagram_output_format args = VList []
       /\ In RenderMermaidFormat (Cover.separator_given argv)))
  /\ Main.diagram_output_format (make_options args)
     = Argparse.diagram_output_format args
  /\ (~ In RenderMermaidFormat (Spec.given argv) ->
      Argparse.diagram_output_format args = VStr "png").
Proof.
  intros H.
  destruct (parsed_fields argv args RenderMermaidFormat H eq_refl)
    as (tuples & Ht & Hi).
  split; [|split; [reflexivity|]].
  - apply take_actions_fields in Ht.
    destruct Ht as (_ & _ & _ & _ & _ & _ & _ & _ & _ & _ & Hd).
    destruct (parsed_values _ _ H RenderMermaidFormat
                (Argparse.diagram_output_format args) eq_refl)
      as [[f Hf]|Hl]; [|now right].
    left. exists f. split; [exact Hf|]. rewrite Hf in Hd.
    destruct Hd as [[= ->]|Hd]; [now left | exact Hd].
  - intros Hno. rewrite <- Hi in Hno. clear Hi H.
    change (VStr "png") with (Argparse.diagram_output_format defaults).
    revert Ht Hno. generalize defaults.
    induction tuples as [|[a x] rest IH]; intros n Ht Hno.
    + now injection Ht as <-.
    + apply take_actions_cons in Ht as (n1 & Ha & Hr). simpl in Hno.
      rewrite (IH _ Hr) by tauto. apply take_action_Ok in Ha.
      destruct a; simpl in Ha; try contradiction;
        try (destruct Ha as (s & ->); reflexivity);
        try (destruct Ha as (s & _ & ->); reflexivity);
        try (subst n1; reflexivity).
      exfalso. apply Hno. now left.
Qed.

Lemma X4_diagram_format_values_witness :
  Argparse.diagram_output_format
    (set_mdpath (Some (VStr "doc.md")) (set_heading_anchors true defaults))
  = VStr "png".
Proof.
  destruct (X4_diagram_format_values
              ["--heading-anchors"; "doc.md"]%string
              (set_mdpath (Some (VStr "doc.md")) (set_heading_anchors true defaults))
              eq_refl) as (_ & _ & H).
  apply H. vm_compute. intuition discriminate.
Defined.

(** The separator as the explicit argument of the format option. *)
Example separator_as_diagram_format :
  parse_args ["doc.md"; "--render-mermaid-format=--"]%string
  = Parsed (set_diagram_output_format (VList [])
              (set_mdpath (Some (VStr "doc.md")) defaults)).
Proof. reflexivity. Qed.

(** X5: when the level name of a returned namespace is a string, the
    level handed to [logging.basicConfig] is the one the name stands for:
    10, 20, 30, 40 or 50 for debug, info, warning, error and critical, and
    20 for the default; the upper-cased name is always an attribute of
    [logging], so the fallback of the [getattr] call is never used.  The
    level name is not a string only when the flag was given the separator
    [--] as its explicit argument, and then it is the empty list.  When
    the flag was not given, the name is the default. *)
Theorem X5_configured_level_is_the_named_one
    (argv : list string) (args : Arguments) :
  parse_args argv = Parsed args ->
  (forall name, loglevel args = VStr name ->
     In (name, configured_level name) Cover.level_table
     /\ forall fallback,
          Logging.getattr_level (PyStr.upper name) fallback
          = configured_level name)
  /\ (forall l, loglevel args = VList l ->
        l = [] /\ In Loglevel (Cover.separator_given argv))
  /\ (~ In Loglevel (Spec.given argv) ->
      loglevel args = VStr "INFO" /\ configured_level "INFO" = Logging.INFO).
Proof.
  intros H. pose proof (parsed_loglevel _ _ H) as Hl.
  split; [|split].
  - intros name Hname. unfold Spec.loglevel_ok in Hl. rewrite Hname in Hl.
    simpl in Hl.
    destruct Hl as [<-|[<-|[<-|[<-|[<-|[<-|[]]]]]]];
      (split; [vm_compute; tauto | reflexivity]).
  - intros l Hlist.
    destruct (parsed_values _ _ H Loglevel (loglevel args) eq_refl)
      as [[s Hs]|[Hs Hin]]; rewrite Hlist in Hs; [discriminate|].
    injection Hs as ->. now split.
  - intros Hno. split; [|reflexivity].
    exact (parsed_loglevel_default _ _ H Hno).
Qed.

Lemma X5_configured_level_is_the_named_one_witness :
  In ("warning"%string, configured_level "warning") Cover.level_table.
Proof.
  destruct (X5_configured_level_is_the_named_one
              ["doc.md"; "--loglevel=warning"]%string
              (set_loglevel (VStr "warning") (set_mdpath (Some (VStr "doc.md")) defaults))
              eq_refl) as [H _].
  exact (proj1 (H "warning"%string eq_refl)).
Defined.

(** X6: [--version], [-h] or [--help] as the first command-line string
    ends the run with status 0 whatever follows, a missing input path
    included; only an ambiguous abbreviation among the later strings is
    reported first. *)
Theorem X6_version_or_help_first_exits_with_0 (rest : list string) :
  parse_args ("--version"%string :: rest)
  = match classify rest with
    | inl e => Exited (UsageError e)
    | inr _ => Exited PrintVersion
    end
  /\ parse_args ("-h"%string :: rest)
     = match classify rest with
       | inl e => Exited (UsageError e)
       | inr _ => Exited PrintHelp
       end
  /\ parse_args ("--help"%string :: rest)
     = match classify rest with
       | inl e => Exited (UsageError e)
       | inr _ => Exited PrintHelp
       end
  /\ exit_status PrintVersion = 0 /\ exit_status PrintHelp = 0.
Proof.
  repeat split; unfold parse_args;
    match goal with |- context [classify (?arg :: rest)] =>
      change (classify (arg :: rest))
        with (match parse_optional arg with
              | inl e => inl e
              | inr c => match classify rest with
                         | inl e => inl e
                         | inr toks => inr (ctok_of arg c :: toks)
                         end
              end)
    end;
    destruct (classify rest); reflexivity.
Qed.

Section DispatchMore.
Import Main Cover.
Variable w : Collaborators.

Lemma remote_pipeline_no_config options properties mdpath :
  List.filter is_config (fst (remote_pipeline w options properties mdpath)) = [].
Proof.
  rewrite remote_pipeline_run. destruct (api_enter w properties); reflexivity.
Qed.

Lemma on_HTTPError_no_config e : List.filter is_config (fst (on_HTTPError e)) = [].
Proof.
  rewrite on_HTTPError_run. unfold Spec.body_log. simpl.
  destruct (response e) as [[[]]|]; reflexivity.
Qed.

Lemma dispatch_no_config is_local options properties mdpath :
  List.filter is_config (fst (dispatch w is_local options properties mdpath)) = [].
Proof.
  destruct is_local; [now rewrite dispatch_local|].
  pose proof (remote_pipeline_no_config options properties mdpath) as Hr.
  destruct (remote_pipeline w options properties mdpath) as [tr [[]|[e|status]]] eqn:R.
  - now rewrite (dispatch_remote_return w _ _ _ _ R).
  - rewrite (dispatch_remote_raise w _ _ _ _ _ R). destruct (is_HTTPError e).
    + simpl fst. rewrite List.filter_app, on_HTTPError_no_config, app_nil_r. exact Hr.
    + exact Hr.
  - exfalso. exact (remote_pipeline_no_exit w _ _ _ _ _ R).
Qed.

End DispatchMore.

(** X7: on every command line the parser accepts, the input path of the
    namespace is a string, so [Path(args.mdpath)] does not raise.  When the
    level name is a string, the run configures logging first, from that
    name, and never again, whatever the collaborators do afterwards.  When
    it is not (the flag was given the separator as explicit argument),
    [args.loglevel.upper()] raises [AttributeError], which ends the run
    before any step. *)
Theorem X7_logging_is_configured_first_and_once
    (w : Collaborators) (argv : list string) (args : Arguments) :
  parse_args argv = Parsed args ->
  exists s,
    Argparse.mdpath args = Some (VStr s)
    /\ match loglevel args with
       | VStr name =>
           exists tr,
             fst (main w argv)
             = BasicConfig (configured_level name) log_format :: tr
             /\ List.filter Cover.is_config tr = []
       | VList _ => main w argv = ([], Uncaught no_upper_error)
       end.
Proof.
  intros H. destruct (parsed_mdpath_string _ _ H) as [s Hs].
  exists s. split; [exact Hs|].
  destruct (loglevel args) as [name|l] eqn:L.
  - eexists. rewrite (main_Parsed w argv args s name H Hs L).
    split; [reflexivity|]. apply dispatch_no_config.
  - unfold main, after_parsing. now rewrite H, Hs, L.
Qed.

Lemma X7_logging_is_configured_first_and_once_witness :
  exists s,
    Argparse.mdpath (set_loglevel (VStr "error") (set_mdpath (Some (VStr "doc.md")) defaults))
    = Some (VStr s)
    /\ exists tr,
         fst (main (Spec.failing_with Spec.conflict) ["doc.md"; "-l"; "error"]%string)
         = BasicConfig (configured_level "error") log_format :: tr
         /\ List.filter Cover.is_config tr = [].
Proof.
  exact (X7_logging_is_configured_first_and_once (Spec.failing_with Spec.conflict)
           ["doc.md"; "-l"; "error"]%string
           (set_loglevel (VStr "error") (set_mdpath (Some (VStr "doc.md")) defaults))
           eq_refl).
Defined.

(** X8: [main] ends by [sys.exit] in three ways only.  With status 0,
    when the parser has printed the help or the version, and with status 2,
    when the parser has reported a usage error: both happen inside
    [parse_args], before any step of [main], whatever flags were given.
    With status 1, from the handler of [main]: only when a namespace was
    returned, only on the remote branch, and only after an HTTP error has
    been logged; the local branch never ends that way. *)
Theorem X8_sys_exit_statuses
    (w : Collaborators) (argv : list string) (status : Z) :
  Cover.sys_exit_status (snd (main w argv)) = Some status ->
  (status = 0 /\ fst (main w argv) = []
   /\ (parse_args argv = Exited PrintHelp
       \/ parse_args argv = Exited PrintVersion))
  \/ (status = 2 /\ fst (main w argv) = []
      /\ exists e, parse_args argv = Exited (UsageError e))
  \/ (status = 1
      /\ exists args e,
           parse_args argv = Parsed args
           /\ Argparse.local args = false
           /\ is_HTTPError e = true
           /\ snd (main w argv) = SystemExit 1
           /\ In (LoggingError (LogException e)) (fst (main w argv))).
Proof.
  destruct (parse_args argv) as [args|ex] eqn:P.
  - destruct (parsed_mdpath_string _ _ P) as [s Hs].
    destruct (loglevel args) as [name|l] eqn:L;
      [|unfold main, after_parsing; rewrite P, Hs, L; discriminate].
    rewrite (main_Parsed w argv args s name P Hs L). cbn [fst snd].
    destruct (Argparse.local args) eqn:Hl.
    + rewrite dispatch_local. simpl. destruct (process w _ _ _); discriminate.
    + destruct (remote_pipeline w (make_options args) (make_properties args) (mkPath s))
        as [tr [[]|[e|st]]] eqn:R.
      * rewrite (dispatch_remote_return w _ _ _ _ R). discriminate.
      * rewrite (dispatch_remote_raise w _ _ _ _ _ R).
        destruct (is_HTTPError e) eqn:Hh;
          [|destruct (Uncaught e) eqn:U; discriminate].
        rewrite on_HTTPError_run. cbn [fst snd]. intros Hx.
        assert (Hst : status = 1
                      /\ outcome_of
                           match response e with
                           | Some r =>
                               match json r with
                               | JsonValue _ => inr (SysExit 1)
                               | JsonRaises cls msg =>
                                   match cls with
                                   | JSONDecodeError => inr (SysExit 1)
                                   | _ => inr (Raise {| exn_class := cls;
                                                        message := msg;
                                                        response := None |})
                                   end
                               end
                           | None => inr (SysExit 1)
                           end = SystemExit 1).
        { destruct (response e) as [r|]; [|now injection Hx as <-].
          destruct (json r) as [body|cls msg]; [now injection Hx as <-|].
          destruct cls; try discriminate. now injection Hx as <-. }
        destruct Hst as [-> Hout].
        right. right. split; [reflexivity|]. exists args, e. repeat split; auto.
        right. apply in_or_app. right. now left.
      * exfalso. exact (remote_pipeline_no_exit w _ _ _ _ _ R).
  - rewrite (main_Exited w argv ex P). cbn [fst snd Cover.sys_exit_status].
    intros [= <-]. destruct ex as [| |e]; cbn [exit_status].
    + left. repeat split. now left.
    + left. repeat split. now right.
    + right. left. repeat split. now exists e.
Qed.

Lemma X8_sys_exit_statuses_witness :
  snd (main (Spec.failing_with Spec.bad_gateway) ["doc.md"; "--bogus"]%string)
  = ParserExit (UsageError (UnrecognizedArguments ["--bogus"%string]))
  /\ ((2 = 0 /\ fst (main (Spec.failing_with Spec.bad_gateway)
                      ["doc.md"; "--bogus"]%string) = []
       /\ (parse_args ["doc.md"; "--bogus"]%string = Exited PrintHelp
           \/ parse_args ["doc.md"; "--bogus"]%string = Exited PrintVersion))
      \/ (2 = 2 /\ fst (main (Spec.failing_with Spec.bad_gateway)
                         ["doc.md"; "--bogus"]%string) = []
          /\ exists e, parse_args ["doc.md"; "--bogus"]%string
                       = Exited (UsageError e))
      \/ (2 = 1
          /\ exists args e,
               parse_args ["doc.md"; "--bogus"]%string = Parsed args
               /\ Argparse.local args = false
               /\ is_HTTPError e = true
               /\ snd (main (Spec.failing_with Spec.bad_gateway)
                         ["doc.md"; "--bogus"]%string) = SystemExit 1
               /\ In (LoggingError (LogException e))
                     (fst (main (Spec.failing_with Spec.bad_gateway)
                             ["doc.md"; "--bogus"]%string)))).
Proof.
  split; [reflexivity|].
  exact (X8_sys_exit_statuses (Spec.failing_with Spec.bad_gateway)
           ["doc.md"; "--bogus"]%string 2 eq_refl).
Defined.

(** The three ways, evaluated: the version, a usage error given together
    with the local toggle, and the handler of [main]. *)
Example sys_exit_three_ways :
  main Cover.succeeding ["--version"%string] = ([], ParserExit PrintVersion)
  /\ main Cover.succeeding ["--local"%string]
     = ([], ParserExit (UsageError (RequiredArguments ["mdpath"%string])))
  /\ snd (main (Spec.failing_with Spec.bad_gateway) ["doc.md"%string])
     = SystemExit 1.
Proof. repeat split. Qed.

(** X9: when the remote pipeline raises an HTTP error whose response
    raises something other than a JSON decoding error from [json()], that
    second exception leaves [main] uncaught in place of the exit with
    status 1; the HTTP error has been logged, the body has not.
    The statement covers every run that reaches the dispatch: the level
    name of the namespace is a string, as it is on every command line
    that does not give the log-level flag the separator [--] as its
    explicit argument; there [main] stops before, at
    [args.loglevel.upper()]. *)
Theorem X9_other_exception_from_json_escapes
    (w : Collaborators) (argv : list string) (args : Arguments)
    (s name : string)
    (tr : list event) (err : exn) (r : Response) (cls : exception_class)
    (msg : string) :
  parse_args argv = Parsed args ->
  Argparse.mdpath args = Some (VStr s) ->
  loglevel args = VStr name ->
  Argparse.local args = false ->
  remote_pipeline w (make_options args) (make_properties args) (mkPath s)
  = (tr, inr (Raise err)) ->
  is_HTTPError err = true ->
  response err = Some r ->
  json r = JsonRaises cls msg ->
  cls <> JSONDecodeError ->
  main w argv
  = (BasicConfig (configured_level name) log_format
       :: tr ++ [LoggingError (LogException err)],
     Uncaught {| exn_class := cls; message := msg; response := None |}).
Proof.
  intros Hp Hm Hn Hl Hr Hh Hresp Hj Hc.
  rewrite (main_Parsed w argv args s name Hp Hm Hn), Hl.
  rewrite (dispatch_remote_raise w _ _ _ _ _ Hr), Hh, on_HTTPError_run.
  unfold Spec.body_log. rewrite Hresp, Hj. cbn [fst snd].
  destruct cls; try reflexivity. contradiction.
Qed.

Lemma X9_other_exception_from_json_escapes_witness :
  main (Spec.failing_with Cover.content_consumed) ["doc.md"%string]
  = ([BasicConfig Logging.INFO log_format;
      ApiEnter (make_properties (set_mdpath (Some (VStr "doc.md")) defaults));
      Synchronize (session 0)
        (make_options (set_mdpath (Some (VStr "doc.md")) defaults))
        (mkPath "doc.md");
      ApiExit (make_properties (set_mdpath (Some (VStr "doc.md")) defaults))
        (Some Cover.content_consumed);
      LoggingError (LogException Cover.content_consumed)],
     Uncaught {| exn_class := OtherException "RuntimeError";
                 message := "The content for this response was already consumed";
                 response := None |}).
Proof.
  apply (X9_other_exception_from_json_escapes (Spec.failing_with Cover.content_consumed)
           ["doc.md"%string] (set_mdpath (Some (VStr "doc.md")) defaults)
           "doc.md"%string "INFO"%string
           [ApiEnter (make_properties (set_mdpath (Some (VStr "doc.md")) defaults));
            Synchronize (session 0)
              (make_options (set_mdpath (Some (VStr "doc.md")) defaults))
              (mkPath "doc.md");
            ApiExit (make_properties (set_mdpath (Some (VStr "doc.md")) defaults))
              (Some Cover.content_consumed)]
           Cover.content_consumed
           {| json := JsonRaises (OtherException "RuntimeError")
                        "The content for this response was already consumed" |}
           (OtherException "RuntimeError")
           "The content for this response was already consumed");
    try reflexivity.
  discriminate.
Defined.

(** X10: when the remote pipeline does not raise (the synchronize call
    returned, or [__exit__] swallowed its exception), [main] returns
    normally and logs nothing: its steps are the logging configuration and
    those of the pipeline.
    The statement covers every run that reaches the dispatch: the level
    name of the namespace is a string, as it is on every command line
    that does not give the log-level flag the separator [--] as its
    explicit argument; there [main] stops before, at
    [args.loglevel.upper()]. *)
Theorem X10_remote_run_without_exception_returns
    (w : Collaborators) (argv : list string) (args : Arguments)
    (s name : string)
    (tr : list event) :
  parse_args argv = Parsed args ->
  Argparse.mdpath args = Some (VStr s) ->
  loglevel args = VStr name ->
  Argparse.local args = false ->
  remote_pipeline w (make_options args) (make_properties args) (mkPath s)
  = (tr, inl tt) ->
  main w argv
  = (BasicConfig (configured_level name) log_format :: tr, Returns)
  /\ List.filter Spec.is_logging (fst (main w argv)) = []
  /\ List.filter Spec.is_local (fst (main w argv)) = [].
Proof.
  intros Hp Hm Hn Hl Hr.
  assert (H : main w argv
    = (BasicConfig (configured_level name) log_format :: tr, Returns)).
  { rewrite (main_Parsed w argv args s name Hp Hm Hn), Hl.
    now rewrite (dispatch_remote_return w _ _ _ _ Hr). }
  rewrite H. split; [reflexivity|]. cbn [fst].
  pose proof (remote_pipeline_run w (make_options args) (make_properties args)
                (mkPath s)) as Hrun.
  rewrite Hr in Hrun.
  destruct (api_enter w (make_properties args)); [|discriminate].
  injection Hrun as -> _. split; reflexivity.
Qed.

Lemma X10_remote_run_without_exception_returns_witness :
  main Cover.succeeding ["doc.md"%string]
  = ([BasicConfig Logging.INFO log_format;
      ApiEnter (make_properties (set_mdpath (Some (VStr "doc.md")) defaults));
      Synchronize (session 0)
        (make_options (set_mdpath (Some (VStr "doc.md")) defaults))
        (mkPath "doc.md");
      ApiExit (make_properties (set_mdpath (Some (VStr "doc.md")) defaults)) None],
     Returns).
Proof.
  destruct (X10_remote_run_without_exception_returns Cover.succeeding
              ["doc.md"%string] (set_mdpath (Some (VStr "doc.md")) defaults)
              "doc.md"%string "INFO"%string
              [ApiEnter (make_properties (set_mdpath (Some (VStr "doc.md")) defaults));
               Synchronize (session 0)
                 (make_options (set_mdpath (Some (VStr "doc.md")) defaults))
                 (mkPath "doc.md");
               ApiExit (make_properties (set_mdpath (Some (VStr "doc.md")) defaults))
                 None]
              eq_refl eq_refl eq_refl eq_refl eq_refl) as [H _].
  exact H.
Defined.

(** X11: [dict(map(lambda x: x.split("="), values))] succeeds exactly when
    every token holds exactly one [=]; the map then sends each key, the
    empty key included, to the value of its last token and has no other
    key; otherwise some token has no [=] or more than one. *)
Theorem X11_header_parse_succeeds_iff_one_equals_per_token (values : list string) :
  match HeaderAction.parse_headers values with
  | Some d =>
      Forall (fun t => PyStr.count HeaderAction.equals_sign t = 1%nat) values
      /\ forall k, d !! k = Spec.last_value k (Spec.pairs_of values)
  | None =>
      Exists (fun t => PyStr.count HeaderAction.equals_sign t <> 1%nat) values
  end.
Proof.
  destruct (HeaderAction.parse_headers values) as [d|] eqn:P.
  - assert (HF : Forall (fun t => PyStr.count HeaderAction.equals_sign t = 1%nat) values).
    { apply Forall_forall. intros t Ht.
      destruct (Nat.eq_dec (PyStr.count HeaderAction.equals_sign t) 1%nat) as [E|E];
        [exact E|].
      exfalso. assert (HeaderAction.parse_headers values = None); [|congruence].
      apply parse_headers_None. apply Exists_exists. exists t. split; assumption. }
    split; [exact HF|].
    destruct (parse_headers_Some values HF) as (d' & Hd' & Hl).
    rewrite P in Hd'. injection Hd' as <-. exact Hl.
  - now apply parse_headers_None.
Qed.

Section HeaderRuns.
Import Argparse Spec Cover.

Lemma check_each_no_choices a l : action_choices a = None -> check_each a l = Ok tt.
Proof.
  intros H. induction l as [|v l IH]; simpl; [reflexivity|].
  unfold check_value. rewrite H. simpl. exact IH.
Qed.

Lemma take_action_Headers vals n :
  take_action Headers vals n = KwargsAppendAction_call n (remove_first "--" vals).
Proof.
  unfold take_action, get_values. cbn [action_nargs].
  destruct (remove_first "--" vals) as [|x [|y l]];
    rewrite (check_each_no_choices Headers _ eq_refl); reflexivity.
Qed.

Lemma remove_first_plain vals : Forall plain vals -> remove_first "--" vals = vals.
Proof.
  induction 1 as [|v vals [_ Hv] _ IH]; simpl; [reflexivity|].
  destruct (String.eqb_spec v "--"); [contradiction|]. now rewrite IH.
Qed.

Lemma classify_plain vals : Forall plain vals -> classify vals = inr (map CArg vals).
Proof.
  induction 1 as [|v vals [Hp Hv] _ IH]; simpl; [reflexivity|].
  destruct (String.eqb_spec v "--"); [contradiction|]. now rewrite Hp, IH.
Qed.

Lemma consume_star_args vals : forall done a acc st,
  consume (Star done a acc) st (map CArg vals)
  = flush (Star done a (acc ++ vals)) st.
Proof.
  induction vals as [|v vals IH]; intros done a acc st; simpl.
  - now rewrite app_nil_r.
  - rewrite IH, <- app_assoc. reflexivity.
Qed.

End HeaderRuns.

(** X12: the header action replaces, it does not append: after any run of
    actions the header field is the map parsed from the strings of the
    last header action alone, whatever earlier header actions stored. *)
Theorem X12_last_header_action_replaces_the_map
    (before after : list (action * list string)) (vals : list string)
    (n n' : Arguments) :
  take_actions (before ++ (Headers, vals) :: after) n = Ok n' ->
  ~ In Headers (map fst after) ->
  Argparse.headers n' = HeaderAction.parse_headers (remove_first "--" vals)
  /\ Argparse.headers n' <> None.
Proof.
  intros H Hno. rewrite take_actions_app in H.
  destruct (take_actions before n) as [n1|] eqn:B; simpl in H; [|discriminate].
  destruct (take_action Headers vals n1) as [n2|] eqn:A; simpl in H; [|discriminate].
  rewrite (take_actions_headers _ _ _ H Hno).
  rewrite take_action_Headers in A. unfold KwargsAppendAction_call in A.
  destruct (HeaderAction.parse_headers _) as [d|]; [|discriminate].
  injection A as <-. split; [reflexivity | discriminate].
Qed.

Lemma X12_last_header_action_replaces_the_map_witness :
  parse_args ["doc.md"; "--headers"; "a=1"; "--headers"; "b=2"]%string
  = Parsed (set_headers (Some (<["b"%string := "2"%string]> ∅))
              (set_headers (Some (<["a"%string := "1"%string]> ∅))
                 (set_mdpath (Some (VStr "doc.md")) defaults)))
  /\ Argparse.headers
       (set_headers (Some (<["b"%string := "2"%string]> ∅))
          (set_headers (Some (<["a"%string := "1"%string]> ∅))
             (set_mdpath (Some (VStr "doc.md")) defaults)))
     = HeaderAction.parse_headers ["b=2"%string].
Proof.
  split; [reflexivity|].
  apply (X12_last_header_action_replaces_the_map
           [(Mdpath, ["doc.md"%string]); (Headers, ["a=1"%string])] []
           ["b=2"%string] defaults).
  - reflexivity.
  - simpl. tauto.
Defined.

(** X13: the header option takes every plain argument that follows it, so
    on a command line that starts with [--headers] and goes on with plain
    arguments only, the input path is read as a header token: the run
    never gets a namespace.  It fails as a header error when a token does
    not parse, and for want of the input path otherwise. *)
Theorem X13_headers_option_swallows_a_following_path (vals : list string) :
  Forall Cover.plain vals ->
  parse_args ("--headers"%string :: vals)
  = match HeaderAction.parse_headers vals with
    | None => Exited (UsageError (ArgumentError Headers (CouldNotParse vals)))
    | Some _ => Exited (UsageError (RequiredArguments ["mdpath"%string]))
    end.
Proof.
  intros H. unfold parse_args.
  change (classify ("--headers"%string :: vals))
    with (match classify vals with
          | inl e => inl e
          | inr toks => inr (COpt (Some Headers) "--headers" None :: toks)
          end).
  rewrite (classify_plain vals H).
  change (consume Ready initial
            (COpt (Some Headers) "--headers" None :: map CArg vals))
    with (consume (Star [] Headers []) initial (map CArg vals)).
  rewrite consume_star_args. simpl flush. unfold run_tuples. simpl take_actions.
  rewrite take_action_Headers, (remove_first_plain vals H).
  unfold KwargsAppendAction_call.
  destruct (HeaderAction.parse_headers vals); reflexivity.
Qed.

Lemma X13_headers_option_swallows_a_following_path_witness :
  parse_args ["--headers"; "a=b"; "doc.md"]%string
  = Exited (UsageError (ArgumentError Headers (CouldNotParse ["a=b"; "doc.md"]%string))).
Proof.
  apply (X13_headers_option_swallows_a_following_path ["a=b"; "doc.md"]%string).
  repeat constructor; discriminate.
Defined.

(** X14: with a plain input path first and [--headers] followed by plain
    arguments last, [parse_args] returns the defaults with that path and
    the map parsed from the arguments, or fails with the header error when
    they do not parse. *)
Theorem X14_path_then_headers (p : string) (vals : list string) :
  Cover.plain p ->
  Forall Cover.plain vals ->
  parse_args (p :: "--headers"%string :: vals)
  = match HeaderAction.parse_headers vals with
    | Some d => Parsed (set_headers (Some d) (set_mdpath (Some (VStr p)) defaults))
    | None => Exited (UsageError (ArgumentError Headers (CouldNotParse vals)))
    end.
Proof.
  intros [Hp Hd] H. unfold parse_args.
  assert (Hc : classify (p :: "--headers"%string :: vals)
               = inr (CArg p :: COpt (Some Headers) "--headers" None :: map CArg vals)).
  { cbn [classify]. destruct (String.eqb_spec p "--"); [contradiction|].
    rewrite Hp.
    change (classify ("--headers"%string :: vals))
      with (match classify vals with
            | inl e => inl e
            | inr toks => inr (COpt (Some Headers) "--headers" None :: toks)
            end).
    now rewrite (classify_plain vals H). }
  rewrite Hc. cbn [consume initial positionals].
  assert (Ht : take_positional [p] initial
               = Ok {| ns := set_mdpath (Some (VStr p)) defaults; positionals := false;
                       extras := [] |}).
  { unfold take_positional, take_action, get_values. cbn [remove_first].
    destruct (String.eqb_spec p "--"); [contradiction|]. reflexivity. }
  rewrite Ht. cbn [bind flush plan_optional action_nargs].
  rewrite consume_star_args. simpl flush. unfold run_tuples. simpl take_actions.
  rewrite take_action_Headers, (remove_first_plain vals H).
  unfold KwargsAppendAction_call. cbn [ns].
  destruct (HeaderAction.parse_headers vals); reflexivity.
Qed.

Lemma X14_path_then_headers_witness :
  parse_args ["doc.md"; "--headers"; "X-Token=abc"]%string
  = Parsed (set_headers (Some (<["X-Token"%string := "abc"%string]> ∅))
              (set_mdpath (Some (VStr "doc.md")) defaults)).
Proof.
  apply (X14_path_then_headers "doc.md" ["X-Token=abc"%string]).
  - split; [reflexivity | discriminate].
  - repeat constructor; discriminate.
Defined.

Section ExtrasFacts.
Import Argparse Spec Cover.

Lemma run_tuples_extras tuples st st' :
  run_tuples tuples st = Ok st' -> extras st' = extras st.
Proof.
  unfold run_tuples. destruct (take_actions _ _); simpl; [|discriminate].
  now intros [= <-].
Qed.

Lemma take_positional_extras args st st' :
  take_positional args st = Ok st' -> extras st' = extras st.
Proof.
  unfold take_positional. destruct (take_action _ _ _); simpl; [|discriminate].
  now intros [= <-].
Qed.

Lemma flush_extras m st st' :
  flush m st = Ok st' -> extras st <> [] -> extras st' <> [].
Proof.
  destruct m; simpl; try (intros [= <-]; auto; fail); try discriminate.
  - intros [= <-] H. simpl. intros E. apply app_eq_nil in E as [E _]. auto.
  - intros H. apply run_tuples_extras in H. now rewrite H.
Qed.

Lemma add_extras_nonempty x st : extras (add_extras [x] st) <> [].
Proof. simpl. intros E. apply app_eq_nil in E as [_ E]. discriminate. Qed.

(** Left-over strings stay: once something is unrecognised, it is so at
    the end of the loop, and an unknown option always is. *)
Lemma consume_extras toks : forall m st st',
  consume m st toks = Ok st' ->
  extras st <> [] \/ existsb is_unknown toks = true ->
  extras st' <> [].
Proof.
  induction toks as [|tok rest IH]; intros m st st' H Hx.
  - simpl in *. destruct Hx as [Hx|Hx]; [|discriminate].
    eapply flush_extras; eauto.
  - destruct tok as [s| |[a|] ostr e]; cbn [existsb is_unknown orb] in Hx.
    + (* an argument *)
      assert (Hpos : forall args m',
        bind (take_positional args st) (fun st1 => consume m' st1 rest) = Ok st' ->
        extras st' <> []).
      { intros args m' Hb.
        destruct (take_positional args st) as [st1|] eqn:E; simpl in Hb; [|discriminate].
        apply take_positional_extras in E. apply (IH _ _ _ Hb).
        rewrite E. exact Hx. }
      destruct m as [| | |done a|done a acc]; simpl in H.
      * destruct (positionals st); [exact (Hpos [s] JustPositional H)|].
        apply (IH _ _ _ H). left. apply add_extras_nonempty.
      * destruct (positionals st); [exact (Hpos [s] JustPositional H)|].
        apply (IH _ _ _ H). left. apply add_extras_nonempty.
      * exact (Hpos ["--"%string; s] Ready H).
      * destruct (run_tuples _ st) as [st1|] eqn:E; simpl in H; [|discriminate].
        apply run_tuples_extras in E. apply (IH _ _ _ H). now rewrite E.
      * apply (IH _ _ _ H). exact Hx.
    + (* the separator *)
      assert (Hgen : bind (flush m st) (fun st1 =>
                 if positionals st1 then consume DashPending st1 rest
                 else consume Ready (add_extras ["--"%string] st1) rest) = Ok st' ->
              extras st' <> []).
      { intros Hb. destruct (flush m st) as [st1|] eqn:E; simpl in Hb; [|discriminate].
        pose proof (flush_extras _ _ _ E) as Hf.
        destruct (positionals st1).
        - apply (IH _ _ _ Hb). destruct Hx as [Hx|Hx]; [left; auto | now right].
        - apply (IH _ _ _ Hb). left. apply add_extras_nonempty. }
      destruct m; simpl in H; try (apply Hgen; exact H).
      apply (IH _ _ _ H). exact Hx.
    + (* an option of the parser *)
      simpl in H.
      destruct (flush m st) as [st1|] eqn:E; simpl in H; [|discriminate].
      pose proof (flush_extras _ _ _ E) as Hf.
      assert (Hx1 : extras st1 <> [] \/ existsb is_unknown rest = true)
        by (destruct Hx as [Hx|Hx]; [left; auto | now right]).
      destruct (plan_optional a ostr e) as [done last|]; [|discriminate].
      destruct last as [a'|].
      * destruct (action_nargs a').
        -- apply (IH _ _ _ H). exact Hx1.
        -- destruct (run_tuples _ st1) as [st2|] eqn:R; simpl in H; [|discriminate].
           apply run_tuples_extras in R. apply (IH _ _ _ H). now rewrite R.
        -- apply (IH _ _ _ H). exact Hx1.
      * destruct (run_tuples _ st1) as [st2|] eqn:R; simpl in H; [|discriminate].
        apply run_tuples_extras in R. apply (IH _ _ _ H). now rewrite R.
    + (* an unknown option *)
      simpl in H.
      destruct (flush m st) as [st1|] eqn:E; simpl in H; [|discriminate].
      apply (IH _ _ _ H). left. apply add_extras_nonempty.
Qed.

End ExtrasFacts.

(** X15: a command line on which some string is taken for an option the
    parser does not know never yields a namespace. *)
Theorem X15_unknown_option_is_never_accepted
    (argv : list string) (toks : list ctok) (args : Arguments) :
  classify argv = inr toks ->
  existsb Cover.is_unknown toks = true ->
  parse_args argv <> Parsed args.
Proof.
  intros C U. unfold parse_args. rewrite C.
  destruct (consume Ready initial toks) as [st|r] eqn:E; [|discriminate].
  unfold finish. destruct (positionals st); [discriminate|].
  pose proof (consume_extras _ _ _ _ E (or_intror U)) as Hx.
  destruct (extras st); [contradiction | discriminate].
Qed.

Lemma X15_unknown_option_is_never_accepted_witness :
  parse_args ["doc.md"; "--locale"]%string
  <> Parsed (set_mdpath (Some (VStr "doc.md")) defaults).
Proof.
  apply (X15_unknown_option_is_never_accepted ["doc.md"; "--locale"]%string
           [CArg "doc.md"; COpt None "--locale" None]); reflexivity.
Defined.

Section SuffixFacts.
Import Argparse Spec Cover.

(** A tail of the command line on which the loop cannot succeed makes
    the whole command line fail. *)
Lemma consume_suffix_fails suffix :
  (forall m st st', consume m st suffix <> Ok st') ->
  forall pre m st st', consume m st (pre ++ suffix) <> Ok st'.
Proof.
  intros Hs. induction pre as [|tok rest IH]; intros m st st' H; [exact (Hs _ _ _ H)|].
  simpl app in H. destruct tok as [s| |[a|] ostr e].
  - assert (Hpos : forall args m',
      bind (take_positional args st) (fun st1 => consume m' st1 (rest ++ suffix))
      <> Ok st').
    { intros args m' Hb. destruct (take_positional args st); simpl in Hb;
        [exact (IH _ _ _ Hb) | discriminate]. }
    destruct m as [| | |done a|done a acc]; simpl in H.
    + destruct (positionals st); [exact (Hpos [s] JustPositional H)|].
      exact (IH _ _ _ H).
    + destruct (positionals st); [exact (Hpos [s] JustPositional H)|].
      exact (IH _ _ _ H).
    + exact (Hpos ["--"%string; s] Ready H).
    + destruct (run_tuples _ st); simpl in H; [exact (IH _ _ _ H) | discriminate].
    + exact (IH _ _ _ H).
  - assert (Hgen : bind (flush m st) (fun st1 =>
               if positionals st1 then consume DashPending st1 (rest ++ suffix)
               else consume Ready (add_extras ["--"%string] st1) (rest ++ suffix))
             <> Ok st').
    { intros Hb. destruct (flush m st) as [st1|]; simpl in Hb; [|discriminate].
      destruct (positionals st1); exact (IH _ _ _ Hb). }
    destruct m; simpl in H; try exact (Hgen H). exact (IH _ _ _ H).
  - simpl in H. destruct (flush m st) as [st1|]; simpl in H; [|discriminate].
    destruct (plan_optional a ostr e) as [done [a'|]|]; [| |discriminate].
    + destruct (action_nargs a').
      * exact (IH _ _ _ H).
      * destruct (run_tuples _ st1); simpl in H; [exact (IH _ _ _ H) | discriminate].
      * exact (IH _ _ _ H).
    + destruct (run_tuples _ st1); simpl in H; [exact (IH _ _ _ H) | discriminate].
  - simpl in H. destruct (flush m st) as [st1|]; simpl in H; [|discriminate].
    exact (IH _ _ _ H).
Qed.

Lemma lookup_parse_optional o a :
  lookup_option o = Some a -> parse_optional o = inr (Optional (Some a) o None).
Proof.
  intros H. pose proof (lookup_option_In _ _ H) as Hin. simpl in Hin.
  repeat (destruct Hin as [[= <- <-]|Hin]; [reflexivity|]). contradiction.
Qed.

Lemma lookup_not_separator o a : lookup_option o = Some a -> o <> "--"%string.
Proof. intros H ->. discriminate. Qed.

Lemma classify_last pre o c :
  ~ In "--"%string pre -> o <> "--"%string -> parse_optional o = inr c ->
  forall toks, classify (pre ++ [o]) = inr toks ->
  exists toks', toks = toks' ++ [ctok_of o c].
Proof.
  intros Hno Ho Hc. induction pre as [|arg rest IH]; intros toks; simpl.
  - destruct (String.eqb_spec o "--"); [contradiction|]. rewrite Hc.
    intros [= <-]. now exists [].
  - destruct (String.eqb_spec arg "--") as [->|Hne]; [exfalso; apply Hno; now left|].
    destruct (parse_optional arg) as [err|c']; [discriminate|].
    destruct (classify (rest ++ [o])) as [err|toks1]; [discriminate|].
    intros [= <-]. destruct (IH (fun Hin => Hno (or_intror Hin)) toks1 eq_refl)
      as [toks' ->].
    now exists (ctok_of arg c' :: toks').
Qed.

End SuffixFacts.

(** X16: a command line that ends, before any [--], with an option that
    takes a value (such as [-d], [--space], [--loglevel] or
    [--generated-by]) never yields a namespace: the value is missing. *)
Theorem X16_trailing_option_without_value_is_rejected
    (pre : list string) (o : string) (a : action) (args : Arguments) :
  ~ In "--"%string pre ->
  lookup_option o = Some a ->
  action_nargs a = NargsOne ->
  parse_args (pre ++ [o]) <> Parsed args.
Proof.
  intros Hno Hl Hn. unfold parse_args.
  destruct (classify (pre ++ [o])) as [err|toks] eqn:C; [discriminate|].
  destruct (classify_last pre o _ Hno (lookup_not_separator _ _ Hl)
              (lookup_parse_optional _ _ Hl) toks C) as [toks' ->].
  destruct (consume Ready initial _) as [st|r] eqn:E; [|discriminate].
  exfalso. revert E. apply consume_suffix_fails.
  intros m st0 st1. simpl. destruct (flush m st0); simpl; [|discriminate].
  rewrite Hn. discriminate.
Qed.

Lemma X16_trailing_option_without_value_is_rejected_witness :
  parse_args (["doc.md"%string; "--local"%string] ++ ["--space"%string])
  <> Parsed (set_local true (set_mdpath (Some (VStr "doc.md")) defaults)).
Proof.
  apply (X16_trailing_option_without_value_is_rejected
           ["doc.md"; "--local"]%string "--space" Space).
  - simpl. intuition discriminate.
  - reflexivity.
  - reflexivity.
Defined.

Section StoreFacts.
Import Argparse Spec Cover.

Lemma take_action_other_dest a b args n n' :
  take_action b args n = Ok n' -> same_dest a b = false ->
  field_of a n' = field_of a n.
Proof.
  intros H Hd. apply take_action_Ok in H.
  destruct b; simpl in H; try contradiction;
    try (destruct H as (s & Hs & ->));
    try (destruct H as (s & ->));
    try subst n';
    destruct a; try discriminate; reflexivity.
Qed.

Lemma take_actions_other_dest a tuples : forall n n',
  take_actions tuples n = Ok n' ->
  Forall (fun b => same_dest a b = false) (map fst tuples) ->
  field_of a n' = field_of a n.
Proof.
  induction tuples as [|[b args] rest IH]; intros n n' H Hf.
  - now injection H as <-.
  - apply take_actions_cons in H as (n1 & Hb & Hr).
    apply Forall_cons in Hf as [Hb' Hf].
    rewrite (IH _ _ Hr Hf). eapply take_action_other_dest; eauto.
Qed.

Lemma take_action_store a v n n' :
  take_action a [v] n = Ok n' -> is_Some (field_of a n) ->
  field_of a n' = Some (Some (stored v)).
Proof.
  unfold take_action, get_values, stored. cbn [remove_first].
  destruct (String.eqb v "--").
  - intros H Hs. destruct a; try (destruct Hs as [x Hx]; discriminate);
      simpl in H; injection H as <-; reflexivity.
  - intros H Hs. destruct a; try (destruct Hs as [x Hx]; discriminate);
      cbn [action_nargs] in H;
      destruct (check_value _ v) as [[]|]; simpl in H; try discriminate;
      injection H as <-; reflexivity.
Qed.

End StoreFacts.

(** X17: when an option that stores its argument is given several
    times, the field holds what its last occurrence stored: after a run of
    actions in which a storing action with the one string [v] is followed
    by no action on the same destination, the field holds the string [v],
    or the empty list when [v] is the separator [--]. *)
Theorem X17_last_stored_value_wins
    (a : action) (v : string) (before after : list (action * list string))
    (n n' : Arguments) :
  is_Some (Cover.field_of a n) ->
  take_actions (before ++ (a, [v]) :: after) n = Ok n' ->
  Forall (fun b => Cover.same_dest a b = false) (map fst after) ->
  Cover.field_of a n' = Some (Some (Cover.stored v)).
Proof.
  intros Hs H Hf. rewrite take_actions_app in H.
  destruct (take_actions before n) as [n1|] eqn:B; simpl in H; [|discriminate].
  destruct (take_action a [v] n1) as [n2|] eqn:A; simpl in H; [|discriminate].
  rewrite (take_actions_other_dest a _ _ _ H Hf).
  apply (take_action_store _ _ _ _ A).
  destruct a; try (destruct Hs as [x Hx]; discriminate); simpl; eauto.
Qed.

Lemma X17_last_stored_value_wins_witness :
  parse_args ["-d"; "old.example.org"; "doc.md"; "--domain"; "new.example.org";
              "--local"]%string
  = Parsed (set_local true
              (set_domain (Some (VStr "new.example.org"))
                 (set_mdpath (Some (VStr "doc.md"))
                    (set_domain (Some (VStr "old.example.org")) defaults))))
  /\ Cover.field_of Domain
       (set_local true
          (set_domain (Some (VStr "new.example.org"))
             (set_mdpath (Some (VStr "doc.md"))
                (set_domain (Some (VStr "old.example.org")) defaults))))
     = Some (Some (VStr "new.example.org")).
Proof.
  split; [reflexivity|].
  apply (X17_last_stored_value_wins Domain "new.example.org"
           [(Domain, ["old.example.org"%string]); (Mdpath, ["doc.md"%string])]
           [(Local, [])] defaults).
  - simpl. eauto.
  - reflexivity.
  - repeat constructor.
Defined.

(** The separator as the explicit argument of a later occurrence replaces
    the string an earlier occurrence stored. *)
Example separator_replaces_an_earlier_value :
  parse_args ["-d"; "example.org"; "doc.md"; "--domain=--"]%string
  = Parsed (set_domain (Some (VList []))
              (set_mdpath (Some (VStr "doc.md"))
                 (set_domain (Some (VStr "example.org")) defaults)))
  /\ Cover.stored "--" = VList []
  /\ Cover.separator_given ["-d"; "example.org"; "doc.md"; "--domain=--"]%string
     = [Domain].
Proof. repeat split. Qed.
